(** * The runtime API client of @cushin/api-runtime

    A shallow embedding of [packages/api-runtime/src/schema.ts]: the endpoint
    registry ([APIEndpoint], [APIConfig], [defineConfig]) and the class
    [APIClient] with its path and query assembly, its request pipeline, its
    error classification and its single-flight token refresh.

    Conventions of the embedding.
    - A JavaScript string is represented by the bytes of its UTF-8 encoding
      (a Rocq [string]); on well-formed strings, searching and splicing byte
      sequences agrees with searching and splicing UTF-16 code units, and
      [encodeURIComponent] becomes a byte-wise map. Ill-formed strings (lone
      surrogates), on which [encodeURIComponent] raises [URIError], are
      outside the embedding.
    - JavaScript values are the JSON values plus [undefined]. A number
      [JNum n] stands for the JavaScript number of the safe integer [n]
      (between -2^53 and 2^53, see [safeInteger]), which [String] prints as
      a decimal numeral. Larger integers are rounded by JavaScript and
      printed in exponent notation from 1e21 on; they are not values of the
      embedding, and a statement that depends on how a number prints
      assumes [safeInteger].
    - The HTTP library ky is not part of the repository. Its retry protocol
      (version 1.x: the retry counter is incremented on every failed attempt,
      the attempt is abandoned when the counter exceeds [limit] or the status
      is not listed in [statusCodes], otherwise the [beforeRetry] hooks run
      and the request is issued again) is embedded as far as the client
      relies on it.
    - Asynchronous code runs on a single-threaded cooperative scheduler.
      The world is stepped by events; each event is one uninterrupted run
      of JavaScript between two suspension points.
    - Of the code generators, the parts that decide how a generated call
      site calls the runtime client are embedded: the selection of the
      endpoints, the argument lists of the emitted calls
      ([ServerQueriesGenerator], [ServerActionsGenerator], [ClientGenerator],
      [HooksGenerator]) and [BaseGenerator.getResourceFromEndpoint], whose
      case conversion is a parameter. ky also refuses an input that begins
      with a slash when a prefix URL is set. *)

From Stdlib Require Import ZArith Ascii String DecimalString.
From stdpp Require Import base list strings.

Set Warnings "-register-all".

Open Scope string_scope.
Open Scope list_scope.

(** ** JavaScript values *)

Inductive JSValue : Type :=
| JUndefined
| JNull
| JBool (b : bool)
| JNum (n : Z)
| JStr (s : string)
| JArr (items : list JSValue)
| JObj (fields : list (string * JSValue)).

(** [value !== undefined && value !== null] is [negb (nullish value)]. *)
Definition nullish (v : JSValue) : bool :=
  match v with
  | JUndefined | JNull => true
  | _ => false
  end.

(** ToBoolean: the conditions [if (body && ...)] and [a || b]. *)
Definition truthy (v : JSValue) : bool :=
  match v with
  | JUndefined | JNull => false
  | JBool b => b
  | JNum n => negb (n =? 0)%Z
  | JStr s => negb (String.eqb s "")
  | JArr _ | JObj _ => true
  end.

Fixpoint joinWith (sep : string) (parts : list string) : string :=
  match parts with
  | [] => ""
  | [p] => p
  | p :: rest => p +:+ sep +:+ joinWith sep rest
  end.

(** [String(value)]. An array prints its elements separated by commas,
    with [null] and [undefined] elements printed as the empty string. The
    numeral of a number is the one JavaScript prints when the number is a
    safe integer ([safeInteger]). *)
Fixpoint ToString (v : JSValue) : string :=
  match v with
  | JUndefined => "undefined"
  | JNull => "null"
  | JBool true => "true"
  | JBool false => "false"
  | JNum n => NilZero.string_of_int (Z.to_int n)
  | JStr s => s
  | JArr items =>
      joinWith ","
        ((fix each (l : list JSValue) : list string :=
            match l with
            | [] => []
            | x :: l' => (if nullish x then "" else ToString x) :: each l'
            end) items)
  | JObj _ => "[object Object]"
  end.

(** The integers that JavaScript numbers represent exactly and that
    [String] prints as plain decimal numerals. *)
Definition safeInteger (n : Z) : bool :=
  (- 2 ^ 53 <? n)%Z && (n <? 2 ^ 53)%Z.

(** The values all of whose numbers, as far as [String] prints them, are
    safe integers. *)
Fixpoint safeValue (v : JSValue) : bool :=
  match v with
  | JNum n => safeInteger n
  | JArr items => forallb safeValue items
  | _ => true
  end.

(** The value of the own property [key] of an object, [undefined] when
    there is none. *)
Fixpoint lookupField (key : string) (fields : list (string * JSValue)) : JSValue :=
  match fields with
  | [] => JUndefined
  | (k, v) :: rest => if String.eqb k key then v else lookupField key rest
  end.

(** Property read [o.key] on a value; [None] is the [TypeError] raised when
    the receiver is [null] or [undefined]. *)
Definition getProp (o : JSValue) (key : string) : option JSValue :=
  match o with
  | JUndefined | JNull => None
  | JObj fields => Some (lookupField key fields)
  | _ => Some JUndefined
  end.

(** ** Strings: percent-encoding and [String.prototype.replace] *)

Definition inRange (lo hi : nat) (c : ascii) : bool :=
  (lo <=? nat_of_ascii c)%nat && (nat_of_ascii c <=? hi)%nat.

Definition isAlnum (c : ascii) : bool :=
  inRange 48 57 c || inRange 65 90 c || inRange 97 122 c.

Fixpoint charIn (c : ascii) (set : string) : bool :=
  match set with
  | "" => false
  | String d rest => Ascii.eqb c d || charIn c rest
  end.

(** The characters [encodeURIComponent] leaves unescaped. *)
Definition uriUnreserved (c : ascii) : bool :=
  isAlnum c || charIn c "-_.!~*'()".

Definition hexDigit (n : nat) : ascii :=
  match String.get n "0123456789ABCDEF" with
  | Some d => d
  | None => "0"%char
  end.

Definition percentEncode (c : ascii) : string :=
  let n := nat_of_ascii c in
  String "%" (String (hexDigit (n / 16)) (String (hexDigit (n mod 16)) "")).

Fixpoint encodeURIComponent (s : string) : string :=
  match s with
  | "" => ""
  | String c rest =>
      (if uriUnreserved c then String c "" else percentEncode c)
        +:+ encodeURIComponent rest
  end.

(** The serializer of [URLSearchParams.prototype.toString]
    (application/x-www-form-urlencoded). *)
Definition formUnreserved (c : ascii) : bool :=
  isAlnum c || charIn c "*-._".

Fixpoint formEncode (s : string) : string :=
  match s with
  | "" => ""
  | String c rest =>
      (if formUnreserved c then String c ""
       else if Ascii.eqb c " " then "+"
       else percentEncode c) +:+ formEncode rest
  end.

(** [stripPrefix pat s] is the rest of [s] after its prefix [pat]. *)
Fixpoint stripPrefix (pat s : string) : option string :=
  match pat with
  | "" => Some s
  | String a pat' =>
      match s with
      | "" => None
      | String b s' => if Ascii.eqb a b then stripPrefix pat' s' else None
      end
  end.

(** The first occurrence of [pat] in [s], as the text before and after it. *)
Fixpoint findFirst (pat s : string) : option (string * string) :=
  match stripPrefix pat s with
  | Some after => Some ("", after)
  | None =>
      match s with
      | "" => None
      | String c s' =>
          match findFirst pat s' with
          | Some (before, after) => Some (String c before, after)
          | None => None
          end
      end
  end.

(** GetSubstitution for a string pattern: [$$], [$&], [$`] and [$'] are
    expanded in the replacement text; there are no captures, so every other
    [$] stays as it is. *)
Fixpoint getSubstitution (matched before after repl : string) : string :=
  match repl with
  | "" => ""
  | String c rest =>
      if Ascii.eqb c "$" then
        match rest with
        | "" => "$"
        | String d rest' =>
            if Ascii.eqb d "$" then
              "$" +:+ getSubstitution matched before after rest'
            else if Ascii.eqb d "&" then
              matched +:+ getSubstitution matched before after rest'
            else if Ascii.eqb d "`" then
              before +:+ getSubstitution matched before after rest'
            else if Ascii.eqb d "'" then
              after +:+ getSubstitution matched before after rest'
            else String c (getSubstitution matched before after rest)
        end
      else String c (getSubstitution matched before after rest)
  end.

(** [s.replace(pat, repl)] with a string pattern: the first occurrence only. *)
Definition replace (s pat repl : string) : string :=
  match findFirst pat s with
  | None => s
  | Some (before, after) =>
      before +:+ getSubstitution pat before after repl +:+ after
  end.

(** ** buildPath *)

Abbreviation Params := (list (string * JSValue)).

(** [APIClient.buildPath]; [params] is [Object.entries(params)], [None]
    when the argument is [undefined]. *)
Definition buildPath (path : string) (params : option Params) : string :=
  match params with
  | None => path
  | Some entries =>
      fold_left
        (fun finalPath '(key, value) =>
           replace finalPath (":" +:+ key) (encodeURIComponent (ToString value)))
        entries path
  end.

(** ** Errors and results *)

(** The values the code throws or catches, by class. [AuthError] is the
    subclass of [APIError] whose status is fixed at 401; [HTTPError] and
    [TimeoutError] are ky's; [ZodError] is what a schema's [parse] raises;
    [OtherError] is any other instance of [Error] (a [TypeError] of fetch,
    a [SyntaxError] of [response.json()]); [NonError] is a thrown value that
    is not an [Error]. The [message] of an [HTTPError] is the value of its
    [message] property, which the [beforeError] hook may assign; its [json]
    is what [error.response.json()] resolves to in the catch block of
    [request], [None] when it rejects. *)
Inductive Thrown : Type :=
| HTTPError (status : Z) (message : JSValue) (json : option JSValue)
| AuthError (message : string)
| APIError (message : JSValue) (status : Z) (response : option JSValue)
| ZodError (message : string)
| TimeoutError (message : string)
| OtherError (message : string)
| NonError (v : JSValue).

Inductive Outcome (A : Type) : Type :=
| Returned (a : A)
| Threw (e : Thrown).
Arguments Returned {A} a.
Arguments Threw {A} e.

(** The [status] field of a thrown [APIError] (or subclass). *)
Definition statusOf (e : Thrown) : option Z :=
  match e with
  | APIError _ status _ => Some status
  | AuthError _ => Some 401%Z
  | _ => None
  end.

(** ** Endpoint registry *)

Inductive HTTPMethod : Type := GET | POST | PUT | PATCH | DELETE.

Global Instance HTTPMethod_eq_dec : EqDecision HTTPMethod.
Proof. solve_decision. Defined.

Inductive ParseResult : Type :=
| Parsed (v : JSValue)
| Invalid (issues : string).

(** A zod schema, as far as the client uses it: [parse] returns the typed
    value or raises a [ZodError]. *)
Record Schema : Type := { parse : JSValue -> ParseResult }.

(** [response] is required by the type [APIEndpoint]; [request] nevertheless
    tests [if (endpoint.response)], so its absence at run time is
    represented. *)
Record APIEndpoint : Type := {
  ep_path : string;
  ep_method : HTTPMethod;
  ep_baseUrl : option string;
  ep_params : option Schema;
  ep_query : option Schema;
  ep_body : option Schema;
  ep_response : option Schema;
  ep_tags : list string;
  ep_description : option string
}.

Record APIConfig : Type := {
  cfg_baseUrl : option string;
  cfg_endpoints : list (string * APIEndpoint)
}.

Definition defineConfig (config : APIConfig) : APIConfig := config.

Definition defineEndpoint (config : APIEndpoint) : APIEndpoint := config.

Definition defineEndpoints (endpoints : list (string * APIEndpoint))
  : list (string * APIEndpoint) := endpoints.

(** ** Authentication callbacks *)

Record AuthTokens : Type := {
  accessToken : string;
  refreshToken : option string
}.

(** A callback supplied by the user is opaque code; it is represented by a
    name, and its invocations are recorded in the log of the world. *)
Definition Handler : Type := nat.

Record AuthCallbacks : Type := {
  getTokens : Handler;
  onAuthError : option Handler;
  onRefreshToken : option Handler
}.

(** What [await getTokens()] produces, chosen by the environment: the
    tokens (or [null]), or a rejection with an [Error] and its message. *)
Inductive TokensResult : Type :=
| Tokens (t : option AuthTokens)
| TokensRejected (message : string).

(** ** The ky instance and the client object *)

Record RetryOptions : Type := {
  limit : nat;
  methods : list HTTPMethod;
  statusCodes : list Z
}.

(** A ky instance made by [ky.create]. The hooks object of an [APIClient]
    consists of closures over [this]; it is represented by the identity of
    that client, its index in the world. *)
Record Ky : Type := {
  ky_prefixUrl : option string;
  ky_headers : list (string * string);
  ky_retry : RetryOptions;
  ky_hooks : nat
}.

Record APIClient : Type := {
  config : APIConfig;
  authCallbacks : option AuthCallbacks;
  client : Ky;
  isRefreshing : bool;
  refreshPromise : option nat;
  hooks : nat
}.

Definition clientRetry : RetryOptions :=
  {| limit := 2; methods := [GET; POST; PUT; DELETE; PATCH]; statusCodes := [401%Z] |}.

Definition ky_create (prefixUrl : option string) (hooksRef : nat) : Ky :=
  {| ky_prefixUrl := prefixUrl;
     ky_headers := [("Content-Type", "application/json")];
     ky_retry := clientRetry;
     ky_hooks := hooksRef |}.

(** The constructor; [this] is the identity of the new object. *)
Definition newAPIClient (this : nat) (config : APIConfig)
    (authCallbacks : option AuthCallbacks) : APIClient :=
  {| config := config;
     authCallbacks := authCallbacks;
     client := ky_create (cfg_baseUrl config) this;
     isRefreshing := false;
     refreshPromise := None;
     hooks := this |}.

Definition withRefresh (cl : APIClient) (refreshing : bool) (p : option nat)
  : APIClient :=
  {| config := config cl;
     authCallbacks := authCallbacks cl;
     client := client cl;
     isRefreshing := refreshing;
     refreshPromise := p;
     hooks := hooks cl |}.

Definition updateAuthCallbacks (cl : APIClient) (cbs : AuthCallbacks) : APIClient :=
  {| config := config cl;
     authCallbacks := Some cbs;
     client := client cl;
     isRefreshing := isRefreshing cl;
     refreshPromise := refreshPromise cl;
     hooks := hooks cl |}.

Definition truthyUrl (u : option string) : bool :=
  match u with
  | Some (String _ _) => true
  | _ => false
  end.

(** [endpoint.baseUrl || this.config.baseUrl!] *)
Definition getEndpointBaseUrl (cl : APIClient) (endpoint : APIEndpoint)
  : option string :=
  if truthyUrl (ep_baseUrl endpoint) then ep_baseUrl endpoint
  else cfg_baseUrl (config cl).

Definition getClientForEndpoint (cl : APIClient) (endpoint : APIEndpoint) : Ky :=
  let endpointBaseUrl := getEndpointBaseUrl cl endpoint in
  if decide (endpointBaseUrl = cfg_baseUrl (config cl)) then client cl
  else ky_create endpointBaseUrl (hooks cl).

(** ** The request pipeline *)

Abbreviation URLSearchParams := (list (string * string)).

Definition searchParams_append (sp : URLSearchParams) (name value : string)
  : URLSearchParams := sp ++ [(name, value)].

Definition searchParams_toString (sp : URLSearchParams) : string :=
  joinWith "&" (map (fun '(k, v) => formEncode k +:+ "=" +:+ formEncode v) sp).

Record Options : Type := {
  opt_method : HTTPMethod;
  opt_searchParams : option URLSearchParams;
  opt_json : option JSValue
}.

Definition isEmptyString (s : string) : bool :=
  match s with
  | "" => true
  | _ => false
  end.

(** Lines 263-273 of [request]: the query block. *)
Definition serializeQuery (query : option Params) (options : Options) : Options :=
  match query with
  | Some entries =>
      if (0 <? length entries)%nat then
        let searchParams :=
          fold_left
            (fun sp '(key, value) =>
               if negb (nullish value)
               then searchParams_append sp key (ToString value)
               else sp)
            entries [] in
        if negb (isEmptyString (searchParams_toString searchParams)) then
          {| opt_method := opt_method options;
             opt_searchParams := Some searchParams;
             opt_json := opt_json options |}
        else options
      else options
  | None => options
  end.

Definition isGET (m : HTTPMethod) : bool :=
  match m with
  | GET => true
  | _ => false
  end.

Definition withJson (options : Options) (v : JSValue) : Options :=
  {| opt_method := opt_method options;
     opt_searchParams := opt_searchParams options;
     opt_json := Some v |}.

(** Lines 275-282 of [request]: the body block. *)
Definition attachBody (endpoint : APIEndpoint) (body : JSValue) (options : Options)
  : Outcome Options :=
  if truthy body && negb (isGET (ep_method endpoint)) then
    match ep_body endpoint with
    | Some schema =>
        match parse schema body with
        | Parsed validatedBody => Returned (withJson options validatedBody)
        | Invalid issues => Threw (ZodError issues)
        end
    | None => Returned (withJson options body)
    end
  else Returned options.

(** The options object after the query block. *)
Definition queryOptions (endpoint : APIEndpoint) (query : option Params) : Options :=
  serializeQuery query
    {| opt_method := ep_method endpoint;
       opt_searchParams := None;
       opt_json := None |}.

(** [request] up to, and without, the call [client(path, options)]: the ky
    instance, the path and the options, or the exception of the body
    block. *)
Definition request_begin (cl : APIClient) (endpoint : APIEndpoint)
    (params query : option Params) (body : JSValue)
  : Ky * string * Outcome Options :=
  let path := buildPath (ep_path endpoint) params in
  let client := getClientForEndpoint cl endpoint in
  let options := queryOptions endpoint query in
  (client, path, attachBody endpoint body options).

(** [request] after [client(path, options)] has resolved with a response:
    [response.json()], then the response schema. [json] is what
    [response.json()] resolves to, [None] when it rejects. *)
Definition request_end (endpoint : APIEndpoint) (json : option JSValue)
  : Outcome JSValue :=
  match json with
  | None => Threw (OtherError "Unexpected end of JSON input")
  | Some data =>
      match ep_response endpoint with
      | Some schema =>
          match parse schema data with
          | Parsed v => Returned v
          | Invalid issues => Threw (ZodError issues)
          end
      | None => Returned data
      end
  end.

(** The catch block of [request]: what is rethrown for a caught [error]. *)
Definition request_catch (error : Thrown) : Thrown :=
  match error with
  | HTTPError status message json =>
      let errorData :=
        match json with
        | Some d => d
        | None => JObj []
        end in
      match getProp errorData "message" with
      | Some m =>
          APIError (if truthy m then m else message) status (Some errorData)
      | None => OtherError "Cannot read properties of null (reading 'message')"
      end
  | AuthError message => AuthError message
  | APIError message _ _ => APIError message 0 None
  | ZodError message => APIError (JStr message) 0 None
  | TimeoutError message => APIError (JStr message) 0 None
  | OtherError message => APIError (JStr message) 0 None
  | NonError _ => APIError (JStr "Network error") 0 None
  end.

(** The promise of [request] settles with the result of the try block, or
    with what the catch block rethrows. *)
Definition request_settle (o : Outcome JSValue) : Outcome JSValue :=
  match o with
  | Returned v => Returned v
  | Threw e => Threw (request_catch e)
  end.

(** ** The method surface *)

Inductive MethodShape : Type :=
| ShapeParamsQuery | ShapeParams | ShapeQuery | ShapeParamsBody | ShapeBody | ShapeNone.

Definition isSome {A : Type} (o : option A) : bool :=
  match o with
  | Some _ => true
  | None => false
  end.

Definition methodShape (endpoint : APIEndpoint) : MethodShape :=
  if isGET (ep_method endpoint) then
    if isSome (ep_params endpoint) && isSome (ep_query endpoint) then ShapeParamsQuery
    else if isSome (ep_params endpoint) then ShapeParams
    else if isSome (ep_query endpoint) then ShapeQuery
    else ShapeNone
  else
    if isSome (ep_params endpoint) && isSome (ep_body endpoint) then ShapeParamsBody
    else if isSome (ep_params endpoint) then ShapeParams
    else if isSome (ep_body endpoint) then ShapeBody
    else ShapeNone.

(** The arguments a generated method passes on to [request], given what the
    caller supplies for the positions the shape declares. *)
Definition methodArgs (shape : MethodShape)
    (params query : option Params) (body : JSValue)
  : option Params * option Params * JSValue :=
  match shape with
  | ShapeParamsQuery => (params, query, JUndefined)
  | ShapeParams => (params, None, JUndefined)
  | ShapeQuery => (None, query, JUndefined)
  | ShapeParamsBody => (params, None, body)
  | ShapeBody => (None, None, body)
  | ShapeNone => (None, None, JUndefined)
  end.

Definition generateMethods (cl : APIClient) : list (string * (APIEndpoint * MethodShape)) :=
  map (fun '(name, endpoint) => (name, (endpoint, methodShape endpoint)))
      (cfg_endpoints (config cl)).

(** A property of the object [createAPIClient] returns: the closure
    [generateMethods] made for an entry, or one of the two functions the
    object literal adds. *)
Inductive Member (E : Type) : Type :=
| Method (endpoint : E) (shape : MethodShape)
| RefreshAuthMember
| UpdateAuthCallbacksMember.
Arguments Method {E} endpoint shape.
Arguments RefreshAuthMember {E}.
Arguments UpdateAuthCallbacksMember {E}.

(** A property definition [key: v] after a spread in an object literal: a
    property of that name keeps its place and gets the new value;
    otherwise the property is added last. *)
Definition setProperty {A : Type} (o : list (string * A)) (key : string) (v : A)
  : list (string * A) :=
  if existsb (fun '(k, _) => String.eqb k key) o
  then map (fun '(k, x) => (k, if String.eqb k key then v else x)) o
  else o ++ [(key, v)].

(** [o[key]] for an own property. *)
Definition getProperty {A : Type} (o : list (string * A)) (key : string) : option A :=
  match List.find (fun '(k, _) => String.eqb k key) o with
  | Some (_, v) => Some v
  | None => None
  end.

(** [{ ...methods, refreshAuth: ..., updateAuthCallbacks: ... }] *)
Definition surfaceOf {E : Type} (methods : list (string * (E * MethodShape)))
  : list (string * Member E) :=
  setProperty
    (setProperty
       (map (fun '(name, (endpoint, shape)) => (name, Method endpoint shape)) methods)
       "refreshAuth" RefreshAuthMember)
    "updateAuthCallbacks" UpdateAuthCallbacksMember.

Record ClientSurface : Type := {
  instance : APIClient;
  surface_methods : list (string * Member APIEndpoint)
}.

(** [createAPIClient]: neither the constructor nor [generateMethods] has a
    throw statement, so on a registry of the declared type the result is
    always [Returned]. *)
Definition createAPIClient (this : nat) (config : APIConfig)
    (authCallbacks : option AuthCallbacks) : Outcome ClientSurface :=
  let instance := newAPIClient this config authCallbacks in
  let methods := generateMethods instance in
  Returned {| instance := instance; surface_methods := surfaceOf methods |}.

(** *** The registry at run time

    The types of the registry are erased at run time: the entries
    [generateMethods] goes through are then arbitrary values, which may
    lack the fields the type [APIEndpoint] requires. Of an entry,
    construction reads [method], [params], [query] and [body] only. *)

Definition isGETValue (v : JSValue) : bool :=
  match v with
  | JStr s => String.eqb s "GET"
  | _ => false
  end.

(** The shape of the closure [generateMethods] stores for an entry; [None]
    is the [TypeError] of reading a property of [null] or [undefined]. *)
Definition entryShape (entry : JSValue) : option MethodShape :=
  match getProp entry "method", getProp entry "params",
        getProp entry "query", getProp entry "body" with
  | Some method, Some params, Some query, Some body =>
      Some (if isGETValue method then
              if truthy params && truthy query then ShapeParamsQuery
              else if truthy params then ShapeParams
              else if truthy query then ShapeQuery
              else ShapeNone
            else
              if truthy params && truthy body then ShapeParamsBody
              else if truthy params then ShapeParams
              else if truthy body then ShapeBody
              else ShapeNone)
  | _, _, _, _ => None
  end.

(** [generateMethods] on the entries as values. *)
Fixpoint rawGenerateMethods (entries : list (string * JSValue))
  : Outcome (list (string * (JSValue * MethodShape))) :=
  match entries with
  | [] => Returned []
  | (name, entry) :: rest =>
      match entryShape entry with
      | Some shape =>
          match rawGenerateMethods rest with
          | Returned methods => Returned ((name, (entry, shape)) :: methods)
          | Threw e => Threw e
          end
      | None =>
          Threw (OtherError
                   (match entry with
                    | JNull => "Cannot read properties of null (reading 'method')"
                    | _ => "Cannot read properties of undefined (reading 'method')"
                    end))
      end
  end.

(** [createAPIClient] on such a registry: the constructor reads nothing of
    the entries. *)
Definition rawCreateAPIClient (entries : list (string * JSValue))
  : Outcome (list (string * Member JSValue)) :=
  match rawGenerateMethods entries with
  | Returned methods => Returned (surfaceOf methods)
  | Threw e => Threw e
  end.

(** The value a well-typed endpoint is at run time. A schema is an object;
    construction tests only whether it is there. *)
Definition methodName (m : HTTPMethod) : string :=
  match m with
  | GET => "GET"
  | POST => "POST"
  | PUT => "PUT"
  | PATCH => "PATCH"
  | DELETE => "DELETE"
  end.

Definition optionalField {A : Type} (key : string) (f : A -> JSValue) (o : option A)
  : list (string * JSValue) :=
  match o with
  | Some a => [(key, f a)]
  | None => []
  end.

Definition valueOfEndpoint (endpoint : APIEndpoint) : JSValue :=
  JObj ([("path", JStr (ep_path endpoint));
         ("method", JStr (methodName (ep_method endpoint)))]
        ++ optionalField "baseUrl" JStr (ep_baseUrl endpoint)
        ++ optionalField "params" (fun _ => JObj []) (ep_params endpoint)
        ++ optionalField "query" (fun _ => JObj []) (ep_query endpoint)
        ++ optionalField "body" (fun _ => JObj []) (ep_body endpoint)
        ++ optionalField "response" (fun _ => JObj []) (ep_response endpoint)
        ++ [("tags", JArr (map JStr (ep_tags endpoint)))]
        ++ optionalField "description" JStr (ep_description endpoint)).

(** ** The world: clients, promises, calls in progress *)

Inductive PromiseState : Type := Pending | Resolved | Rejected.

(** A promise created by [refreshTokens], with the client that created it.
    The promise returned by [onRefreshToken()] and the promise of the async
    function wrapped around it are one cell: the second settles, with the
    outcome of the first, in the continuation that runs the [finally]
    block. *)
Record PromiseCell : Type := {
  p_state : PromiseState;
  p_owner : nat
}.

(** Where a call of [request] stands: about to run the [beforeRequest] hook
    and fetch, waiting for the network, suspended in [beforeRetry] at
    [await this.refreshTokens()], or settled. *)
Inductive CallState : Type :=
| Starting
| InFlight
| AwaitingRefresh (p : nat)
| Settled (result : Outcome JSValue).

Record Call : Type := {
  c_client : nat;
  c_endpoint : APIEndpoint;
  c_ky : Ky;
  c_path : string;
  c_options : Options;
  c_authorization : option string;
  c_retryCount : nat;
  c_state : CallState
}.

(** Observable actions, in the order they happen. *)
Inductive Effect : Type :=
| Fetched (call : nat)
| RefreshInvoked (this : nat) (handler : Handler) (promise : nat)
| AuthErrorNotified (this : nat) (handler : Handler)
| AwaitedRefresh (call : nat) (promise : nat).

Record World : Type := {
  clients : list APIClient;
  promises : list PromiseCell;
  calls : list Call;
  log : list Effect
}.

Definition initial : World :=
  {| clients := []; promises := []; calls := []; log := [] |}.

Definition setClient (w : World) (i : nat) (cl : APIClient) : World :=
  {| clients := <[i := cl]> (clients w);
     promises := promises w;
     calls := calls w;
     log := log w |}.

Definition addClient (w : World) (cl : APIClient) : World :=
  {| clients := clients w ++ [cl];
     promises := promises w;
     calls := calls w;
     log := log w |}.

Definition allocPromise (w : World) (st : PromiseState) (owner : nat) : World :=
  {| clients := clients w;
     promises := promises w ++ [{| p_state := st; p_owner := owner |}];
     calls := calls w;
     log := log w |}.

Definition setPromise (w : World) (p : nat) (cell : PromiseCell) : World :=
  {| clients := clients w;
     promises := <[p := cell]> (promises w);
     calls := calls w;
     log := log w |}.

Definition setCall (w : World) (r : nat) (c : Call) : World :=
  {| clients := clients w;
     promises := promises w;
     calls := <[r := c]> (calls w);
     log := log w |}.

Definition addCall (w : World) (c : Call) : World :=
  {| clients := clients w;
     promises := promises w;
     calls := calls w ++ [c];
     log := log w |}.

Definition emit (w : World) (e : Effect) : World :=
  {| clients := clients w;
     promises := promises w;
     calls := calls w;
     log := log w ++ [e] |}.

Definition advance (c : Call) (auth : option string) (retryCount : nat)
    (st : CallState) : Call :=
  {| c_client := c_client c;
     c_endpoint := c_endpoint c;
     c_ky := c_ky c;
     c_path := c_path c;
     c_options := c_options c;
     c_authorization := auth;
     c_retryCount := retryCount;
     c_state := st |}.

(** ** refreshTokens *)

(** [this.refreshTokens()] up to its first suspension point, run on the
    client [cl] stored at [this]; the result is the promise the caller
    awaits. The handler [onRefreshToken] is an async function: invoking it
    returns a pending promise, which the environment settles later
    ([settleRefresh]). Without a handler the inner function throws before
    it awaits: its [finally] block runs at once, and the assignment to
    [this.refreshPromise] that follows stores the rejected promise. *)
Definition refreshTokens (w : World) (this : nat) (cl : APIClient) : World * nat :=
  let fresh := length (promises w) in
  match authCallbacks cl with
  | None => (allocPromise w Rejected this, fresh)
  | Some cbs =>
      match isRefreshing cl, refreshPromise cl with
      | true, Some p => (w, p)
      | _, _ =>
          match onRefreshToken cbs with
          | Some handler =>
              (emit (setClient (allocPromise w Pending this) this
                       (withRefresh cl true (Some fresh)))
                    (RefreshInvoked this handler fresh),
               fresh)
          | None =>
              (setClient (allocPromise w Rejected this) this
                 (withRefresh cl false (Some fresh)),
               fresh)
          end
      end
  end.

(** The continuation of the inner async function once the promise of
    [onRefreshToken()] settles: the [finally] block, then the promise of
    the refresh settles the same way. *)
Definition settleRefresh (w : World) (p : nat) (ok : bool) : World :=
  match promises w !! p with
  | Some cell =>
      match p_state cell with
      | Pending =>
          let w1 :=
            setPromise w p
              {| p_state := if ok then Resolved else Rejected;
                 p_owner := p_owner cell |} in
          match clients w1 !! p_owner cell with
          | Some cl => setClient w1 (p_owner cell) (withRefresh cl false None)
          | None => w1
          end
      | _ => w
      end
  | None => w
  end.

(** [refreshAuth] *)
Definition refreshAuth (w : World) (this : nat) : World :=
  match clients w !! this with
  | Some cl =>
      match authCallbacks cl with
      | Some _ => fst (refreshTokens w this cl)
      | None => w
      end
  | None => w
  end.

(** ** The hooks and ky's retry loop *)

Definition settle (w : World) (r : nat) (c : Call) (result : Outcome JSValue) : World :=
  setCall w r (advance c (c_authorization c) (c_retryCount c)
                 (Settled (request_settle result))).

Definition bearer (t : option AuthTokens) (current : option string) : option string :=
  match t with
  | Some tokens =>
      if isEmptyString (accessToken tokens) then current
      else Some ("Bearer " +:+ accessToken tokens)
  | None => current
  end.

(** [this.authCallbacks?.onAuthError?.(); throw new AuthError()], the
    exception leaving ky and reaching the catch block of [request]. *)
Definition authFailed (w : World) (r : nat) (c : Call) (retryCount : nat) : World :=
  let this := ky_hooks (c_ky c) in
  let w1 :=
    match clients w !! this with
    | Some cl =>
        match authCallbacks cl with
        | Some cbs =>
            match onAuthError cbs with
            | Some handler => emit w (AuthErrorNotified this handler)
            | None => w
            end
        | None => w
        end
    | None => w
    end in
  setCall w1 r (advance c (c_authorization c) retryCount
                  (Settled (request_settle (Threw (AuthError "Authentication failed"))))).

(** The [beforeRetry] hook up to its first suspension point. When it
    returns without throwing, ky issues the request again. *)
Definition beforeRetry (w : World) (r : nat) (c : Call) (error : Thrown)
    (retryCount : nat) : World :=
  let this := ky_hooks (c_ky c) in
  let again := setCall w r (advance c (c_authorization c) retryCount Starting) in
  match error with
  | HTTPError status _ _ =>
      if (status =? 401)%Z then
        match clients w !! this with
        | Some cl =>
            if (retryCount =? 1)%nat && isSome (authCallbacks cl) then
              let '(w1, p) := refreshTokens w this cl in
              emit (setCall w1 r (advance c (c_authorization c) retryCount
                                     (AwaitingRefresh p)))
                   (AwaitedRefresh r p)
            else authFailed w r c retryCount
        | None => w
        end
      else again
  | _ => again
  end.

Definition isTimeout (e : Thrown) : bool :=
  match e with
  | TimeoutError _ => true
  | _ => false
  end.

Definition retriableStatus (k : Ky) (e : Thrown) : bool :=
  match e with
  | HTTPError status _ _ =>
      bool_decide (status ∈ statusCodes (ky_retry k))
  | _ => true
  end.

(** ky after a failed attempt: give up and let the error reach the catch
    block of [request], or run [beforeRetry] with the incremented counter. *)
Definition kyFailed (w : World) (r : nat) (c : Call) (error : Thrown) : World :=
  let retryCount := S (c_retryCount c) in
  if bool_decide (opt_method (c_options c) ∈ methods (ky_retry (c_ky c))) then
    if (limit (ky_retry (c_ky c)) <? retryCount)%nat || isTimeout error
       || negb (retriableStatus (c_ky c) error)
    then setCall w r (advance c (c_authorization c) retryCount
                        (Settled (request_settle (Threw error))))
    else beforeRetry w r c error retryCount
  else settle w r c (Threw error).

(** The continuation of [beforeRetry] after [await this.refreshTokens()]. *)
Definition resume (w : World) (r : nat) (tok : TokensResult) : World :=
  match calls w !! r with
  | Some c =>
      match c_state c with
      | AwaitingRefresh p =>
          match promises w !! p with
          | Some cell =>
              match p_state cell with
              | Pending => w
              | Resolved =>
                  match tok with
                  | Tokens t =>
                      setCall w r (advance c (bearer t (c_authorization c))
                                     (c_retryCount c) Starting)
                  | TokensRejected _ => authFailed w r c (c_retryCount c)
                  end
              | Rejected => authFailed w r c (c_retryCount c)
              end
          | None => w
          end
      | _ => w
      end
  | None => w
  end.

(** The [beforeRequest] hook, then fetch. A rejection of [getTokens] is a
    failed attempt for ky. *)
Definition send (w : World) (r : nat) (tok : TokensResult) : World :=
  match calls w !! r with
  | Some c =>
      match c_state c with
      | Starting =>
          match clients w !! ky_hooks (c_ky c) with
          | Some cl =>
              match authCallbacks cl, tok with
              | Some _, TokensRejected message => kyFailed w r c (OtherError message)
              | Some _, Tokens t =>
                  emit (setCall w r (advance c (bearer t (c_authorization c))
                                       (c_retryCount c) InFlight))
                       (Fetched r)
              | None, _ =>
                  emit (setCall w r (advance c (c_authorization c)
                                       (c_retryCount c) InFlight))
                       (Fetched r)
              end
          | None => w
          end
      | _ => w
      end
  | None => w
  end.

(** What the network answers: a response with its status, the message ky
    gives the [HTTPError] it builds from a response that is not ok, and
    what the first [response.json()] on it resolves to ([None] when it
    rejects, or when the response has no body), or no response at all. *)
Inductive NetResult : Type :=
| Response (status : Z) (message : string) (json : option JSValue)
| Failure (timeout : bool) (message : string).

Definition responseOk (status : Z) : bool :=
  (200 <=? status)%Z && (status <=? 299)%Z.

(** The [beforeError] hook, run by ky on the [HTTPError] of a response that
    is not ok, before its retry logic. When the response has a body the
    hook reads it as JSON and assigns [body.message || `HTTP ${status}`] to
    [error.message]; when reading fails, or [body] is [null], the message
    stays. The hook is the first reader of the body: whatever it found,
    [error.response.json()] in the catch block of [request] rejects, the
    body being used, or absent. *)
Definition errorMessage (status : Z) (message : string) (json : option JSValue)
  : JSValue :=
  match json with
  | Some body =>
      match getProp body "message" with
      | Some m => if truthy m then m else JStr ("HTTP " +:+ ToString (JNum status))
      | None => JStr message
      end
  | None => JStr message
  end.

Definition beforeError (status : Z) (message : string) (json : option JSValue)
  : Thrown :=
  HTTPError status (errorMessage status message json) None.

(** The answer to a fetch is handled. For a failed attempt the step stands
    for the moment ky runs the [beforeRetry] hook, after its backoff delay:
    what ky does between the arrival of the answer and that moment only
    concerns the call itself. *)
Definition receive (w : World) (r : nat) (res : NetResult) : World :=
  match calls w !! r with
  | Some c =>
      match c_state c with
      | InFlight =>
          match res with
          | Response status message json =>
              if responseOk status then settle w r c (request_end (c_endpoint c) json)
              else kyFailed w r c (beforeError status message json)
          | Failure timeout message =>
              kyFailed w r c
                (if timeout then TimeoutError message else OtherError message)
          end
      | _ => w
      end
  | None => w
  end.

Definition startsWithSlash (s : string) : bool :=
  match s with
  | String c _ => Ascii.eqb c "/"
  | "" => false
  end.

(** ky refuses an input that begins with a slash when [prefixUrl] is set. *)
Definition kyRejectsInput (k : Ky) (input : string) : bool :=
  truthyUrl (ky_prefixUrl k) && startsWithSlash input.

(** [this.request(endpoint, params, query, body)] up to its first
    suspension point; the new call gets the next free index. *)
Definition request (w : World) (this : nat) (endpoint : APIEndpoint)
    (params query : option Params) (body : JSValue) : World :=
  match clients w !! this with
  | Some cl =>
      let '(ky, path, prepared) := request_begin cl endpoint params query body in
      let mk options st :=
        {| c_client := this; c_endpoint := endpoint; c_ky := ky; c_path := path;
           c_options := options; c_authorization := None; c_retryCount := 0;
           c_state := st |} in
      match prepared with
      | Threw e =>
          addCall w (mk (queryOptions endpoint query)
                        (Settled (request_settle (Threw e))))
      | Returned options =>
          if kyRejectsInput ky path then
            addCall w (mk options
              (Settled (request_settle (Threw (OtherError
                 "`input` must not begin with a slash when using `prefixUrl`")))))
          else addCall w (mk options Starting)
      end
  | None => w
  end.

(** ** Events *)

Inductive Event : Type :=
| Construct (config : APIConfig) (authCallbacks : option AuthCallbacks)
| UpdateAuthCallbacks (this : nat) (authCallbacks : AuthCallbacks)
| RefreshAuth (this : nat)
| Request (this : nat) (endpoint : APIEndpoint)
    (params query : option Params) (body : JSValue)
| Send (call : nat) (tok : TokensResult)
| Receive (call : nat) (res : NetResult)
| SettleRefresh (promise : nat) (ok : bool)
| Resume (call : nat) (tok : TokensResult).

Definition step (w : World) (ev : Event) : World :=
  match ev with
  | Construct config cbs =>
      addClient w (newAPIClient (length (clients w)) config cbs)
  | UpdateAuthCallbacks this cbs =>
      match clients w !! this with
      | Some cl => setClient w this (updateAuthCallbacks cl cbs)
      | None => w
      end
  | RefreshAuth this => refreshAuth w this
  | Request this endpoint params query body =>
      request w this endpoint params query body
  | Send r tok => send w r tok
  | Receive r res => receive w r res
  | SettleRefresh p ok => settleRefresh w p ok
  | Resume r tok => resume w r tok
  end.

Definition run (w : World) (evs : list Event) : World := fold_left step evs w.

Definition reachable (w : World) : Prop := exists evs, w = run initial evs.

(** ** Vocabulary of the statements *)

(** [pat] occurs in [s]. *)
Definition occursIn (pat s : string) : Prop :=
  exists before after, s = before +:+ pat +:+ after.

(** [s] is [before], then [pat], then [after], and [pat] occurs nowhere
    further to the left. *)
Definition firstAt (pat s before after : string) : Prop :=
  s = before +:+ pat +:+ after /\
  forall before' after',
    s = before' +:+ pat +:+ after' ->
    (String.length before <= String.length before')%nat.

(** The placeholder text of a parameter name. *)
Definition placeholder (name : string) : string := ":" +:+ name.

Fixpoint noDollar (s : string) : bool :=
  match s with
  | "" => true
  | String c rest => negb (Ascii.eqb c "$") && noDollar rest
  end.

(** The refresh operation [p] of the client [this] is outstanding: its
    handler has been invoked and has not settled. *)
Definition outstanding (w : World) (this p : nat) : Prop :=
  exists cell,
    promises w !! p = Some cell /\ p_state cell = Pending /\ p_owner cell = this.

Definition isRefreshInvoked (e : Effect) : bool :=
  match e with
  | RefreshInvoked _ _ _ => true
  | _ => false
  end.

Definition isAwaitOf (r : nat) (e : Effect) : bool :=
  match e with
  | AwaitedRefresh r' _ => (r' =? r)%nat
  | _ => false
  end.

(** How many times the call [r] has entered the refresh path. *)
Definition awaits (r : nat) (l : list Effect) : nat :=
  length (List.filter (isAwaitOf r) l).

(** The events "call [r] receives a 401", for the calls of [rs] in order. *)
Definition unauthorized (msg : nat -> string) (json : nat -> option JSValue)
    (rs : list nat) : list Event :=
  map (fun r => Receive r (Response 401 (msg r) (json r))) rs.

(** The events "the hook of call [r] continues after its await". *)
Definition resumeAll (tok : nat -> TokensResult) (rs : list nat) : list Event :=
  map (fun r => Resume r (tok r)) rs.

Definition authFailure : CallState :=
  Settled (Threw (AuthError "Authentication failed")).

(** Where a call that awaited a refresh stands after its hook has
    continued: it is issued again when the refresh succeeded (and the
    tokens could be read), it has failed with [AuthError] otherwise. *)
Definition resumed (ok : bool) (tok : TokensResult) : CallState :=
  if ok then
    match tok with
    | Tokens _ => Starting
    | TokensRejected _ => authFailure
    end
  else authFailure.

(** The reading "every occurrence of [pat] is replaced by [new]", scanning
    from the left; [skip] counts the characters of a match still to be
    dropped. It follows the words of the specification, for comparison
    with [replace]. *)
Fixpoint spec_replaceEveryFrom (pat new s : string) (skip : nat) : string :=
  match s with
  | "" => ""
  | String c s' =>
      match skip with
      | S k => spec_replaceEveryFrom pat new s' k
      | O =>
          match stripPrefix pat s with
          | Some _ => new +:+ spec_replaceEveryFrom pat new s' (String.length pat - 1)
          | None => String c (spec_replaceEveryFrom pat new s' 0)
          end
      end
  end.

Definition spec_replaceEvery (s pat new : string) : string :=
  spec_replaceEveryFrom pat new s 0.

(** The name-value pairs of a query object that survive serialization:
    the entries whose value is neither [undefined] nor [null], each with
    the string form of its value. *)
Definition keptPairs (query : option Params) : URLSearchParams :=
  match query with
  | Some entries =>
      map (fun '(key, value) => (key, ToString value))
          (List.filter (fun '(_, value) => negb (nullish value)) entries)
  | None => []
  end.

(** [w'] differs from [w] in the call [r'] at most, and no fetch has been
    logged on the way from [w] to [w']. *)
Definition quiet (r' : nat) (w w' : World) : Prop :=
  (forall r, r <> r' -> calls w' !! r = calls w !! r) /\
  (forall r, In (Fetched r) (log w') -> In (Fetched r) (log w)) /\
  length (calls w') = length (calls w).

(** The event settles the refresh promise [p]. *)
Definition settles (p : nat) (ev : Event) : bool :=
  match ev with
  | SettleRefresh q _ => (q =? p)%nat
  | _ => false
  end.

(** The effect is an invocation of the refresh handler by the client
    [this]. *)
Definition invokedBy (this : nat) (e : Effect) : bool :=
  match e with
  | RefreshInvoked i _ _ => (i =? this)%nat
  | _ => false
  end.

(** From [w] to [w'] the promise [p] has not been touched and the client
    [this] has not invoked its refresh handler. *)
Definition calm (this p : nat) (w w' : World) : Prop :=
  promises w' !! p = promises w !! p /\
  List.filter (invokedBy this) (log w') = List.filter (invokedBy this) (log w).

(** ** A sample registry *)

Definition objectSchema : Schema :=
  {| parse := fun v =>
       match v with
       | JObj _ => Parsed v
       | _ => Invalid "Expected object" 
       end |}.

(** [z.object({ name: z.string() })] *)
Definition nameSchema : Schema :=
  {| parse := fun v =>
       match v with
       | JObj fields =>
           match lookupField "name" fields with
           | JStr s => Parsed (JObj [("name", JStr s)])
           | _ => Invalid "Expected string at name"
           end
       | _ => Invalid "Expected object"
       end |}.

(** [z.string().min(1)] *)
Definition nonEmptyStringSchema : Schema :=
  {| parse := fun v =>
       match v with
       | JStr (String _ _) => Parsed v
       | _ => Invalid "Expected a non-empty string"
       end |}.

Definition getUser : APIEndpoint :=
  {| ep_path := "users/:id"; ep_method := GET; ep_baseUrl := None;
     ep_params := Some objectSchema; ep_query := None; ep_body := None;
     ep_response := Some objectSchema; ep_tags := ["users"];
     ep_description := None |}.

Definition createUser : APIEndpoint :=
  {| ep_path := "users"; ep_method := POST;
     ep_baseUrl := Some "https://admin.example.com";
     ep_params := None; ep_query := None; ep_body := Some nameSchema;
     ep_response := Some objectSchema; ep_tags := ["users"];
     ep_description := None |}.

Definition setMotto : APIEndpoint :=
  {| ep_path := "motto"; ep_method := PUT; ep_baseUrl := None;
     ep_params := None; ep_query := None; ep_body := Some nonEmptyStringSchema;
     ep_response := Some objectSchema; ep_tags := [];
     ep_description := None |}.

(** An entry without a response schema. *)
Definition ping : APIEndpoint :=
  {| ep_path := "ping"; ep_method := GET; ep_baseUrl := None;
     ep_params := None; ep_query := None; ep_body := None;
     ep_response := None; ep_tags := []; ep_description := None |}.

Definition sampleConfig : APIConfig :=
  {| cfg_baseUrl := Some "https://api.example.com";
     cfg_endpoints :=
       [("getUser", getUser); ("createUser", createUser);
        ("setMotto", setMotto); ("ping", ping)] |}.

Definition sampleCallbacks : AuthCallbacks :=
  {| getTokens := 0; onAuthError := Some 1; onRefreshToken := Some 2 |}.

Definition token (s : string) : TokensResult :=
  Tokens (Some {| accessToken := s; refreshToken := None |}).

(** One client; a call of [getUser] and a call of [createUser], served by
    two ky instances, are both waiting for the network. *)
Definition twoInFlight : World :=
  run initial
    [Construct sampleConfig (Some sampleCallbacks);
     Request 0 getUser (Some [("id", JStr "42")]) None JUndefined;
     Request 0 createUser None None (JObj [("name", JStr "Ann")]);
     Send 0 (token "stale"); Send 1 (token "stale")].

(** One call of [getUser] has been through the refresh and is waiting for
    the answer to its retry. *)
Definition retrying : World :=
  run initial
    [Construct sampleConfig (Some sampleCallbacks);
     Request 0 getUser (Some [("id", JStr "42")]) None JUndefined;
     Send 0 (token "stale");
     Receive 0 (Response 401 "Unauthorized" None);
     SettleRefresh 0 true;
     Resume 0 (token "fresh");
     Send 0 (token "fresh")].

(** As [twoInFlight], but the first attempt of call 0 got no response and
    ky has issued it again: call 0 is on its second attempt, call 1 on its
    first. *)
Definition mixedBurst : World :=
  run twoInFlight [Receive 0 (Failure false "fetch failed"); Send 0 (token "stale")].

(** As [retrying], but the retry after the refresh got no response and ky
    has issued the request a third time. *)
Definition retryingAgain : World :=
  run retrying [Receive 0 (Failure false "fetch failed"); Send 0 (token "fresh")].

(** ** Invariants of the reachable worlds *)

Definition clients_ok (w : World) : Prop :=
  forall i cl, clients w !! i = Some cl ->
    hooks cl = i /\ ky_hooks (client cl) = i /\ ky_retry (client cl) = clientRetry /\
    ky_prefixUrl (client cl) = cfg_baseUrl (config cl) /\
    (isRefreshing cl = true -> isSome (authCallbacks cl) = true).

Definition calls_ok (w : World) : Prop :=
  forall r c, calls w !! r = Some c ->
    ky_hooks (c_ky c) = c_client c /\ ky_retry (c_ky c) = clientRetry /\
    (c_client c < length (clients w))%nat.

Definition owners_ok (w : World) : Prop :=
  forall p cell, promises w !! p = Some cell ->
    (p_owner cell < length (clients w))%nat.

Definition single_flight (w : World) : Prop :=
  forall this p, outstanding w this p ->
    exists cl, clients w !! this = Some cl /\
      isRefreshing cl = true /\ refreshPromise cl = Some p.

Definition awaits_ok (w : World) : Prop :=
  forall r,
    match calls w !! r with
    | Some c => (awaits r (log w) <= if (c_retryCount c =? 0)%nat then 0 else 1)%nat
    | None => awaits r (log w) = 0%nat
    end.

Definition wf (w : World) : Prop :=
  clients_ok w /\ calls_ok w /\ owners_ok w /\ single_flight w /\ awaits_ok w.

(** ** Vocabulary of the further properties *)

Fixpoint countChar (c : ascii) (s : string) : nat :=
  match s with
  | "" => 0
  | String d rest => (if Ascii.eqb d c then 1 else 0) + countChar c rest
  end.

(** The characters that delimit the parts of a URL. *)
Definition urlDelimiters : string := ":/?#[]@$&+,;= ".

Fixpoint allUnreserved (s : string) : bool :=
  match s with
  | "" => true
  | String c rest => uriUnreserved c && allUnreserved rest
  end.

(** The value of a hexadecimal digit, and the byte two digits stand for;
    used to invert [percentEncode]. *)
Definition hexValue (c : ascii) : nat :=
  let n := nat_of_ascii c in
  if (n <=? 57)%nat then n - 48 else n - 55.

Definition unescapeByte (hi lo : ascii) : ascii :=
  ascii_of_nat (16 * hexValue hi + hexValue lo).

(** The closure [generateMethods] stores for an endpoint, called with
    what the caller supplies for the positions its shape declares. *)
Definition invokeMethod (w : World) (this : nat)
    (method : APIEndpoint * MethodShape)
    (params query : option Params) (body : JSValue) : World :=
  let '(p, q, b) := methodArgs (snd method) params query body in
  request w this (fst method) p q b.

(** The formal parameters of the closure of each shape, in order. *)
Definition methodFormals (shape : MethodShape) : list string :=
  match shape with
  | ShapeParamsQuery => ["params"; "query"]
  | ShapeParams => ["params"]
  | ShapeQuery => ["query"]
  | ShapeParamsBody => ["params"; "body"]
  | ShapeBody => ["body"]
  | ShapeNone => []
  end.

(** [BaseGenerator]: [isQueryEndpoint], [hasParams], [hasQuery]. *)
Definition isQueryEndpoint (endpoint : APIEndpoint) : bool :=
  isGET (ep_method endpoint).

Definition hasParams (endpoint : APIEndpoint) : bool := isSome (ep_params endpoint).

Definition hasQuery (endpoint : APIEndpoint) : bool := isSome (ep_query endpoint).

(** [ServerQueriesGenerator.generateServerQuery]: the arguments of the
    call [serverClient.name(...)] it emits. *)
Definition clientCallArgs (endpoint : APIEndpoint) : list string :=
  (if hasParams endpoint then ["params"] else []) ++
  (if hasQuery endpoint then ["query"] else []).

(** [ServerQueriesGenerator.generateContent]: the endpoints a server query
    is generated for. *)
Definition serverQueryEndpoints (apiConfig : APIConfig)
  : list (string * APIEndpoint) :=
  List.filter (fun '(_, endpoint) => isQueryEndpoint endpoint)
              (cfg_endpoints apiConfig).

(** [BaseGenerator]: [isMutationEndpoint], [hasBody]. *)
Definition isMutationEndpoint (endpoint : APIEndpoint) : bool :=
  negb (isQueryEndpoint endpoint).

Definition hasBody (endpoint : APIEndpoint) : bool := isSome (ep_body endpoint).

(** [ServerActionsGenerator.generateContent]: the endpoints a server action
    is generated for. *)
Definition serverActionEndpoints (apiConfig : APIConfig)
  : list (string * APIEndpoint) :=
  List.filter (fun '(_, endpoint) => isMutationEndpoint endpoint)
              (cfg_endpoints apiConfig).

(** [ServerActionsGenerator.generateServerAction]: [inputParam], the text
    between the parentheses of the call [serverClient.name(...)] it emits. *)
Definition actionInputParam (endpoint : APIEndpoint) : string :=
  if hasParams endpoint && hasBody endpoint then "input"
  else if hasParams endpoint then "params"
  else if hasBody endpoint then "body"
  else "".

(** [ClientGenerator.generateApiClientMethods]: the arguments of the call
    [(baseClient as any).name(...)] made by the wrapper of an endpoint; they
    are the formal parameters of the wrapper, in order. *)
Definition apiClientCallArgs (endpoint : APIEndpoint) : list string :=
  if isGET (ep_method endpoint) then
    if isSome (ep_params endpoint) && isSome (ep_query endpoint) then ["params"; "query"]
    else if isSome (ep_params endpoint) then ["params"]
    else if isSome (ep_query endpoint) then ["query"]
    else []
  else
    if isSome (ep_params endpoint) && isSome (ep_body endpoint) then ["params"; "body"]
    else if isSome (ep_params endpoint) then ["params"]
    else if isSome (ep_body endpoint) then ["body"]
    else [].

(** [HooksGenerator.generateMutationHooks]: the endpoints a mutation hook is
    generated for. *)
Definition mutationHookEndpoints (apiConfig : APIConfig)
  : list (string * APIEndpoint) :=
  List.filter (fun '(_, endpoint) => negb (isGET (ep_method endpoint)))
              (cfg_endpoints apiConfig).

(** [HooksGenerator.generateMutationHook]: the arguments of the call
    [apiClient.name(...)] in [mutationFn]. *)
Definition mutationFnCallArgs (endpoint : APIEndpoint) : list string :=
  if isSome (ep_params endpoint) && isSome (ep_body endpoint) then ["params"; "body"]
  else if isSome (ep_params endpoint) then ["params"]
  else if isSome (ep_body endpoint) then ["body"]
  else [].

(** The characters of [s] before its first slash. *)
Fixpoint upToSlash (s : string) : string :=
  match s with
  | "" => ""
  | String c rest => if Ascii.eqb c "/" then "" else String c (upToSlash rest)
  end.

(** [path.match(/^\/([^/]+)/)]: the first capture when the pattern
    matches, that is when the path begins with a slash followed by at
    least one character that is not a slash. *)
Definition firstSegment (path : string) : option string :=
  match path with
  | String c rest =>
      if Ascii.eqb c "/" then
        match upToSlash rest with
        | "" => None
        | segment => Some segment
        end
      else None
  | "" => None
  end.

Definition isResourceTag (t : string) : bool :=
  negb (String.eqb t "query") && negb (String.eqb t "mutation").

(** [BaseGenerator.getResourceFromEndpoint]; the case conversion
    [toCamelCase] is a parameter. An empty tag is falsy. *)
Definition getResourceFromEndpoint (toCamelCase : string -> string)
    (_name : string) (endpoint : APIEndpoint) : string :=
  match List.find isResourceTag (ep_tags endpoint) with
  | Some (String c rest) => toCamelCase (String c rest)
  | _ =>
      match firstSegment (ep_path endpoint) with
      | Some segment => toCamelCase segment
      | None => "general"
      end
  end.

(** An endpoint with path parameters and a body. *)
Definition updateUser : APIEndpoint :=
  {| ep_path := "users/:id"; ep_method := PUT; ep_baseUrl := None;
     ep_params := Some objectSchema; ep_query := None; ep_body := Some nameSchema;
     ep_response := Some objectSchema; ep_tags := ["users"];
     ep_description := None |}.

Definition adminConfig : APIConfig :=
  {| cfg_baseUrl := Some "https://api.example.com";
     cfg_endpoints := [("getUser", getUser); ("updateUser", updateUser)] |}.

(** The entry of the package's README: its path begins with a slash. *)
Definition readmeUser : APIEndpoint :=
  {| ep_path := "/users/:id"; ep_method := GET; ep_baseUrl := None;
     ep_params := Some objectSchema; ep_query := None; ep_body := None;
     ep_response := Some objectSchema; ep_tags := ["users"];
     ep_description := None |}.

(** A client built without callbacks whose call of [getUser] is waiting
    for the network. *)
Definition anonymousInFlight : World :=
  run initial
    [Construct sampleConfig None;
     Request 0 getUser (Some [("id", JStr "42")]) None JUndefined;
     Send 0 (Tokens None)].

(** Callbacks without a refresh handler. *)
Definition notifyOnly : AuthCallbacks :=
  {| getTokens := 0; onAuthError := Some 1; onRefreshToken := None |}.

Definition noHandlerInFlight : World :=
  run initial
    [Construct sampleConfig (Some notifyOnly);
     Request 0 getUser (Some [("id", JStr "42")]) None JUndefined;
     Send 0 (token "stale")].

(** ** The fetches of a call *)

Definition isFetchOf (r : nat) (e : Effect) : bool :=
  match e with
  | Fetched r' => (r' =? r)%nat
  | _ => false
  end.

(** How many times the call [r] has been put on the network. *)
Definition fetches (r : nat) (l : list Effect) : nat :=
  length (List.filter (isFetchOf r) l).

(** A call that has been fetched [n] times is within ky's retry budget:
    every failed attempt has advanced the retry counter, and ky issues the
    request again only while the counter is at most the limit of 2. *)
Definition within_budget (n : nat) (c : Call) : Prop :=
  match c_state c with
  | InFlight => (n <= S (c_retryCount c))%nat /\ (c_retryCount c <= 2)%nat
  | Starting | AwaitingRefresh _ => (n <= c_retryCount c)%nat /\ (c_retryCount c <= 2)%nat
  | Settled _ => (n <= 3)%nat
  end.

Definition fetch_budget (w : World) : Prop :=
  forall r,
    match calls w !! r with
    | Some c => within_budget (fetches r (log w)) c
    | None => fetches r (log w) = 0%nat
    end.

(** A call of [getUser] whose first two attempts got no response. *)
Definition threeAttempts : World :=
  run initial
    [Construct sampleConfig (Some sampleCallbacks);
     Request 0 getUser (Some [("id", JStr "42")]) None JUndefined;
     Send 0 (token "t");
     Receive 0 (Failure false "fetch failed");
     Send 0 (token "t");
     Receive 0 (Failure false "fetch failed");
     Send 0 (token "t")].

(** ** The rejections of [request] *)

(** What the promise of [request] may be rejected with: an [AuthError] of
    the hooks, an [APIError] whose status is not a success code, or the
    [TypeError] raised inside the catch block by [errorData.message] when
    the error body is [null]. *)
Definition classified (e : Thrown) : bool :=
  match e with
  | AuthError message => String.eqb message "Authentication failed"
  | APIError _ status _ => negb (responseOk status)
  | OtherError message =>
      String.eqb message "Cannot read properties of null (reading 'message')"
  | _ => false
  end.

(** What the try block of [request] may throw: an [HTTPError] is built by
    ky for a response that is not ok, an [AuthError] comes from the
    [beforeRetry] hook. *)
Definition thrownInTry (e : Thrown) : bool :=
  match e with
  | HTTPError status _ _ => negb (responseOk status)
  | AuthError message => String.eqb message "Authentication failed"
  | _ => true
  end.

Definition rejections_ok (w : World) : Prop :=
  forall r c e,
    calls w !! r = Some c -> c_state c = Settled (Threw e) -> classified e = true.

(** ** The Authorization header of a call *)

(** The header is absent, or it is a bearer credential with a non-empty
    access token. *)
Definition bearerHeader (h : option string) : Prop :=
  match h with
  | None => True
  | Some text => exists tokens, accessToken tokens <> "" /\
                                text = "Bearer " +:+ accessToken tokens
  end.

Definition headers_ok (w : World) : Prop :=
  forall r c, calls w !! r = Some c -> bearerHeader (c_authorization c).

(** * Properties *)

(** ** Strings *)

Lemma append_nil_l (s : string) : "" +:+ s = s.
Proof. reflexivity. Qed.

Lemma append_cons (c : ascii) (a b : string) :
  String c a +:+ b = String c (a +:+ b).
Proof. reflexivity. Qed.

Ltac unfold_append :=
  repeat first [rewrite append_cons | rewrite append_nil_l].

Ltac unfold_append_in H :=
  repeat first [rewrite append_cons in H | rewrite append_nil_l in H].

Lemma stripPrefix_Some (pat s rest : string) :
  stripPrefix pat s = Some rest <-> s = pat +:+ rest.
Proof.
  revert s. induction pat as [|a pat IH]; intros s; simpl; unfold_append.
  - split; congruence.
  - destruct s as [|b s]; [split; discriminate |].
    destruct (Ascii.eqb_spec a b) as [->|Hne].
    + rewrite IH. split; congruence.
    + split; [discriminate | congruence].
Qed.

Lemma findFirst_sound (pat s before after : string) :
  findFirst pat s = Some (before, after) -> firstAt pat s before after.
Proof.
  revert before after. induction s as [|c s IH]; intros before after.
  - simpl. destruct (stripPrefix pat "") as [r|] eqn:E; [|discriminate].
    intros [= <- <-]. apply stripPrefix_Some in E.
    split; [exact E | intros; simpl; lia].
  - cbn [findFirst]. destruct (stripPrefix pat (String c s)) as [r|] eqn:E.
    + intros [= <- <-]. apply stripPrefix_Some in E.
      split; [exact E | intros; simpl; lia].
    + destruct (findFirst pat s) as [[b a]|] eqn:F; [|discriminate].
      intros [= <- <-]. destruct (IH b a eq_refl) as [Hs Hmin].
      split; [rewrite append_cons; now rewrite <- Hs |].
      intros b' a' Heq. destruct b' as [|c' b'].
      * unfold_append_in Heq. apply stripPrefix_Some in Heq. congruence.
      * unfold_append_in Heq. injection Heq as _ Heq.
        specialize (Hmin b' a' Heq). simpl. lia.
Qed.

Lemma findFirst_None (pat s : string) :
  findFirst pat s = None <-> ~ occursIn pat s.
Proof.
  induction s as [|c s IH].
  - simpl. destruct (stripPrefix pat "") as [r|] eqn:E.
    + split; [discriminate |]. intros H. destruct H.
      exists "", r. now apply stripPrefix_Some in E.
    + split; [|reflexivity]. intros _ (b & a & Heq).
      destruct b as [|c b]; [|discriminate].
      unfold_append_in Heq. apply stripPrefix_Some in Heq. congruence.
  - cbn [findFirst]. destruct (stripPrefix pat (String c s)) as [r|] eqn:E.
    + split; [discriminate |]. intros H. destruct H.
      exists "", r. now apply stripPrefix_Some in E.
    + destruct (findFirst pat s) as [[b a]|] eqn:F.
      * split; [discriminate |]. intros H. destruct H.
        apply findFirst_sound in F as [-> _]. now exists (String c b), a.
      * split; [|reflexivity]. intros _ (b & a & Heq).
        destruct b as [|c' b].
        -- unfold_append_in Heq. apply stripPrefix_Some in Heq. congruence.
        -- unfold_append_in Heq. injection Heq as _ Heq.
           apply (proj1 IH eq_refl). now exists b, a.
Qed.

Lemma firstAt_unique (pat s b1 a1 b2 a2 : string) :
  firstAt pat s b1 a1 -> firstAt pat s b2 a2 -> b1 = b2 /\ a1 = a2.
Proof.
  intros [H1 M1] [H2 M2].
  pose proof (M1 _ _ H2) as L1. pose proof (M2 _ _ H1) as L2.
  assert (Hlen : String.length b1 = String.length b2) by lia.
  clear M1 M2 L1 L2. subst s. revert b2 Hlen H2.
  induction b1 as [|c b1 IH]; intros [|c2 b2] Hlen H2; try discriminate.
  - unfold_append_in H2. apply String.app_inj in H2. now subst.
  - unfold_append_in H2. simpl in Hlen. injection H2 as -> H2.
    destruct (IH b2) as [-> ->]; [lia | exact H2 | easy].
Qed.

Lemma findFirst_complete (pat s before after : string) :
  firstAt pat s before after -> findFirst pat s = Some (before, after).
Proof.
  intros H. destruct (findFirst pat s) as [[b a]|] eqn:F.
  - apply findFirst_sound in F.
    destruct (firstAt_unique _ _ _ _ _ _ F H) as [-> ->]. reflexivity.
  - apply findFirst_None in F. destruct F, H as [H _]. now exists before, after.
Qed.

Lemma getSubstitution_literal (matched before after repl : string) :
  noDollar repl = true -> getSubstitution matched before after repl = repl.
Proof.
  induction repl as [|c repl IH]; simpl; [reflexivity |].
  intros H. apply andb_prop in H as [Hc Hr].
  destruct (Ascii.eqb c "$"); [discriminate |].
  now rewrite IH.
Qed.

Lemma noDollar_append (a b : string) :
  noDollar (a +:+ b) = noDollar a && noDollar b.
Proof.
  induction a as [|c a IH]; [reflexivity |].
  rewrite append_cons. simpl. rewrite IH. now rewrite andb_assoc.
Qed.

Lemma noDollar_escaped (c : ascii) :
  noDollar (if uriUnreserved c then String c "" else percentEncode c) = true.
Proof.
  destruct c as [[] [] [] [] [] [] [] []]; vm_compute; reflexivity.
Qed.

Lemma noDollar_encodeURIComponent (s : string) :
  noDollar (encodeURIComponent s) = true.
Proof.
  induction s as [|c s IH]; simpl; [reflexivity |].
  now rewrite noDollar_append, noDollar_escaped, IH.
Qed.

Lemma replace_absent (s pat repl : string) :
  ~ occursIn pat s -> replace s pat repl = s.
Proof.
  intros H. unfold replace. apply findFirst_None in H. now rewrite H.
Qed.

Lemma replace_first (s pat repl before after : string) :
  firstAt pat s before after -> noDollar repl = true ->
  replace s pat repl = before +:+ repl +:+ after.
Proof.
  intros H Hd. unfold replace. rewrite (findFirst_complete _ _ _ _ H).
  now rewrite getSubstitution_literal.
Qed.

(** ** Preservation of the invariants *)

Lemma all_methods_retriable (m : HTTPMethod) : m ∈ methods clientRetry.
Proof. destruct m; unfold clientRetry; simpl; repeat constructor. Qed.

Lemma awaits_app (r : nat) (l1 l2 : list Effect) :
  awaits r (l1 ++ l2) = (awaits r l1 + awaits r l2)%nat.
Proof. unfold awaits. now rewrite List.filter_app, length_app. Qed.

Ltac split_wf := refine (conj _ (conj _ (conj _ (conj _ _)))).

Lemma wf_initial : wf initial.
Proof.
  split_wf.
  - intros i cl H. simpl in H. discriminate.
  - intros r c H. simpl in H. discriminate.
  - intros p cell H. simpl in H. discriminate.
  - intros this p (cell & H & _). simpl in H. discriminate.
  - intros r. reflexivity.
Qed.

(** A call moves on: same ky instance, retry counter not decreased. *)
Lemma wf_setCall (w : World) (r : nat) (c : Call) (a : option string) (n : nat)
    (st : CallState) :
  wf w -> calls w !! r = Some c -> (c_retryCount c <= n)%nat ->
  wf (setCall w r (advance c a n st)).
Proof.
  intros (Hcl & Hca & How & Hsf & Haw) Hr Hn.
  pose proof (lookup_lt_Some _ _ _ Hr) as Hlt.
  split_wf.
  - exact Hcl.
  - intros r' c' H. simpl in H.
    apply list_lookup_insert_Some in H as [(-> & <- & _)|[_ H]].
    + exact (Hca _ _ Hr).
    + exact (Hca _ _ H).
  - exact How.
  - exact Hsf.
  - intros r'. simpl. specialize (Haw r').
    destruct (decide (r = r')) as [<-|Hne].
    + rewrite list_lookup_insert_eq by exact Hlt. rewrite Hr in Haw. simpl.
      destruct (c_retryCount c) eqn:E; simpl in Haw.
      * destruct (n =? 0)%nat; lia.
      * destruct n; [lia | exact Haw].
    + rewrite list_lookup_insert_ne by exact Hne. exact Haw.
Qed.

Lemma wf_emit (w : World) (e : Effect) :
  wf w -> (forall r, isAwaitOf r e = false) -> wf (emit w e).
Proof.
  intros (Hcl & Hca & How & Hsf & Haw) He.
  split_wf; [exact Hcl | exact Hca | exact How | exact Hsf |].
  intros r. simpl. rewrite awaits_app. unfold awaits at 2 4. simpl.
  rewrite He. simpl. rewrite Nat.add_0_r. exact (Haw r).
Qed.

(** A call enters the refresh path for the first time. *)
Lemma wf_await (w : World) (r : nat) (c : Call) (a : option string) (p : nat) :
  wf w -> calls w !! r = Some c -> c_retryCount c = 0%nat ->
  wf (emit (setCall w r (advance c a 1 (AwaitingRefresh p))) (AwaitedRefresh r p)).
Proof.
  intros Hwf Hr H0.
  assert (Hwf1 : wf (setCall w r (advance c a 1 (AwaitingRefresh p)))).
  { apply wf_setCall; [exact Hwf | exact Hr | lia]. }
  destruct Hwf as (_ & _ & _ & _ & Haw0).
  destruct Hwf1 as (Hcl & Hca & How & Hsf & Haw).
  split_wf; [exact Hcl | exact Hca | exact How | exact Hsf |].
  intros r'. specialize (Haw r'). specialize (Haw0 r').
  pose proof (lookup_lt_Some _ _ _ Hr) as Hlt.
  simpl in *. rewrite awaits_app. unfold awaits at 2 4. simpl.
  destruct (decide (r = r')) as [<-|Hne].
  - rewrite Nat.eqb_refl. simpl.
    rewrite list_lookup_insert_eq by exact Hlt. simpl.
    rewrite Hr, H0 in Haw0. simpl in Haw0. lia.
  - apply Nat.eqb_neq in Hne. rewrite Hne. simpl. rewrite Nat.add_0_r.
    exact Haw.
Qed.

Lemma outstanding_alloc (w : World) (st : PromiseState) (owner this p : nat) :
  outstanding (allocPromise w st owner) this p ->
  outstanding w this p \/
  (p = length (promises w) /\ st = Pending /\ owner = this).
Proof.
  intros (cell & H & Hst & Hown). simpl in H.
  apply lookup_snoc_Some in H as [[_ H]|[-> <-]].
  - left. now exists cell.
  - right. simpl in *. easy.
Qed.

(** A new refresh promise is stored; a pending one sets the flag. *)
Lemma wf_start (w : World) (this : nat) (cl : APIClient) (flag : bool)
    (st : PromiseState) :
  wf w -> clients w !! this = Some cl ->
  (forall p, ~ outstanding w this p) ->
  (st = Pending -> flag = true) ->
  (flag = true -> isSome (authCallbacks cl) = true) ->
  wf (setClient (allocPromise w st this) this
        (withRefresh cl flag (Some (length (promises w))))).
Proof.
  intros (Hcl & Hca & How & Hsf & Haw) Hthis Hnone Hflag Hcbs.
  pose proof (lookup_lt_Some _ _ _ Hthis) as Hlt. split_wf.
  - intros i cl0 H. simpl in H.
    apply list_lookup_insert_Some in H as [(E1 & E2 & _)|[_ H]];
      [|exact (Hcl _ _ H)].
    subst i cl0. destruct (Hcl _ _ Hthis) as (H1 & H2 & H3 & H4 & _).
    repeat split; assumption.
  - intros r c H. simpl in *. rewrite length_insert. exact (Hca _ _ H).
  - intros p cell H. simpl in *. rewrite length_insert.
    apply lookup_snoc_Some in H as [[_ H]|[_ <-]];
      [exact (How _ _ H) | exact Hlt].
  - intros this' p (cell & H & Hst & Hown). simpl in H.
    apply lookup_snoc_Some in H as [[_ H]|[-> <-]].
    + destruct (decide (this' = this)) as [->|Hne].
      * destruct (Hnone p). now exists cell.
      * destruct (Hsf this' p) as (cl0 & E & Hr & Hp'); [now exists cell |].
        exists cl0. simpl. rewrite list_lookup_insert_ne by congruence. easy.
    + simpl in *. subst this'. eexists.
      rewrite list_lookup_insert_eq by exact Hlt.
      split; [reflexivity |]. simpl. split; [now apply Hflag | reflexivity].
  - exact Haw.
Qed.

(** [refreshTokens] keeps the invariants and touches no call. *)
Lemma wf_refreshTokens (w : World) (this : nat) (cl : APIClient) :
  wf w -> clients w !! this = Some cl ->
  wf (fst (refreshTokens w this cl)) /\
  calls (fst (refreshTokens w this cl)) = calls w.
Proof.
  intros Hwf Hthis. pose proof Hwf as (Hcl & Hca & How & Hsf & Haw).
  pose proof (lookup_lt_Some _ _ _ Hthis) as Hlt.
  assert (Hidle : (isRefreshing cl = true -> refreshPromise cl = None) ->
                  forall p, ~ outstanding w this p).
  { intros Hc p Hp. destruct (Hsf _ _ Hp) as (cl0 & E & Hr & Hp').
    rewrite Hthis in E. injection E as <-. rewrite (Hc Hr) in Hp'. discriminate. }
  assert (Hgo : (isRefreshing cl = true -> refreshPromise cl = None) ->
    forall cbs, authCallbacks cl = Some cbs ->
    let res :=
      match onRefreshToken cbs with
      | Some handler =>
          (emit (setClient (allocPromise w Pending this) this
                   (withRefresh cl true (Some (length (promises w)))))
                (RefreshInvoked this handler (length (promises w))),
           length (promises w))
      | None =>
          (setClient (allocPromise w Rejected this) this
             (withRefresh cl false (Some (length (promises w)))),
           length (promises w))
      end in
    wf (fst res) /\ calls (fst res) = calls w).
  { intros Hc cbs Hcbs'. specialize (Hidle Hc).
    destruct (onRefreshToken cbs) as [handler|]; simpl; (split; [|reflexivity]).
    - apply wf_emit; [|reflexivity]. apply wf_start; try easy.
      intros _. now rewrite Hcbs'.
    - apply wf_start; try easy. }
  unfold refreshTokens.
  destruct (authCallbacks cl) as [cbs|] eqn:Hcbs.
  - destruct (isRefreshing cl) eqn:Hflag, (refreshPromise cl) as [q|] eqn:Hq.
    + split; [exact Hwf | reflexivity].
    + apply Hgo; reflexivity.
    + apply Hgo; [discriminate | reflexivity].
    + apply Hgo; [discriminate | reflexivity].
  - simpl. split; [|reflexivity]. split_wf; try assumption.
    + intros p cell H. simpl in *.
      apply lookup_snoc_Some in H as [[_ H]|[_ <-]];
        [exact (How _ _ H) | exact Hlt].
    + intros this' p Hp. apply outstanding_alloc in Hp as [Hp|(_ & ? & _)];
        [exact (Hsf _ _ Hp) | discriminate].
Qed.

Lemma wf_settleRefresh (w : World) (p : nat) (ok : bool) :
  wf w -> wf (settleRefresh w p ok).
Proof.
  intros Hwf. pose proof Hwf as (Hcl & Hca & How & Hsf & Haw).
  unfold settleRefresh.
  destruct (promises w !! p) as [cell|] eqn:Hp; [|exact Hwf].
  destruct (p_state cell) eqn:Hst; try exact Hwf.
  pose proof (How _ _ Hp) as Hown.
  apply lookup_lt_is_Some_2 in Hown as [cl Hown].
  pose proof (lookup_lt_Some _ _ _ Hp) as Hplt.
  pose proof (lookup_lt_Some _ _ _ Hown) as Hclt.
  simpl. rewrite Hown.
  destruct (Hsf (p_owner cell) p) as (cl0 & E & _ & Hcur); [now exists cell |].
  rewrite Hown in E. injection E as <-.
  remember (p_owner cell) as owner eqn:Eowner.
  split_wf.
  - intros i cl0 H. simpl in H.
    apply list_lookup_insert_Some in H as [(E1 & E2 & _)|[_ H]].
    + subst i cl0. destruct (Hcl _ _ Hown) as (H1 & H2 & H3 & H4 & _).
      repeat split; try assumption. discriminate.
    + exact (Hcl _ _ H).
  - intros r c H. simpl in *. rewrite length_insert. exact (Hca _ _ H).
  - intros q cell' H. simpl in *. rewrite length_insert.
    apply list_lookup_insert_Some in H as [(E1 & E2 & _)|[_ H]].
    + subst q cell'. simpl. rewrite Eowner. exact (How _ _ Hp).
    + exact (How _ _ H).
  - intros this' q (cell' & H & Hst' & Hown'). simpl in H.
    apply list_lookup_insert_Some in H as [(E1 & E2 & _)|[Hne H]].
    { subst cell'. simpl in Hst'. destruct ok; discriminate. }
    destruct (Hsf this' q) as (cl0 & E & Hr & Hq); [now exists cell' |].
    destruct (decide (this' = owner)) as [->|Hne'].
    + rewrite Hown in E. injection E as <-. congruence.
    + exists cl0. simpl. rewrite list_lookup_insert_ne by congruence. easy.
  - exact Haw.
Qed.

Lemma wf_addClient (w : World) (config : APIConfig) (cbs : option AuthCallbacks) :
  wf w -> wf (addClient w (newAPIClient (length (clients w)) config cbs)).
Proof.
  intros (Hcl & Hca & How & Hsf & Haw). split_wf.
  - intros i cl H. simpl in H.
    apply lookup_snoc_Some in H as [[_ H]|[E1 E2]];
      [exact (Hcl _ _ H) | subst i cl; easy].
  - intros r c H. simpl in *. rewrite length_app. simpl.
    destruct (Hca _ _ H) as (? & ? & ?). repeat split; [easy | easy | lia].
  - intros p cell H. simpl in *. rewrite length_app. simpl.
    pose proof (How _ _ H). lia.
  - intros this p Hp. destruct (Hsf this p Hp) as (cl & E & ?).
    exists cl. simpl. split; [now apply lookup_app_l_Some | easy].
  - exact Haw.
Qed.

Lemma wf_updateAuthCallbacks (w : World) (this : nat) (cl : APIClient)
    (cbs : AuthCallbacks) :
  wf w -> clients w !! this = Some cl ->
  wf (setClient w this (updateAuthCallbacks cl cbs)).
Proof.
  intros (Hcl & Hca & How & Hsf & Haw) Hthis.
  pose proof (lookup_lt_Some _ _ _ Hthis) as Hlt. split_wf.
  - intros i cl0 H. simpl in H.
    apply list_lookup_insert_Some in H as [(E1 & E2 & _)|[_ H]];
      [|exact (Hcl _ _ H)].
    subst i cl0. destruct (Hcl _ _ Hthis) as (H1 & H2 & H3 & H4 & _).
    repeat split; assumption.
  - intros r c H. simpl in *. rewrite length_insert. exact (Hca _ _ H).
  - intros p cell H. simpl in *. rewrite length_insert. exact (How _ _ H).
  - intros this' p Hp. destruct (Hsf this' p Hp) as (cl0 & E & Hr & Hq).
    simpl. destruct (decide (this' = this)) as [->|Hne].
    + rewrite Hthis in E. injection E as <-.
      eexists. rewrite list_lookup_insert_eq by exact Hlt.
      split; [reflexivity | easy].
    + exists cl0. rewrite list_lookup_insert_ne by congruence. easy.
  - exact Haw.
Qed.

Lemma getClientForEndpoint_hooks (cl : APIClient) (endpoint : APIEndpoint) :
  ky_hooks (client cl) = hooks cl ->
  ky_hooks (getClientForEndpoint cl endpoint) = hooks cl.
Proof.
  intros H. unfold getClientForEndpoint.
  destruct (decide _); [exact H | reflexivity].
Qed.

Lemma getClientForEndpoint_retry (cl : APIClient) (endpoint : APIEndpoint) :
  ky_retry (client cl) = clientRetry ->
  ky_retry (getClientForEndpoint cl endpoint) = clientRetry.
Proof.
  intros H. unfold getClientForEndpoint.
  destruct (decide _); [exact H | reflexivity].
Qed.

Lemma wf_addCall (w : World) (this : nat) (cl : APIClient) (c : Call) :
  wf w -> clients w !! this = Some cl ->
  c_client c = this ->
  (exists endpoint, c_ky c = getClientForEndpoint cl endpoint) ->
  wf (addCall w c).
Proof.
  intros (Hcl & Hca & How & Hsf & Haw) Hthis Hc (endpoint & Hky).
  pose proof (lookup_lt_Some _ _ _ Hthis) as Hlt.
  destruct (Hcl _ _ Hthis) as (Hh & Hkh & Hkr & _). split_wf.
  - exact Hcl.
  - intros r c' H. simpl in H.
    apply lookup_snoc_Some in H as [[_ H]|[_ <-]]; [exact (Hca _ _ H) |].
    rewrite Hky, Hc. simpl.
    rewrite getClientForEndpoint_hooks by congruence.
    rewrite getClientForEndpoint_retry by exact Hkr. easy.
  - exact How.
  - exact Hsf.
  - intros r. specialize (Haw r). simpl.
    destruct (calls w !! r) as [c'|] eqn:E.
    + rewrite (lookup_app_l_Some _ _ _ _ E). exact Haw.
    + rewrite Haw. destruct ((calls w ++ [c]) !! r); [lia | reflexivity].
Qed.

Lemma wf_authFailed (w : World) (r : nat) (c : Call) (n : nat) :
  wf w -> calls w !! r = Some c -> (c_retryCount c <= n)%nat ->
  wf (authFailed w r c n).
Proof.
  intros Hwf Hr Hn. unfold authFailed.
  destruct (clients w !! ky_hooks (c_ky c)) as [cl|];
    [destruct (authCallbacks cl) as [cbs|];
       [destruct (onAuthError cbs) as [handler|] |] |].
  2-4: now apply wf_setCall.
  apply wf_setCall; [apply wf_emit; [exact Hwf | reflexivity] | exact Hr | exact Hn].
Qed.

Lemma wf_beforeRetry (w : World) (r : nat) (c : Call) (error : Thrown) :
  wf w -> calls w !! r = Some c ->
  wf (beforeRetry w r c error (S (c_retryCount c))).
Proof.
  intros Hwf Hr. unfold beforeRetry.
  assert (Hagain : wf (setCall w r (advance c (c_authorization c)
                                     (S (c_retryCount c)) Starting)))
    by (apply wf_setCall; [exact Hwf | exact Hr | lia]).
  destruct error; try exact Hagain.
  destruct (status =? 401)%Z; [|exact Hagain].
  destruct (clients w !! ky_hooks (c_ky c)) as [cl|] eqn:Hcl; [|exact Hwf].
  destruct ((S (c_retryCount c) =? 1)%nat && isSome (authCallbacks cl)) eqn:Hcond.
  - apply andb_prop in Hcond as [Hone _]. apply Nat.eqb_eq in Hone.
    destruct (wf_refreshTokens w _ cl Hwf Hcl) as [Hwf1 Hcalls].
    destruct (refreshTokens w (ky_hooks (c_ky c)) cl) as [w1 p]. simpl in *.
    replace (S (c_retryCount c)) with 1%nat by lia.
    apply wf_await; [exact Hwf1 | now rewrite Hcalls | lia].
  - apply wf_authFailed; [exact Hwf | exact Hr | lia].
Qed.

Lemma wf_kyFailed (w : World) (r : nat) (c : Call) (error : Thrown) :
  wf w -> calls w !! r = Some c -> wf (kyFailed w r c error).
Proof.
  intros Hwf Hr. unfold kyFailed, settle.
  destruct (bool_decide _); [|apply wf_setCall; [exact Hwf | exact Hr | lia]].
  destruct (_ || _); [apply wf_setCall; [exact Hwf | exact Hr | lia] |].
  now apply wf_beforeRetry.
Qed.

Lemma wf_send (w : World) (r : nat) (tok : TokensResult) :
  wf w -> wf (send w r tok).
Proof.
  intros Hwf. unfold send.
  destruct (calls w !! r) as [c|] eqn:Hr; [|exact Hwf].
  destruct (c_state c); try exact Hwf.
  destruct (clients w !! ky_hooks (c_ky c)) as [cl|]; [|exact Hwf].
  assert (Hgo : forall a, wf (emit (setCall w r (advance c a (c_retryCount c) InFlight))
                                (Fetched r))).
  { intros a. apply wf_emit; [|reflexivity].
    apply wf_setCall; [exact Hwf | exact Hr | lia]. }
  destruct (authCallbacks cl), tok; try apply Hgo.
  now apply wf_kyFailed.
Qed.

Lemma wf_receive (w : World) (r : nat) (res : NetResult) :
  wf w -> wf (receive w r res).
Proof.
  intros Hwf. unfold receive.
  destruct (calls w !! r) as [c|] eqn:Hr; [|exact Hwf].
  destruct (c_state c); try exact Hwf.
  destruct res as [status message json|timeout message].
  - destruct (responseOk status); [|now apply wf_kyFailed].
    unfold settle. apply wf_setCall; [exact Hwf | exact Hr | lia].
  - now apply wf_kyFailed.
Qed.

Lemma wf_resume (w : World) (r : nat) (tok : TokensResult) :
  wf w -> wf (resume w r tok).
Proof.
  intros Hwf. unfold resume.
  destruct (calls w !! r) as [c|] eqn:Hr; [|exact Hwf].
  destruct (c_state c); try exact Hwf.
  destruct (promises w !! p) as [cell|]; [|exact Hwf].
  destruct (p_state cell); [exact Hwf | |].
  - destruct tok.
    + apply wf_setCall; [exact Hwf | exact Hr | lia].
    + apply wf_authFailed; [exact Hwf | exact Hr | lia].
  - apply wf_authFailed; [exact Hwf | exact Hr | lia].
Qed.

Lemma wf_request (w : World) (this : nat) (endpoint : APIEndpoint)
    (params query : option Params) (body : JSValue) :
  wf w -> wf (request w this endpoint params query body).
Proof.
  intros Hwf. unfold request, request_begin.
  destruct (clients w !! this) as [cl|] eqn:Hthis; [|exact Hwf].
  destruct (attachBody _ _ _); [destruct (kyRejectsInput _ _) |].
  all: eapply wf_addCall; [exact Hwf | exact Hthis | reflexivity |].
  all: now exists endpoint.
Qed.

Lemma wf_refreshAuth (w : World) (this : nat) : wf w -> wf (refreshAuth w this).
Proof.
  intros Hwf. unfold refreshAuth.
  destruct (clients w !! this) as [cl|] eqn:Hthis; [|exact Hwf].
  destruct (authCallbacks cl); [|exact Hwf].
  now apply wf_refreshTokens.
Qed.

Lemma wf_step (w : World) (ev : Event) : wf w -> wf (step w ev).
Proof.
  intros Hwf. destruct ev; simpl.
  - now apply wf_addClient.
  - destruct (clients w !! this) as [cl|] eqn:Hthis; [|exact Hwf].
    now apply wf_updateAuthCallbacks.
  - now apply wf_refreshAuth.
  - now apply wf_request.
  - now apply wf_send.
  - now apply wf_receive.
  - now apply wf_settleRefresh.
  - now apply wf_resume.
Qed.

Lemma wf_run (evs : list Event) (w : World) : wf w -> wf (run w evs).
Proof.
  revert w. induction evs as [|ev evs IH]; intros w Hwf; [exact Hwf |].
  simpl. apply IH. now apply wf_step.
Qed.

Lemma wf_reachable (w : World) : reachable w -> wf w.
Proof. intros [evs ->]. apply wf_run, wf_initial. Qed.

Lemma run_app (w : World) (evs1 evs2 : list Event) :
  run w (evs1 ++ evs2) = run (run w evs1) evs2.
Proof. unfold run. apply fold_left_app. Qed.

Lemma reachable_run (w : World) (evs : list Event) :
  reachable w -> reachable (run w evs).
Proof.
  intros [evs0 ->]. exists (evs0 ++ evs). now rewrite run_app.
Qed.

(** ** The 401 path, step by step *)

Lemma kyFailed_401 (w : World) (r : nat) (c : Call) (m : JSValue)
    (j : option JSValue) :
  ky_retry (c_ky c) = clientRetry ->
  kyFailed w r c (HTTPError 401 m j) =
    if (2 <? S (c_retryCount c))%nat
    then setCall w r (advance c (c_authorization c) (S (c_retryCount c))
                        (Settled (request_settle (Threw (HTTPError 401 m j)))))
    else beforeRetry w r c (HTTPError 401 m j) (S (c_retryCount c)).
Proof.
  intros Hretry. unfold kyFailed, retriableStatus. rewrite Hretry.
  rewrite (bool_decide_eq_true_2 _ (all_methods_retriable _)).
  assert (H401 : bool_decide (401%Z ∈ statusCodes clientRetry) = true)
    by (apply bool_decide_eq_true_2; unfold clientRetry; simpl; constructor).
  rewrite H401. simpl. now rewrite !orb_false_r.
Qed.

(** First 401 of a call whose client has callbacks: the hook calls
    [refreshTokens] and suspends on the promise it returns. *)
Lemma receive_401_first (w : World) (r : nat) (c : Call) (cl : APIClient)
    (m : string) (j : option JSValue) :
  calls w !! r = Some c -> c_state c = InFlight -> c_retryCount c = 0%nat ->
  ky_retry (c_ky c) = clientRetry ->
  clients w !! ky_hooks (c_ky c) = Some cl ->
  isSome (authCallbacks cl) = true ->
  receive w r (Response 401 m j) =
    emit (setCall (fst (refreshTokens w (ky_hooks (c_ky c)) cl)) r
            (advance c (c_authorization c) 1
               (AwaitingRefresh (snd (refreshTokens w (ky_hooks (c_ky c)) cl)))))
         (AwaitedRefresh r (snd (refreshTokens w (ky_hooks (c_ky c)) cl))).
Proof.
  intros Hr Hst H0 Hretry Hcl Hcbs. unfold receive. rewrite Hr, Hst.
  change (responseOk 401) with false. cbv iota. unfold beforeError.
  rewrite kyFailed_401 by exact Hretry. rewrite H0.
  change (2 <? 1)%nat with false. cbv iota.
  unfold beforeRetry. change (401 =? 401)%Z with true. cbv iota.
  rewrite Hcl, Hcbs. change ((1 =? 1)%nat && true) with true. cbv iota.
  now destruct (refreshTokens w (ky_hooks (c_ky c)) cl).
Qed.

(** A 401 on the attempt that follows the first retry: no refresh. *)
Lemma receive_401_second (w : World) (r : nat) (c : Call)
    (m : string) (j : option JSValue) :
  calls w !! r = Some c -> c_state c = InFlight -> c_retryCount c = 1%nat ->
  ky_retry (c_ky c) = clientRetry ->
  is_Some (clients w !! ky_hooks (c_ky c)) ->
  receive w r (Response 401 m j) = authFailed w r c 2.
Proof.
  intros Hr Hst H1 Hretry [cl Hcl]. unfold receive. rewrite Hr, Hst.
  change (responseOk 401) with false. cbv iota. unfold beforeError.
  rewrite kyFailed_401 by exact Hretry. rewrite H1.
  change (2 <? 2)%nat with false. cbv iota.
  unfold beforeRetry. change (401 =? 401)%Z with true. cbv iota.
  rewrite Hcl. reflexivity.
Qed.

Lemma refreshTokens_join (w : World) (this : nat) (cl : APIClient) (p : nat) :
  isSome (authCallbacks cl) = true ->
  isRefreshing cl = true -> refreshPromise cl = Some p ->
  refreshTokens w this cl = (w, p).
Proof.
  intros Hcbs Hflag Hp. unfold refreshTokens.
  destruct (authCallbacks cl); [|discriminate]. now rewrite Hflag, Hp.
Qed.

Lemma refreshTokens_start (w : World) (this : nat) (cl : APIClient)
    (cbs : AuthCallbacks) (handler : Handler) :
  authCallbacks cl = Some cbs -> onRefreshToken cbs = Some handler ->
  isRefreshing cl = false ->
  refreshTokens w this cl =
    (emit (setClient (allocPromise w Pending this) this
             (withRefresh cl true (Some (length (promises w)))))
          (RefreshInvoked this handler (length (promises w))),
     length (promises w)).
Proof.
  intros Hcbs Hh Hflag. unfold refreshTokens. now rewrite Hcbs, Hflag, Hh.
Qed.

(** What [authFailed] changes. *)
Lemma authFailed_effects (w : World) (r : nat) (c : Call) (n : nat) :
  clients (authFailed w r c n) = clients w /\
  promises (authFailed w r c n) = promises w /\
  calls (authFailed w r c n) =
    <[r := advance c (c_authorization c) n
             (Settled (Threw (AuthError "Authentication failed")))]> (calls w) /\
  log (authFailed w r c n) =
    log w ++
      match clients w !! ky_hooks (c_ky c) with
      | Some cl =>
          match authCallbacks cl with
          | Some cbs =>
              match onAuthError cbs with
              | Some handler => [AuthErrorNotified (ky_hooks (c_ky c)) handler]
              | None => []
              end
          | None => []
          end
      | None => []
      end.
Proof.
  unfold authFailed.
  destruct (clients w !! ky_hooks (c_ky c)) as [cl|];
    [destruct (authCallbacks cl) as [cbs|];
       [destruct (onAuthError cbs) as [handler|] |] |];
    simpl; rewrite ?app_nil_r; easy.
Qed.

(** A 401 on a later attempt: the retry counter exceeds the limit, ky gives
    up and the [HTTPError] reaches the catch block of [request]. *)
Lemma receive_401_exhausted (w : World) (r : nat) (c : Call)
    (m : string) (j : option JSValue) :
  calls w !! r = Some c -> c_state c = InFlight -> (2 <= c_retryCount c)%nat ->
  ky_retry (c_ky c) = clientRetry ->
  receive w r (Response 401 m j) =
    setCall w r
      (advance c (c_authorization c) (S (c_retryCount c))
         (Settled (Threw (APIError (errorMessage 401 m j) 401 (Some (JObj [])))))).
Proof.
  intros Hr Hst H2 Hretry. unfold receive. rewrite Hr, Hst.
  change (responseOk 401) with false. cbv iota. unfold beforeError.
  rewrite kyFailed_401 by exact Hretry.
  replace (2 <? S (c_retryCount c))%nat with true
    by (symmetry; apply Nat.ltb_lt; lia).
  reflexivity.
Qed.

(** A 401 that answers the second or a later attempt of a call settles the
    call at once and starts nothing. *)
Lemma later_401 (w : World) (r : nat) (c : Call) (m : string)
    (j : option JSValue) :
  calls w !! r = Some c -> c_state c = InFlight -> (1 <= c_retryCount c)%nat ->
  ky_retry (c_ky c) = clientRetry ->
  is_Some (clients w !! ky_hooks (c_ky c)) ->
  clients (receive w r (Response 401 m j)) = clients w /\
  promises (receive w r (Response 401 m j)) = promises w /\
  (exists e,
      calls (receive w r (Response 401 m j)) =
        <[r := advance c (c_authorization c) (S (c_retryCount c))
                 (Settled (Threw e))]> (calls w)) /\
  (exists l,
      log (receive w r (Response 401 m j)) = log w ++ l /\
      forall e, In e l -> exists handler, e = AuthErrorNotified (ky_hooks (c_ky c)) handler).
Proof.
  intros Hr Hst H1 Hretry Hsome.
  destruct (decide (c_retryCount c = 1%nat)) as [E|E].
  - rewrite (receive_401_second w r c m j Hr Hst E Hretry Hsome).
    destruct (authFailed_effects w r c 2) as (A1 & A2 & A3 & A4).
    split; [exact A1 |]. split; [exact A2 |]. split.
    + eexists. rewrite A3, E. reflexivity.
    + eexists. split; [exact A4 |]. intros e He.
      destruct (clients w !! ky_hooks (c_ky c)) as [cl|]; [|destruct He].
      destruct (authCallbacks cl) as [cbs|]; [|destruct He].
      destruct (onAuthError cbs) as [handler|]; [|destruct He].
      destruct He as [<-|[]]. now exists handler.
  - rewrite (receive_401_exhausted w r c m j Hr Hst) by (exact Hretry || lia).
    split; [reflexivity |]. split; [reflexivity |]. split.
    + eexists. reflexivity.
    + exists []. split; [cbn; now rewrite app_nil_r | intros e []].
Qed.

(** ** Concurrent 401s *)

(** While a refresh is in flight, every further first 401 joins it. *)
Lemma join_phase (this p : nat) (msg : nat -> string)
    (json : nat -> option JSValue) (rs : list nat) :
  forall (w : World) (cl : APIClient),
  clients w !! this = Some cl -> isSome (authCallbacks cl) = true ->
  isRefreshing cl = true -> refreshPromise cl = Some p ->
  NoDup rs ->
  (forall r, r ∈ rs -> exists c,
      calls w !! r = Some c /\ c_state c = InFlight /\ c_retryCount c = 0%nat /\
      ky_hooks (c_ky c) = this /\ ky_retry (c_ky c) = clientRetry) ->
  clients (run w (unauthorized msg json rs)) = clients w /\
  promises (run w (unauthorized msg json rs)) = promises w /\
  log (run w (unauthorized msg json rs)) =
    log w ++ map (fun r => AwaitedRefresh r p) rs /\
  (forall r, r ∈ rs -> exists c,
      calls (run w (unauthorized msg json rs)) !! r = Some c /\
      c_state c = AwaitingRefresh p) /\
  (forall r, r ∉ rs -> calls (run w (unauthorized msg json rs)) !! r = calls w !! r).
Proof.
  induction rs as [|r rs IH]; intros w cl Hcl Hcbs Hflag Hp Hnd Hcalls.
  - simpl. rewrite app_nil_r. repeat split; try reflexivity.
    intros r Hr. now apply elem_of_nil in Hr.
  - apply NoDup_cons in Hnd as [Hnotin Hnd].
    destruct (Hcalls r) as (c & Hr & Hst & H0 & Hhooks & Hretry);
      [apply elem_of_cons; now left |].
    pose proof (lookup_lt_Some _ _ _ Hr) as Hlt.
    simpl. rewrite <- Hhooks in Hcl.
    rewrite (receive_401_first w r c cl) by assumption.
    rewrite (refreshTokens_join w _ cl p) by assumption. simpl.
    rewrite Hhooks in Hcl.
    set (w1 := emit (setCall w r (advance c (c_authorization c) 1 (AwaitingRefresh p)))
                    (AwaitedRefresh r p)).
    destruct (IH w1 cl) as (Ecl & Epr & Elog & Hin & Hout); try assumption.
    { intros r' Hr'. destruct (Hcalls r') as (c' & Hc' & Hrest);
        [apply elem_of_cons; now right |].
      exists c'. split; [|exact Hrest]. simpl.
      rewrite list_lookup_insert_ne; [exact Hc' |]. intros ->. contradiction. }
    split; [exact Ecl |]. split; [exact Epr |]. split.
    { rewrite Elog. simpl. now rewrite <- app_assoc. }
    split.
    + intros r' Hr'. apply elem_of_cons in Hr' as [->|Hr'].
      * rewrite (Hout r Hnotin). simpl.
        rewrite list_lookup_insert_eq by exact Hlt. eexists. split; reflexivity.
      * exact (Hin r' Hr').
    + intros r' Hr'. apply not_elem_of_cons in Hr' as [Hne Hr'].
      rewrite (Hout r' Hr'). simpl. now rewrite list_lookup_insert_ne.
Qed.

(** From the idle state, a burst of first 401s starts one refresh and
    every call of the burst awaits it. *)
Lemma burst_401 (this : nat) (msg : nat -> string)
    (json : nat -> option JSValue) (r0 : nat) (rs : list nat)
    (w : World) (cl : APIClient) (cbs : AuthCallbacks) (handler : Handler) :
  clients w !! this = Some cl ->
  authCallbacks cl = Some cbs -> onRefreshToken cbs = Some handler ->
  isRefreshing cl = false ->
  NoDup (r0 :: rs) ->
  (forall r, r ∈ r0 :: rs -> exists c,
      calls w !! r = Some c /\ c_state c = InFlight /\ c_retryCount c = 0%nat /\
      ky_hooks (c_ky c) = this /\ ky_retry (c_ky c) = clientRetry) ->
  let p := length (promises w) in
  let w1 := run w (unauthorized msg json (r0 :: rs)) in
  clients w1 = <[this := withRefresh cl true (Some p)]> (clients w) /\
  promises w1 = promises w ++ [{| p_state := Pending; p_owner := this |}] /\
  log w1 = log w ++ RefreshInvoked this handler p
                    :: map (fun r => AwaitedRefresh r p) (r0 :: rs) /\
  (forall r, r ∈ r0 :: rs -> exists c,
      calls w1 !! r = Some c /\ c_state c = AwaitingRefresh p) /\
  (forall r, r ∉ r0 :: rs -> calls w1 !! r = calls w !! r).
Proof.
  intros Hcl Hcbs Hh Hflag Hnd Hcalls p w1.
  apply NoDup_cons in Hnd as [Hnotin Hnd].
  destruct (Hcalls r0) as (c & Hr & Hst & H0 & Hhooks & Hretry);
    [apply elem_of_cons; now left |].
  pose proof (lookup_lt_Some _ _ _ Hr) as Hlt.
  pose proof (lookup_lt_Some _ _ _ Hcl) as Hclt.
  subst w1. simpl. rewrite <- Hhooks in Hcl.
  rewrite (receive_401_first w r0 c cl); try assumption;
    [|now rewrite Hcbs].
  rewrite (refreshTokens_start w _ cl cbs handler) by assumption.
  rewrite Hhooks in *. simpl. fold p.
  set (w0 := emit (setCall (emit (setClient (allocPromise w Pending this) this
                                   (withRefresh cl true (Some p)))
                                (RefreshInvoked this handler p)) r0
                     (advance c (c_authorization c) 1 (AwaitingRefresh p)))
                  (AwaitedRefresh r0 p)).
  destruct (join_phase this p msg json rs w0 (withRefresh cl true (Some p)))
    as (Ecl & Epr & Elog & Hin & Hout); try assumption; try reflexivity.
  { simpl. now apply list_lookup_insert_eq. }
  { simpl. now rewrite Hcbs. }
  { intros r' Hr'. destruct (Hcalls r') as (c' & Hc' & Hrest);
      [apply elem_of_cons; now right |].
    exists c'. split; [|exact Hrest]. simpl.
    rewrite list_lookup_insert_ne; [exact Hc' |]. intros ->. contradiction. }
  split; [exact Ecl |]. split; [exact Epr |]. split.
  { rewrite Elog. simpl. rewrite <- !app_assoc. reflexivity. }
  split.
  - intros r' Hr'. apply elem_of_cons in Hr' as [->|Hr'].
    + rewrite (Hout r0 Hnotin). simpl.
      rewrite list_lookup_insert_eq by exact Hlt. eexists. split; reflexivity.
    + exact (Hin r' Hr').
  - intros r' Hr'. apply not_elem_of_cons in Hr' as [Hne Hr'].
    rewrite (Hout r' Hr'). simpl. now rewrite list_lookup_insert_ne.
Qed.

Lemma settleRefresh_effects (w : World) (p : nat) (ok : bool) (this : nat)
    (cl : APIClient) :
  promises w !! p = Some {| p_state := Pending; p_owner := this |} ->
  clients w !! this = Some cl ->
  clients (settleRefresh w p ok) = <[this := withRefresh cl false None]> (clients w) /\
  promises (settleRefresh w p ok) =
    <[p := {| p_state := if ok then Resolved else Rejected; p_owner := this |}]>
      (promises w) /\
  calls (settleRefresh w p ok) = calls w /\
  log (settleRefresh w p ok) = log w.
Proof.
  intros Hp Hcl. unfold settleRefresh. rewrite Hp. simpl. rewrite Hcl. easy.
Qed.

Lemma filter_invoked_app (l1 l2 : list Effect) :
  List.filter isRefreshInvoked (l1 ++ l2) =
  List.filter isRefreshInvoked l1 ++ List.filter isRefreshInvoked l2.
Proof. apply List.filter_app. Qed.

Lemma resume_step (w : World) (r p : nat) (c : Call) (cell : PromiseCell)
    (ok : bool) (tok : TokensResult) :
  calls w !! r = Some c -> c_state c = AwaitingRefresh p ->
  promises w !! p = Some cell ->
  p_state cell = (if ok then Resolved else Rejected) ->
  clients (resume w r tok) = clients w /\
  promises (resume w r tok) = promises w /\
  (exists c', calls (resume w r tok) = <[r := c']> (calls w) /\
              c_state c' = resumed ok tok) /\
  List.filter isRefreshInvoked (log (resume w r tok)) =
    List.filter isRefreshInvoked (log w).
Proof.
  intros Hr Hst Hp Hcell. unfold resume. rewrite Hr, Hst, Hp, Hcell.
  destruct (authFailed_effects w r c (c_retryCount c)) as (A1 & A2 & A3 & A4).
  assert (Hfail :
    clients (authFailed w r c (c_retryCount c)) = clients w /\
    promises (authFailed w r c (c_retryCount c)) = promises w /\
    (exists c', calls (authFailed w r c (c_retryCount c)) = <[r := c']> (calls w) /\
                c_state c' = authFailure) /\
    List.filter isRefreshInvoked (log (authFailed w r c (c_retryCount c))) =
      List.filter isRefreshInvoked (log w)).
  { split; [exact A1 |]. split; [exact A2 |]. split.
    - eexists. split; [exact A3 | reflexivity].
    - rewrite A4, filter_invoked_app.
      destruct (clients w !! ky_hooks (c_ky c)) as [cl|];
        [destruct (authCallbacks cl) as [cbs|];
           [destruct (onAuthError cbs) |] |];
        simpl; now rewrite app_nil_r. }
  destruct ok; [destruct tok |]; try exact Hfail.
  simpl. repeat split. eexists. split; reflexivity.
Qed.

(** Once the refresh has settled, every waiting call continues the same
    way, and no refresh is started by that. *)
Lemma resume_phase (p : nat) (ok : bool) (tok : nat -> TokensResult)
    (rs : list nat) :
  forall (w : World) (cell : PromiseCell),
  promises w !! p = Some cell ->
  p_state cell = (if ok then Resolved else Rejected) ->
  NoDup rs ->
  (forall r, r ∈ rs -> exists c,
      calls w !! r = Some c /\ c_state c = AwaitingRefresh p) ->
  clients (run w (resumeAll tok rs)) = clients w /\
  promises (run w (resumeAll tok rs)) = promises w /\
  (forall r, r ∈ rs -> exists c,
      calls (run w (resumeAll tok rs)) !! r = Some c /\
      c_state c = resumed ok (tok r)) /\
  (forall r, r ∉ rs -> calls (run w (resumeAll tok rs)) !! r = calls w !! r) /\
  List.filter isRefreshInvoked (log (run w (resumeAll tok rs))) =
    List.filter isRefreshInvoked (log w).
Proof.
  induction rs as [|r rs IH]; intros w cell Hp Hcell Hnd Hcalls.
  - simpl. repeat split; try reflexivity.
    intros r Hr. now apply elem_of_nil in Hr.
  - apply NoDup_cons in Hnd as [Hnotin Hnd].
    destruct (Hcalls r) as (c & Hr & Hst); [apply elem_of_cons; now left |].
    pose proof (lookup_lt_Some _ _ _ Hr) as Hlt.
    destruct (resume_step w r p c cell ok (tok r) Hr Hst Hp Hcell)
      as (S1 & S2 & (c' & S3 & S3') & S4).
    simpl. set (w1 := resume w r (tok r)) in *.
    destruct (IH w1 cell) as (Ecl & Epr & Hin & Hout & Elog); try assumption.
    { now rewrite S2. }
    { intros r' Hr'. destruct (Hcalls r') as (c0 & Hc0 & Hrest);
        [apply elem_of_cons; now right |].
      exists c0. split; [|exact Hrest]. rewrite S3.
      rewrite list_lookup_insert_ne; [exact Hc0 |]. intros ->. contradiction. }
    split; [congruence |]. split; [congruence |]. split; [|split].
    + intros r' Hr'. apply elem_of_cons in Hr' as [->|Hr'].
      * rewrite (Hout r Hnotin), S3.
        rewrite list_lookup_insert_eq by exact Hlt. now exists c'.
      * exact (Hin r' Hr').
    + intros r' Hr'. apply not_elem_of_cons in Hr' as [Hne Hr'].
      rewrite (Hout r' Hr'), S3. now rewrite list_lookup_insert_ne.
    + congruence.
Qed.

(** In a reachable world a client has at most one refresh outstanding. *)
Lemma outstanding_unique (w : World) (this p1 p2 : nat) :
  reachable w -> outstanding w this p1 -> outstanding w this p2 -> p1 = p2.
Proof.
  intros Hreach H1 H2.
  destruct (wf_reachable w Hreach) as (_ & _ & _ & Hsf & _).
  destruct (Hsf _ _ H1) as (cl1 & E1 & _ & Q1).
  destruct (Hsf _ _ H2) as (cl2 & E2 & _ & Q2).
  congruence.
Qed.

(** The calls a client issues run through hooks bound to that client. *)
Lemma call_hooks (w : World) (r : nat) (c : Call) :
  reachable w -> calls w !! r = Some c ->
  ky_hooks (c_ky c) = c_client c /\ ky_retry (c_ky c) = clientRetry /\
  is_Some (clients w !! c_client c).
Proof.
  intros Hreach Hr.
  destruct (wf_reachable w Hreach) as (_ & Hca & _).
  destruct (Hca _ _ Hr) as (H1 & H2 & H3).
  split; [exact H1 |]. split; [exact H2 |]. now apply lookup_lt_is_Some_2.
Qed.

Lemma filter_invoked_awaits (p : nat) (rs : list nat) :
  List.filter isRefreshInvoked (map (fun r => AwaitedRefresh r p) rs) = [].
Proof. induction rs as [|r rs IH]; [reflexivity | exact IH]. Qed.

(** The burst, the settlement of the refresh, and the continuation of
    every hook. *)
Lemma burst_outcome (this : nat) (msg : nat -> string)
    (json : nat -> option JSValue) (r0 : nat) (rs : list nat)
    (ok : bool) (tok : nat -> TokensResult)
    (w : World) (cl : APIClient) (cbs : AuthCallbacks) (handler : Handler) :
  clients w !! this = Some cl ->
  authCallbacks cl = Some cbs -> onRefreshToken cbs = Some handler ->
  isRefreshing cl = false ->
  NoDup (r0 :: rs) ->
  (forall r, r ∈ r0 :: rs -> exists c,
      calls w !! r = Some c /\ c_state c = InFlight /\ c_retryCount c = 0%nat /\
      ky_hooks (c_ky c) = this /\ ky_retry (c_ky c) = clientRetry) ->
  let p := length (promises w) in
  let w1 := run w (unauthorized msg json (r0 :: rs)) in
  let w2 := run w1 (SettleRefresh p ok :: resumeAll tok (r0 :: rs)) in
  (forall r, r ∈ r0 :: rs -> exists c,
      calls w2 !! r = Some c /\ c_state c = resumed ok (tok r)) /\
  List.filter isRefreshInvoked (log w2) =
    List.filter isRefreshInvoked (log w) ++ [RefreshInvoked this handler p].
Proof.
  intros Hcl Hcbs Hh Hflag Hnd Hcalls p w1 w2.
  destruct (burst_401 this msg json r0 rs w cl cbs handler
              Hcl Hcbs Hh Hflag Hnd Hcalls)
    as (Ecl & Epr & Elog & Hin & _).
  fold p in Ecl, Epr, Elog, Hin. fold w1 in Ecl, Epr, Elog, Hin.
  pose proof (lookup_lt_Some _ _ _ Hcl) as Hclt.
  assert (Hp : promises w1 !! p = Some {| p_state := Pending; p_owner := this |}).
  { rewrite Epr. unfold p. now rewrite list_lookup_middle. }
  assert (Hcl1 : clients w1 !! this = Some (withRefresh cl true (Some p))).
  { rewrite Ecl. now apply list_lookup_insert_eq. }
  destruct (settleRefresh_effects w1 p ok this _ Hp Hcl1) as (S1 & S2 & S3 & S4).
  subst w2. change (run w1 (SettleRefresh p ok :: resumeAll tok (r0 :: rs)))
    with (run (settleRefresh w1 p ok) (resumeAll tok (r0 :: rs))).
  destruct (resume_phase p ok tok (r0 :: rs) (settleRefresh w1 p ok)
              {| p_state := if ok then Resolved else Rejected; p_owner := this |})
    as (_ & _ & Hres & _ & Elog2).
  - rewrite S2. apply list_lookup_insert_eq. now apply lookup_lt_Some in Hp.
  - reflexivity.
  - exact Hnd.
  - intros r Hr. rewrite S3. exact (Hin r Hr).
  - split; [exact Hres |].
    rewrite Elog2, S4, Elog.
    change (RefreshInvoked this handler p :: ?l)
      with ([RefreshInvoked this handler p] ++ l).
    rewrite !filter_invoked_app, filter_invoked_awaits.
    simpl. rewrite ?app_nil_r. reflexivity.
Qed.

(** ** The window of a refresh *)

Lemma calm_refl (this p : nat) (w : World) : calm this p w w.
Proof. split; reflexivity. Qed.

Lemma calm_trans (this p : nat) (w1 w2 w3 : World) :
  calm this p w1 w2 -> calm this p w2 w3 -> calm this p w1 w3.
Proof. intros [P1 L1] [P2 L2]. split; congruence. Qed.

Lemma calm_setCall (this p : nat) (w : World) (r : nat) (c : Call) :
  calm this p w (setCall w r c).
Proof. split; reflexivity. Qed.

Lemma calm_emit (this p : nat) (w : World) (e : Effect) :
  invokedBy this e = false -> calm this p w (emit w e).
Proof.
  intros He. split; [reflexivity |]. simpl.
  rewrite List.filter_app. simpl. rewrite He. apply app_nil_r.
Qed.

Lemma calm_alloc (this p : nat) (w : World) (st : PromiseState) (owner : nat) :
  (p < length (promises w))%nat -> calm this p w (allocPromise w st owner).
Proof.
  intros Hlt. split; [|reflexivity]. simpl. now apply lookup_app_l.
Qed.

Lemma outstanding_lt (w : World) (this p : nat) :
  outstanding w this p -> (p < length (promises w))%nat.
Proof. intros (cell & H & _). exact (lookup_lt_Some _ _ _ H). Qed.

(** While the refresh [p] of [this] is outstanding, [refreshTokens] on any
    client leaves [p] alone and does not invoke the handler of [this]. *)
Lemma calm_refreshTokens (this p : nat) (w : World) (i : nat) (cl : APIClient) :
  wf w -> outstanding w this p -> clients w !! i = Some cl ->
  calm this p w (fst (refreshTokens w i cl)).
Proof.
  intros (_ & _ & _ & Hsf & _) Hout Hi.
  pose proof (outstanding_lt _ _ _ Hout) as Hlt.
  destruct (Hsf _ _ Hout) as (cl0 & Hthis & Hflag & Hp).
  unfold refreshTokens.
  destruct (authCallbacks cl) as [cbs|]; [|now apply calm_alloc].
  destruct (decide (i = this)) as [->|Hne].
  { rewrite Hthis in Hi. injection Hi as <-. rewrite Hflag, Hp. apply calm_refl. }
  assert (Hstart : forall flag st q,
    calm this p w (setClient (allocPromise w st i) i (withRefresh cl flag q))).
  { intros flag st q. split; [|reflexivity]. simpl. now apply lookup_app_l. }
  destruct (isRefreshing cl), (refreshPromise cl), (onRefreshToken cbs);
    simpl; try apply calm_refl; try apply Hstart.
  all: eapply calm_trans; [apply Hstart |]; apply calm_emit; simpl;
       now apply Nat.eqb_neq.
Qed.

Lemma calm_authFailed (this p : nat) (w : World) (r : nat) (c : Call) (n : nat) :
  calm this p w (authFailed w r c n).
Proof.
  destruct (authFailed_effects w r c n) as (_ & A2 & _ & A4).
  split; [now rewrite A2 |]. rewrite A4, List.filter_app.
  destruct (clients w !! ky_hooks (c_ky c)) as [cl|];
    [destruct (authCallbacks cl) as [cbs|];
       [destruct (onAuthError cbs) |] |];
    simpl; apply app_nil_r.
Qed.

Lemma calm_beforeRetry (this p : nat) (w : World) (r : nat) (c : Call)
    (error : Thrown) (n : nat) :
  wf w -> outstanding w this p -> calm this p w (beforeRetry w r c error n).
Proof.
  intros Hwf Hout. unfold beforeRetry. destruct error; try apply calm_setCall.
  destruct (status =? 401)%Z; [|apply calm_setCall].
  destruct (clients w !! ky_hooks (c_ky c)) as [cl|] eqn:Hcl; [|apply calm_refl].
  destruct (_ && _); [|apply calm_authFailed].
  pose proof (calm_refreshTokens this p w _ cl Hwf Hout Hcl) as Hq.
  destruct (refreshTokens w (ky_hooks (c_ky c)) cl) as [w1 q]. simpl in Hq.
  eapply calm_trans; [exact Hq |].
  eapply calm_trans; [apply calm_setCall |]. now apply calm_emit.
Qed.

Lemma calm_kyFailed (this p : nat) (w : World) (r : nat) (c : Call)
    (error : Thrown) :
  wf w -> outstanding w this p -> calm this p w (kyFailed w r c error).
Proof.
  intros Hwf Hout. unfold kyFailed, settle.
  destruct (bool_decide _); [|apply calm_setCall].
  destruct (_ || _); [apply calm_setCall | now apply calm_beforeRetry].
Qed.

Ltac calm_id := first [apply calm_refl | split; reflexivity].

(** An event that does not settle [p] keeps the refresh [p] of [this]
    outstanding, and [this] does not invoke its handler. *)
Lemma calm_step (this p : nat) (w : World) (ev : Event) :
  wf w -> outstanding w this p -> settles p ev = false ->
  calm this p w (step w ev).
Proof.
  intros Hwf Hout Hev. destruct ev; simpl.
  - calm_id.
  - destruct (clients w !! this0); calm_id.
  - unfold refreshAuth. destruct (clients w !! this0) as [cl|] eqn:Hcl;
      [|calm_id].
    destruct (authCallbacks cl); [|calm_id].
    now apply calm_refreshTokens.
  - unfold request. destruct (clients w !! this0) as [cl|]; [|calm_id].
    destruct (request_begin cl endpoint params query body) as [[ky path] prepared].
    destruct prepared; [destruct (kyRejectsInput ky path) |]; calm_id.
  - unfold send. destruct (calls w !! call) as [c|]; [|calm_id].
    destruct (c_state c); try calm_id.
    destruct (clients w !! ky_hooks (c_ky c)) as [cl|]; [|calm_id].
    destruct (authCallbacks cl), tok;
      try (eapply calm_trans; [apply calm_setCall | now apply calm_emit]).
    now apply calm_kyFailed.
  - unfold receive. destruct (calls w !! call) as [c|]; [|calm_id].
    destruct (c_state c); try calm_id.
    destruct res as [status message json|timeout message].
    + destruct (responseOk status); [apply calm_setCall | now apply calm_kyFailed].
    + now apply calm_kyFailed.
  - simpl in Hev. apply Nat.eqb_neq in Hev.
    unfold settleRefresh. destruct (promises w !! promise) as [cell|]; [|calm_id].
    destruct (p_state cell); try calm_id. simpl.
    destruct (clients w !! p_owner cell); (split; [|reflexivity]); simpl;
      now apply list_lookup_insert_ne.
  - unfold resume. destruct (calls w !! call) as [c|]; [|calm_id].
    destruct (c_state c); try calm_id.
    destruct (promises w !! p0) as [cell|]; [|calm_id].
    destruct (p_state cell); [calm_id | |apply calm_authFailed].
    destruct tok; [apply calm_setCall | apply calm_authFailed].
Qed.

Lemma calm_outstanding (this p : nat) (w w' : World) :
  calm this p w w' -> outstanding w this p -> outstanding w' this p.
Proof. intros [P _] (cell & H & Hrest). exists cell. now rewrite P. Qed.

Lemma window (this p : nat) (evs : list Event) :
  forall w, wf w -> outstanding w this p ->
  forallb (fun ev => negb (settles p ev)) evs = true ->
  outstanding (run w evs) this p /\
  List.filter (invokedBy this) (log (run w evs)) =
    List.filter (invokedBy this) (log w).
Proof.
  induction evs as [|ev evs IH]; intros w Hwf Hout Hevs; [easy |].
  simpl in Hevs. apply andb_prop in Hevs as [Hev Hevs].
  apply negb_true_iff in Hev.
  pose proof (calm_step this p w ev Hwf Hout Hev) as Hcalm.
  destruct (IH (step w ev)) as [Hout' Hlog'].
  - now apply wf_step.
  - exact (calm_outstanding _ _ _ _ Hcalm Hout).
  - exact Hevs.
  - split; [exact Hout' |]. simpl. rewrite Hlog'. exact (proj2 Hcalm).
Qed.

(** A first 401 while a refresh of the client is outstanding joins it. *)
Lemma joins_outstanding (w : World) (this p r : nat) (c : Call)
    (m : string) (j : option JSValue) :
  reachable w -> outstanding w this p ->
  calls w !! r = Some c -> c_client c = this ->
  c_state c = InFlight -> c_retryCount c = 0%nat ->
  calls (step w (Receive r (Response 401 m j))) !! r =
    Some (advance c (c_authorization c) 1 (AwaitingRefresh p)).
Proof.
  intros Hreach Hout Hr Hthis Hst H0.
  destruct (wf_reachable w Hreach) as (Hclok & _ & _ & Hsf & _).
  destruct (Hsf _ _ Hout) as (cl & Hcl & Hflag & Hp).
  destruct (Hclok _ _ Hcl) as (_ & _ & _ & _ & Hcbs).
  destruct (call_hooks w r c Hreach Hr) as (Hk & Hretry & _).
  simpl. rewrite <- Hthis, <- Hk in Hcl.
  rewrite (receive_401_first w r c cl) by auto.
  rewrite (refreshTokens_join w _ cl p) by auto. simpl.
  apply list_lookup_insert_eq. exact (lookup_lt_Some _ _ _ Hr).
Qed.

(** ** C1: single-flight refresh *)

(** C1, as the code has it. The refresh is shared by the calls whose 401
    answers their first attempt; a 401 that answers a later attempt of a
    call (ky has retried the call after a failed attempt) settles that call
    at once, without awaiting any refresh. For every client instance at
    most one refresh operation is outstanding at any time: in every
    reachable world two outstanding
    refresh operations of one client are the same one; whatever events
    happen while a refresh is outstanding, short of its settlement, it
    stays outstanding and the client does not invoke its handler again;
    and a call of the client that receives its first 401 in the meantime
    awaits that refresh. When the calls [r0 :: rs] of one client each
    receive their first 401 while the client is not refreshing and a
    refresh handler is configured, [onRefreshToken] is invoked exactly once
    (the log grows by one invocation followed by one await per call), the
    refresh is outstanding, every call of the burst awaits that same
    promise, and after the refresh settles every call continues according
    to its outcome: issued again when it succeeded, failed with [AuthError]
    when it failed; no further invocation of the handler happens on the
    way. A call whose 401 answers its second or a later attempt is rejected
    at once: it awaits no refresh, and no promise is created or settled. *)
Theorem single_flight_refresh
    (w : World) (this : nat) (cl : APIClient) (cbs : AuthCallbacks)
    (handler : Handler) (r0 : nat) (rs : list nat)
    (msg : nat -> string) (json : nat -> option JSValue)
    (ok : bool) (tok : nat -> TokensResult) :
  reachable w ->
  clients w !! this = Some cl ->
  authCallbacks cl = Some cbs -> onRefreshToken cbs = Some handler ->
  isRefreshing cl = false ->
  NoDup (r0 :: rs) ->
  (forall r, r ∈ r0 :: rs -> exists c,
      calls w !! r = Some c /\ c_client c = this /\
      c_state c = InFlight /\ c_retryCount c = 0%nat) ->
  let p := length (promises w) in
  let w1 := run w (unauthorized msg json (r0 :: rs)) in
  let w2 := run w1 (SettleRefresh p ok :: resumeAll tok (r0 :: rs)) in
  (forall w' i p1 p2,
      reachable w' -> outstanding w' i p1 -> outstanding w' i p2 -> p1 = p2) /\
  (forall w' i q evs,
      reachable w' -> outstanding w' i q ->
      forallb (fun ev => negb (settles q ev)) evs = true ->
      outstanding (run w' evs) i q /\
      List.filter (invokedBy i) (log (run w' evs)) =
        List.filter (invokedBy i) (log w')) /\
  (forall w' i q r c m j,
      reachable w' -> outstanding w' i q ->
      calls w' !! r = Some c -> c_client c = i ->
      c_state c = InFlight -> c_retryCount c = 0%nat ->
      calls (step w' (Receive r (Response 401 m j))) !! r =
        Some (advance c (c_authorization c) 1 (AwaitingRefresh q))) /\
  log w1 = log w ++ RefreshInvoked this handler p
                    :: map (fun r => AwaitedRefresh r p) (r0 :: rs) /\
  outstanding w1 this p /\
  (forall r, r ∈ r0 :: rs -> exists c,
      calls w1 !! r = Some c /\ c_state c = AwaitingRefresh p) /\
  (forall r, r ∈ r0 :: rs -> exists c,
      calls w2 !! r = Some c /\ c_state c = resumed ok (tok r)) /\
  List.filter isRefreshInvoked (log w2) =
    List.filter isRefreshInvoked (log w) ++ [RefreshInvoked this handler p] /\
  (forall w' r c m j,
      reachable w' -> calls w' !! r = Some c ->
      c_state c = InFlight -> (1 <= c_retryCount c)%nat ->
      (exists c' e,
          calls (step w' (Receive r (Response 401 m j))) !! r = Some c' /\
          c_state c' = Settled (Threw e)) /\
      promises (step w' (Receive r (Response 401 m j))) = promises w' /\
      awaits r (log (step w' (Receive r (Response 401 m j)))) = awaits r (log w') /\
      List.filter isRefreshInvoked (log (step w' (Receive r (Response 401 m j)))) =
        List.filter isRefreshInvoked (log w')).
Proof.
  intros Hreach Hcl Hcbs Hh Hflag Hnd Hcalls p w1 w2.
  assert (Hcalls' : forall r, r ∈ r0 :: rs -> exists c,
      calls w !! r = Some c /\ c_state c = InFlight /\ c_retryCount c = 0%nat /\
      ky_hooks (c_ky c) = this /\ ky_retry (c_ky c) = clientRetry).
  { intros r Hr. destruct (Hcalls r Hr) as (c & Hc & Hthis & Hst & H0).
    destruct (call_hooks w r c Hreach Hc) as (Hk & Hretry & _).
    exists c. repeat split; try assumption. congruence. }
  destruct (burst_401 this msg json r0 rs w cl cbs handler
              Hcl Hcbs Hh Hflag Hnd Hcalls')
    as (Ecl & Epr & Elog & Hin & _).
  destruct (burst_outcome this msg json r0 rs ok tok w cl cbs handler
              Hcl Hcbs Hh Hflag Hnd Hcalls') as (Hres & Elog2).
  split; [intros w' i p1 p2; apply outstanding_unique |].
  split.
  { intros w' i q evs Hreach' Hout Hevs.
    apply window; [now apply wf_reachable | exact Hout | exact Hevs]. }
  split; [intros w' i q r c m j; apply joins_outstanding |].
  split; [exact Elog |]. split.
  { exists {| p_state := Pending; p_owner := this |}.
    split; [|split; reflexivity].
    unfold w1. rewrite Epr. unfold p. now rewrite list_lookup_middle. }
  split; [exact Hin |]. split; [exact Hres |]. split; [exact Elog2 |].
  intros w' r c m j Hreach' Hr Hst H1.
  destruct (call_hooks w' r c Hreach' Hr) as (Hk & Hretry & Hsome).
  rewrite <- Hk in Hsome.
  destruct (later_401 w' r c m j Hr Hst H1 Hretry Hsome)
    as (_ & Hp & (e & Hc) & (l & Hl & Hnotice)).
  cbn [step]. split; [|split; [exact Hp |]].
  - eexists _, e. rewrite Hc.
    split; [apply list_lookup_insert_eq, (lookup_lt_Some _ _ _ Hr) | reflexivity].
  - rewrite Hl. unfold awaits. rewrite !List.filter_app, !length_app.
    assert (E1 : List.filter (isAwaitOf r) l = []).
    { clear Hl. induction l as [|x l IH]; [reflexivity |].
      destruct (Hnotice x (or_introl eq_refl)) as [h ->]. cbn.
      apply IH. intros e' He'. apply Hnotice. now right. }
    assert (E2 : List.filter isRefreshInvoked l = []).
    { clear Hl E1. induction l as [|x l IH]; [reflexivity |].
      destruct (Hnotice x (or_introl eq_refl)) as [h ->]. cbn.
      apply IH. intros e' He'. apply Hnotice. now right. }
    rewrite E1, E2, app_nil_r. cbn. split; [lia | reflexivity].
Qed.

Lemma NoDup_pair (a b : nat) : a <> b -> NoDup [a; b].
Proof.
  intros Hne. apply NoDup_cons. split; [|apply NoDup_singleton].
  intros H. apply list_elem_of_singleton in H. contradiction.
Qed.

Lemma single_flight_refresh_witness :
  let w1 := run twoInFlight
              (unauthorized (fun _ => "Unauthorized") (fun _ => None) [0; 1]%nat) in
  let w2 := run w1 (SettleRefresh 0 true
                      :: resumeAll (fun _ => token "fresh") [0; 1]%nat) in
  log w1 = log twoInFlight
             ++ [RefreshInvoked 0 2 0; AwaitedRefresh 0 0; AwaitedRefresh 1 0] /\
  List.filter isRefreshInvoked (log w2) = [RefreshInvoked 0 2 0].
Proof.
  destruct (single_flight_refresh twoInFlight 0
              (newAPIClient 0 sampleConfig (Some sampleCallbacks))
              sampleCallbacks 2 0 [1%nat]
              (fun _ => "Unauthorized") (fun _ => None) true
              (fun _ => token "fresh"))
    as (_ & _ & _ & H1 & _ & _ & _ & H2 & _).
  - eexists. reflexivity.
  - reflexivity.
  - reflexivity.
  - reflexivity.
  - reflexivity.
  - apply NoDup_pair. discriminate.
  - intros r Hr. apply elem_of_cons in Hr as [->|Hr];
      [|apply list_elem_of_singleton in Hr as ->];
      eexists; repeat split; reflexivity.
  - split; [exact H1 | exact H2].
Defined.

(** C1 as stated fails: two calls of an idle client both receive a 401
    while no refresh is in flight, but the 401 of call 0 answers its second
    attempt (ky has retried it after a network failure). The handler is
    invoked once, by call 1; call 0 awaits nothing and is rejected with
    [AuthError], although the refresh then succeeds and call 1 is issued
    again. *)
Lemma mixed_burst_counterexample :
  let w1 := run mixedBurst
              (unauthorized (fun _ => "Unauthorized") (fun _ => None) [0; 1]%nat) in
  let w2 := run w1 (SettleRefresh 0 true
                      :: resumeAll (fun _ => token "fresh") [0; 1]%nat) in
  (exists c0 c1,
      calls mixedBurst !! 0%nat = Some c0 /\ calls mixedBurst !! 1%nat = Some c1 /\
      c_state c0 = InFlight /\ c_state c1 = InFlight /\
      c_retryCount c0 = 1%nat /\ c_retryCount c1 = 0%nat) /\
  promises mixedBurst = [] /\
  log w1 = log mixedBurst
             ++ [AuthErrorNotified 0 1; RefreshInvoked 0 2 0; AwaitedRefresh 1 0] /\
  awaits 0 (log w2) = 0%nat /\
  (exists c0 c1,
      calls w2 !! 0%nat = Some c0 /\ calls w2 !! 1%nat = Some c1 /\
      c_state c0 = authFailure /\ c_state c1 = Starting).
Proof.
  split; [eexists _, _; repeat split; reflexivity |].
  split; [reflexivity |]. split; [reflexivity |]. split; [reflexivity |].
  eexists _, _. repeat split; reflexivity.
Qed.

(** ** C2: one authentication retry per call *)

Lemma awaits_bounded (w : World) (r : nat) :
  reachable w -> (awaits r (log w) <= 1)%nat.
Proof.
  intros Hreach. destruct (wf_reachable w Hreach) as (_ & _ & _ & _ & Haw).
  specialize (Haw r). destruct (calls w !! r) as [c|]; [|lia].
  destruct (c_retryCount c =? 0)%nat; lia.
Qed.

(** C2, as the code has it. A call enters the refresh path at most once.
    A call that is on the attempt following its first retry (retry
    counter 1) and receives a 401 settles at once with [AuthError]:
    [onAuthError] is invoked when the client has one. A call that is on its
    third attempt (retry counter 2: an attempt after the first retry got no
    response and ky issued the request again) and receives a 401 has used
    up ky's retries: the hooks do not run, [onAuthError] is not invoked and
    the call is rejected with an [APIError] of status 401. In both cases
    the refresh state of every client and every promise are untouched,
    [onRefreshToken] is not invoked and the call does not enter the refresh
    path again. In every reachable world each call has entered the refresh
    path at most once. *)
Theorem auth_retry_bounded
    (w : World) (r : nat) (c : Call) (m : string) (j : option JSValue) :
  reachable w ->
  calls w !! r = Some c -> c_state c = InFlight -> (1 <= c_retryCount c)%nat ->
  let w' := step w (Receive r (Response 401 m j)) in
  (c_retryCount c = 1%nat ->
   calls w' !! r = Some (advance c (c_authorization c) 2 authFailure) /\
   log w' =
     log w ++
       match clients w !! c_client c with
       | Some cl =>
           match authCallbacks cl with
           | Some cbs =>
               match onAuthError cbs with
               | Some handler => [AuthErrorNotified (c_client c) handler]
               | None => []
               end
           | None => []
           end
       | None => []
       end) /\
  ((2 <= c_retryCount c)%nat ->
   calls w' !! r =
     Some (advance c (c_authorization c) (S (c_retryCount c))
             (Settled (Threw (APIError (errorMessage 401 m j) 401
                                (Some (JObj [])))))) /\
   log w' = log w) /\
  clients w' = clients w /\ promises w' = promises w /\
  List.filter isRefreshInvoked (log w') = List.filter isRefreshInvoked (log w) /\
  awaits r (log w') = awaits r (log w) /\
  (forall w0 r0, reachable w0 -> (awaits r0 (log w0) <= 1)%nat).
Proof.
  intros Hreach Hr Hst H1 w'.
  destruct (call_hooks w r c Hreach Hr) as (Hk & Hretry & Hsome).
  pose proof (lookup_lt_Some _ _ _ Hr) as Hlt.
  rewrite <- Hk in Hsome.
  subst w'. cbn [step].
  split; [|split].
  - intros E.
    rewrite (receive_401_second w r c m j Hr Hst E Hretry Hsome).
    destruct (authFailed_effects w r c 2) as (_ & _ & A3 & A4).
    rewrite Hk in A4.
    split; [rewrite A3; now apply list_lookup_insert_eq | exact A4].
  - intros E.
    rewrite (receive_401_exhausted w r c m j Hr Hst E Hretry).
    split; [cbn; now apply list_lookup_insert_eq | reflexivity].
  - destruct (later_401 w r c m j Hr Hst H1 Hretry Hsome)
      as (Hc & Hp & _ & (l & Hl & Hnotice)).
    split; [exact Hc |]. split; [exact Hp |].
    assert (E1 : List.filter (isAwaitOf r) l = []).
    { clear Hl. induction l as [|x l IH]; [reflexivity |].
      destruct (Hnotice x (or_introl eq_refl)) as [h ->]. cbn.
      apply IH. intros e' He'. apply Hnotice. now right. }
    assert (E2 : List.filter isRefreshInvoked l = []).
    { clear Hl E1. induction l as [|x l IH]; [reflexivity |].
      destruct (Hnotice x (or_introl eq_refl)) as [h ->]. cbn.
      apply IH. intros e' He'. apply Hnotice. now right. }
    split; [|split; [|intros w0 r0; apply awaits_bounded]].
    + now rewrite Hl, List.filter_app, E2, app_nil_r.
    + rewrite Hl. unfold awaits. rewrite List.filter_app, E1, app_nil_r.
      reflexivity.
Qed.

Lemma auth_retry_bounded_witness :
  let w' := step retrying (Receive 0 (Response 401 "Unauthorized" None)) in
  (exists c, calls w' !! 0%nat = Some c /\ c_state c = authFailure) /\
  log w' = log retrying ++ [AuthErrorNotified 0 1] /\
  List.filter isRefreshInvoked (log w') = [RefreshInvoked 0 2 0].
Proof.
  destruct (auth_retry_bounded retrying 0
              {| c_client := 0; c_endpoint := getUser;
                 c_ky := ky_create (Some "https://api.example.com") 0;
                 c_path := "users/42";
                 c_options := {| opt_method := GET; opt_searchParams := None;
                                 opt_json := None |};
                 c_authorization := Some "Bearer fresh";
                 c_retryCount := 1; c_state := InFlight |}
              "Unauthorized" None)
    as (H1 & _ & _ & _ & H3 & _).
  - eexists. reflexivity.
  - reflexivity.
  - reflexivity.
  - cbn. lia.
  - destruct (H1 eq_refl) as (Hc & Hlog).
    split; [eexists; split; [exact Hc | reflexivity] |].
    split; [exact Hlog | rewrite H3; reflexivity].
Defined.

(** C2 as stated fails: a call receives a 401, the refresh succeeds, the
    retry gets no response and ky issues the request again; the 401 that
    answers this attempt does not make the client invoke [onAuthError], and
    the call is rejected with an [APIError] of status 401, not with
    [AuthError]. No second refresh is started. *)
Lemma exhausted_retries_counterexample :
  let w' := step retryingAgain (Receive 0 (Response 401 "Unauthorized" None)) in
  (exists c, calls retryingAgain !! 0%nat = Some c /\
             c_state c = InFlight /\ c_retryCount c = 2%nat) /\
  List.filter isRefreshInvoked (log retryingAgain) = [RefreshInvoked 0 2 0] /\
  (exists c, calls w' !! 0%nat = Some c /\
             c_state c =
               Settled (Threw (APIError (JStr "Unauthorized") 401 (Some (JObj []))))) /\
  log w' = log retryingAgain /\
  ~ In (AuthErrorNotified 0 1) (log w').
Proof.
  split; [eexists; repeat split; reflexivity |].
  split; [reflexivity |].
  split; [eexists; split; reflexivity |].
  split; [reflexivity |].
  cbn. intros H. repeat (destruct H as [H|H]; [discriminate |]). exact H.
Qed.

(** ** C10: endpoints with their own base URL share the refresh state *)

Lemma getClientForEndpoint_override (cl : APIClient) (endpoint : APIEndpoint) :
  truthyUrl (ep_baseUrl endpoint) = true ->
  ep_baseUrl endpoint <> cfg_baseUrl (config cl) ->
  getClientForEndpoint cl endpoint = ky_create (ep_baseUrl endpoint) (hooks cl).
Proof.
  intros Ht Hne. unfold getClientForEndpoint, getEndpointBaseUrl. rewrite Ht.
  destruct (decide _); [contradiction | reflexivity].
Qed.

(** C10. For a client of a reachable world: an endpoint whose own base URL
    differs from the default is served by a separately created ky instance
    carrying the hooks object of that same client, and the hooks of the ky
    instance of every endpoint are bound to that client. Hence when two
    calls of the client that are served by ky instances with different
    base URLs receive their first 401 while the client is not refreshing,
    [onRefreshToken] is invoked once, both calls await the promise of that
    one refresh, and afterwards the client still has at most one refresh
    outstanding. *)
Theorem refresh_shared_across_base_urls
    (w : World) (this : nat) (cl : APIClient) (cbs : AuthCallbacks)
    (handler : Handler) (r1 r2 : nat) (c1 c2 : Call)
    (msg : nat -> string) (json : nat -> option JSValue) :
  reachable w ->
  clients w !! this = Some cl ->
  authCallbacks cl = Some cbs -> onRefreshToken cbs = Some handler ->
  isRefreshing cl = false ->
  calls w !! r1 = Some c1 -> calls w !! r2 = Some c2 ->
  c_client c1 = this -> c_client c2 = this ->
  ky_prefixUrl (c_ky c1) <> ky_prefixUrl (c_ky c2) ->
  c_state c1 = InFlight -> c_retryCount c1 = 0%nat ->
  c_state c2 = InFlight -> c_retryCount c2 = 0%nat ->
  let p := length (promises w) in
  let w1 := run w (unauthorized msg json [r1; r2]) in
  (forall endpoint,
      truthyUrl (ep_baseUrl endpoint) = true ->
      ep_baseUrl endpoint <> cfg_baseUrl (config cl) ->
      getClientForEndpoint cl endpoint = ky_create (ep_baseUrl endpoint) this /\
      getClientForEndpoint cl endpoint <> client cl) /\
  (forall endpoint,
      ky_hooks (getClientForEndpoint cl endpoint) = ky_hooks (client cl) /\
      ky_hooks (getClientForEndpoint cl endpoint) = this) /\
  ky_hooks (c_ky c1) = this /\ ky_hooks (c_ky c2) = this /\
  log w1 = log w ++ [RefreshInvoked this handler p;
                     AwaitedRefresh r1 p; AwaitedRefresh r2 p] /\
  (exists c1' c2',
      calls w1 !! r1 = Some c1' /\ c_state c1' = AwaitingRefresh p /\
      calls w1 !! r2 = Some c2' /\ c_state c2' = AwaitingRefresh p) /\
  (forall p1 p2, outstanding w1 this p1 -> outstanding w1 this p2 -> p1 = p2).
Proof.
  intros Hreach Hcl Hcbs Hh Hflag Hr1 Hr2 Hc1 Hc2 Hurl Hs1 H01 Hs2 H02 p w1.
  destruct (wf_reachable w Hreach) as (Hclok & _).
  destruct (Hclok _ _ Hcl) as (Hhooks & Hkh & Hkr & Hpre & _).
  destruct (call_hooks w r1 c1 Hreach Hr1) as (Hk1 & Hretry1 & _).
  destruct (call_hooks w r2 c2 Hreach Hr2) as (Hk2 & Hretry2 & _).
  assert (Hne : r1 <> r2) by (intros ->; congruence).
  destruct (burst_401 this msg json r1 [r2] w cl cbs handler
              Hcl Hcbs Hh Hflag) as (_ & _ & Elog & Hin & _).
  { now apply NoDup_pair. }
  { intros r Hr. apply elem_of_cons in Hr as [->|Hr];
      [|apply list_elem_of_singleton in Hr as ->];
      eexists; repeat split; try eassumption; congruence. }
  split.
  { intros endpoint Ht Hdiff.
    rewrite (getClientForEndpoint_override cl endpoint Ht Hdiff), Hhooks.
    split; [reflexivity |]. intros E.
    apply (f_equal ky_prefixUrl) in E. simpl in E. congruence. }
  split.
  { intros endpoint.
    rewrite getClientForEndpoint_hooks by congruence. split; congruence. }
  split; [congruence |]. split; [congruence |]. split; [exact Elog |]. split.
  - destruct (Hin r1) as (c1' & E1 & S1); [apply elem_of_cons; now left |].
    destruct (Hin r2) as (c2' & E2 & S2);
      [apply elem_of_cons; right; apply elem_of_cons; now left |].
    now exists c1', c2'.
  - intros p1 p2. apply outstanding_unique. now apply reachable_run.
Qed.

Lemma refresh_shared_across_base_urls_witness :
  let w1 := run twoInFlight
              (unauthorized (fun _ => "Unauthorized") (fun _ => None) [0; 1]%nat) in
  log w1 = log twoInFlight
             ++ [RefreshInvoked 0 2 0; AwaitedRefresh 0 0; AwaitedRefresh 1 0].
Proof.
  destruct (refresh_shared_across_base_urls twoInFlight 0
              (newAPIClient 0 sampleConfig (Some sampleCallbacks))
              sampleCallbacks 2 0 1
              {| c_client := 0; c_endpoint := getUser;
                 c_ky := ky_create (Some "https://api.example.com") 0;
                 c_path := "users/42";
                 c_options := {| opt_method := GET; opt_searchParams := None;
                                 opt_json := None |};
                 c_authorization := Some "Bearer stale";
                 c_retryCount := 0; c_state := InFlight |}
              {| c_client := 0; c_endpoint := createUser;
                 c_ky := ky_create (Some "https://admin.example.com") 0;
                 c_path := "users";
                 c_options := {| opt_method := POST; opt_searchParams := None;
                                 opt_json := Some (JObj [("name", JStr "Ann")]) |};
                 c_authorization := Some "Bearer stale";
                 c_retryCount := 0; c_state := InFlight |}
              (fun _ => "Unauthorized") (fun _ => None))
    as (_ & _ & _ & _ & H & _).
  - eexists. reflexivity.
  - reflexivity.
  - reflexivity.
  - reflexivity.
  - reflexivity.
  - reflexivity.
  - reflexivity.
  - reflexivity.
  - reflexivity.
  - discriminate.
  - reflexivity.
  - reflexivity.
  - reflexivity.
  - reflexivity.
  - exact H.
Defined.

(** ** C6 and C4: building the path *)

Lemma buildPath_app (path : string) (earlier later : Params) :
  buildPath path (Some (earlier ++ later)) =
  buildPath (buildPath path (Some earlier)) (Some later).
Proof. unfold buildPath. apply fold_left_app. Qed.

(** C6, as the code has it. The entries are processed in the order of
    [Object.entries]. When the path built from the entries before [field]
    has its first occurrence of [:field] between [before] and [after], the
    entry of [field] turns it into [before], the URL-encoded string form of
    the value (inserted literally), [after]; the entries after [field] are
    applied to that. Only this first occurrence is replaced. *)
Theorem buildPath_replaces_first_occurrence
    (path field : string) (value : JSValue) (earlier later : Params)
    (before after : string) :
  firstAt (placeholder field) (buildPath path (Some earlier)) before after ->
  buildPath path (Some (earlier ++ (field, value) :: later)) =
  buildPath (before +:+ encodeURIComponent (ToString value) +:+ after) (Some later).
Proof.
  intros Hfirst. rewrite buildPath_app.
  change ((field, value) :: later) with ([(field, value)] ++ later).
  rewrite buildPath_app. f_equal.
  unfold buildPath at 1. simpl.
  apply replace_first; [exact Hfirst | apply noDollar_encodeURIComponent].
Qed.

Lemma buildPath_replaces_first_occurrence_witness :
  buildPath "users/:userId/posts/:postId"
    (Some [("userId", JStr "a b"); ("postId", JNum 7)]) =
  "users/a%20b/posts/7".
Proof.
  refine (buildPath_replaces_first_occurrence
            "users/:userId/posts/:postId" "postId" (JNum 7)
            [("userId", JStr "a b")] [] "users/a%20b/posts/" "" _).
  apply findFirst_sound. reflexivity.
Defined.

(** C6 as stated fails: a placeholder that occurs twice is replaced once. *)
Lemma buildPath_every_occurrence_counterexample :
  occursIn (placeholder "id") "items/:id/copies/:id" /\
  buildPath "items/:id/copies/:id" (Some [("id", JNum 7)]) = "items/7/copies/:id" /\
  buildPath "items/:id/copies/:id" (Some [("id", JNum 7)]) <>
    spec_replaceEvery "items/:id/copies/:id" (placeholder "id")
      (encodeURIComponent (ToString (JNum 7))).
Proof.
  split; [now exists "items/", "/copies/:id" |].
  split; [reflexivity | discriminate].
Qed.

Lemma buildPath_absent (path : string) (entries : Params) :
  (forall key value, In (key, value) entries -> ~ occursIn (placeholder key) path) ->
  buildPath path (Some entries) = path.
Proof.
  induction entries as [|[key value] entries IH]; intros H; [reflexivity |].
  change ((key, value) :: entries) with ([(key, value)] ++ entries).
  rewrite buildPath_app. unfold buildPath at 2. simpl.
  fold (placeholder key).
  rewrite replace_absent by (apply (H key value); now left).
  apply IH. intros k v Hin. apply (H k v). now right.
Qed.

(** C4, as the code has it. [buildPath] has no error path. When no
    parameters map is passed, or when the placeholder text [:key] of none
    of the keys of the map occurs in the path (as for the path [users/:id]
    and a map whose only key is [name]), the path is returned as it is,
    any placeholder still in it, and [request] goes on with that path:
    what it hands to ky does not depend on the parameters. *)
Theorem buildPath_keeps_unmatched_placeholder
    (path : string) (params : option Params) :
  (forall entries key value,
      params = Some entries -> In (key, value) entries ->
      ~ occursIn (placeholder key) path) ->
  buildPath path params = path /\
  (forall cl endpoint query body,
      ep_path endpoint = path ->
      request_begin cl endpoint params query body =
        (getClientForEndpoint cl endpoint, path,
         attachBody endpoint body (queryOptions endpoint query))).
Proof.
  intros H.
  assert (E : buildPath path params = path).
  { destruct params as [entries|]; [|reflexivity].
    apply buildPath_absent. intros key value. now apply H. }
  split; [exact E |].
  intros cl endpoint query body Hp. unfold request_begin. now rewrite Hp, E.
Qed.

Lemma buildPath_keeps_unmatched_placeholder_witness :
  occursIn (placeholder "id") "users/:id" /\
  buildPath "users/:id" (Some [("name", JStr "Ann")]) = "users/:id".
Proof.
  split; [now exists "users/", "" |].
  apply (buildPath_keeps_unmatched_placeholder "users/:id"
           (Some [("name", JStr "Ann")])).
  intros entries key value [= <-] [[= <- <-]|[]].
  apply findFirst_None. reflexivity.
Defined.

(** C4 as stated fails: the call is not rejected, and the request goes out
    with the placeholder in its path. *)
Lemma buildPath_missing_key_counterexample :
  let w := run initial
             [Construct sampleConfig None;
              Request 0 getUser (Some [("name", JStr "Ann")]) None JUndefined;
              Send 0 (Tokens None)] in
  occursIn (placeholder "id") (ep_path getUser) /\
  lookupField "id" [("name", JStr "Ann")] = JUndefined /\
  (exists c, calls w !! 0%nat = Some c /\
             c_path c = "users/:id" /\ c_state c = InFlight) /\
  log w = [Fetched 0].
Proof.
  split; [now exists "users/", "" |].
  split; [reflexivity |].
  split; [eexists; repeat split; reflexivity | reflexivity].
Qed.

(** ** C5: construction *)

Lemma setProperty_keys {A : Type} (o : list (string * A)) (key : string) (v : A)
    (name : string) :
  In name (map fst (setProperty o key v)) <-> In name (map fst o) \/ name = key.
Proof.
  unfold setProperty.
  destruct (existsb (fun '(k, _) => String.eqb k key) o) eqn:E.
  - rewrite map_map.
    rewrite (map_ext (fun x => fst (let '(k, x0) := x in
                                     (k, if String.eqb k key then v else x0))) fst)
      by (now intros [k x]).
    split; [now left |]. intros [H| ->]; [exact H |].
    apply existsb_exists in E as ([k x] & Hin & Hk).
    apply String.eqb_eq in Hk. subst k.
    apply in_map_iff. now exists (key, x).
  - rewrite map_app, in_app_iff. cbn. intuition.
Qed.

Lemma getProperty_map {A B : Type} (f : A -> B) (o : list (string * A))
    (name : string) :
  getProperty (map (fun '(k, x) => (k, f x)) o) name =
    option_map f (getProperty o name).
Proof.
  unfold getProperty. induction o as [|[k x] o IH]; [reflexivity |].
  cbn. destruct (String.eqb k name); [reflexivity | exact IH].
Qed.

Lemma getProperty_setProperty_eq {A : Type} (o : list (string * A)) (key : string)
    (v : A) :
  getProperty (setProperty o key v) key = Some v.
Proof.
  unfold setProperty, getProperty.
  destruct (existsb (fun '(k, _) => String.eqb k key) o) eqn:E.
  - induction o as [|[k x] o IH]; [discriminate |].
    cbn in *. destruct (String.eqb k key); [reflexivity | now apply IH].
  - induction o as [|[k x] o IH]; cbn in *; [now rewrite String.eqb_refl |].
    destruct (String.eqb k key); [discriminate | now apply IH].
Qed.

Lemma getProperty_setProperty_ne {A : Type} (o : list (string * A))
    (key name : string) (v : A) :
  name <> key -> getProperty (setProperty o key v) name = getProperty o name.
Proof.
  intros Hne. unfold setProperty, getProperty.
  destruct (existsb (fun '(k, _) => String.eqb k key) o).
  - induction o as [|[k x] o IH]; [reflexivity |].
    cbn. destruct (String.eqb k name) eqn:Ek; [|exact IH].
    apply String.eqb_eq in Ek. subst k.
    apply String.eqb_neq in Hne. now rewrite Hne.
  - induction o as [|[k x] o IH]; cbn.
    + apply not_eq_sym, String.eqb_neq in Hne. now rewrite Hne.
    + destruct (String.eqb k name); [reflexivity | exact IH].
Qed.

Lemma surfaceOf_keys {E : Type} (methods : list (string * (E * MethodShape)))
    (name : string) :
  In name (map fst (surfaceOf methods)) <->
  In name (map fst methods) \/ name = "refreshAuth" \/ name = "updateAuthCallbacks".
Proof.
  unfold surfaceOf. rewrite !setProperty_keys, map_map.
  rewrite (map_ext (fun x : string * (E * MethodShape) =>
                      fst (let '(name0, (endpoint, shape)) := x in
                           (name0, Method endpoint shape))) fst)
    by (now intros [k [e sh]]).
  tauto.
Qed.

Lemma entryShape_typed (endpoint : APIEndpoint) :
  entryShape (valueOfEndpoint endpoint) = Some (methodShape endpoint).
Proof.
  unfold entryShape, valueOfEndpoint, methodShape. cbn [getProp].
  destruct (ep_method endpoint), (ep_baseUrl endpoint), (ep_params endpoint),
    (ep_query endpoint), (ep_body endpoint), (ep_response endpoint),
    (ep_description endpoint);
    reflexivity.
Qed.

Lemma entryShape_is_Some (entry : JSValue) :
  nullish entry = false <-> exists shape, entryShape entry = Some shape.
Proof.
  split.
  - intros H. destruct entry; try discriminate; cbn; eauto.
  - intros [shape H]. destruct entry; try reflexivity; discriminate.
Qed.

Lemma rawGenerateMethods_keys (entries : list (string * JSValue)) :
  forall methods,
    rawGenerateMethods entries = Returned methods ->
    map fst methods = map fst entries /\
    forall name entry, In (name, entry) entries -> nullish entry = false.
Proof.
  induction entries as [|[n e] entries IH]; intros methods Hm.
  - injection Hm as <-. split; [reflexivity | intros name entry []].
  - cbn in Hm. destruct (entryShape e) as [shape|] eqn:He; [|discriminate].
    destruct (rawGenerateMethods entries) as [ms|]; [|discriminate].
    injection Hm as <-. destruct (IH ms eq_refl) as [Hk Hall].
    split; [cbn; now rewrite Hk |].
    intros name entry [[= <- <-]|Hin]; [|exact (Hall name entry Hin)].
    apply entryShape_is_Some. eauto.
Qed.

Lemma rawGenerateMethods_total (entries : list (string * JSValue)) :
  (forall name entry, In (name, entry) entries -> nullish entry = false) ->
  exists methods, rawGenerateMethods entries = Returned methods.
Proof.
  induction entries as [|[n e] entries IH]; intros H; [now exists [] |].
  destruct IH as [ms Hms].
  { intros name entry Hin. apply (H name). now right. }
  destruct (proj1 (entryShape_is_Some e)) as [shape He].
  { apply (H n). now left. }
  cbn. rewrite He, Hms. eauto.
Qed.

(** C5, as the code has it. Construction checks nothing: [defineConfig]
    returns its argument, and [createAPIClient] returns an object whose
    properties are the names of the registry together with [refreshAuth]
    and [updateAuthCallbacks]; these two are the functions the object
    literal adds, also when the registry has entries of those names, and
    every other name is the method of its entry. At run time, where the
    entries are arbitrary values, construction throws exactly when an entry
    is [null] or [undefined]; an entry that is an object is accepted
    whatever fields it lacks, be it the response schema, the method or the
    path, and on the values of well-typed endpoints the run-time reading
    gives the shapes of [generateMethods]. An entry without a response
    schema is accepted; at request time the parsed body of its response is
    returned as it is. *)
Theorem construction_never_fails
    (this : nat) (registry : APIConfig) (cbs : option AuthCallbacks) :
  defineConfig registry = registry /\
  (exists surface,
      createAPIClient this (defineConfig registry) cbs = Returned surface /\
      (forall name,
          In name (map fst (surface_methods surface)) <->
          In name (map fst (cfg_endpoints registry)) \/
          name = "refreshAuth" \/ name = "updateAuthCallbacks") /\
      getProperty (surface_methods surface) "refreshAuth" = Some RefreshAuthMember /\
      getProperty (surface_methods surface) "updateAuthCallbacks" =
        Some UpdateAuthCallbacksMember /\
      (forall name,
          name <> "refreshAuth" -> name <> "updateAuthCallbacks" ->
          getProperty (surface_methods surface) name =
            option_map (fun endpoint => Method endpoint (methodShape endpoint))
                       (getProperty (cfg_endpoints registry) name))) /\
  (forall entries : list (string * JSValue),
      ((forall name entry, In (name, entry) entries -> nullish entry = false) <->
       exists members, rawCreateAPIClient entries = Returned members) /\
      (forall members,
          rawCreateAPIClient entries = Returned members ->
          forall name,
            In name (map fst members) <->
            In name (map fst entries) \/
            name = "refreshAuth" \/ name = "updateAuthCallbacks")) /\
  (forall endpoint,
      entryShape (valueOfEndpoint endpoint) = Some (methodShape endpoint)) /\
  (forall name endpoint data,
      In (name, endpoint) (cfg_endpoints registry) ->
      ep_response endpoint = None ->
      request_settle (request_end endpoint (Some data)) = Returned data).
Proof.
  split; [reflexivity |]. split; [|split; [|split]].
  - eexists. split; [reflexivity |]. cbn [surface_methods].
    unfold generateMethods. cbn [config newAPIClient defineConfig].
    split; [|split; [|split]].
    + intros name. rewrite surfaceOf_keys, map_map.
      rewrite (map_ext (fun x : string * APIEndpoint =>
                          fst (let '(name0, endpoint) := x in
                               (name0, (endpoint, methodShape endpoint)))) fst)
        by (now intros [k e]).
      reflexivity.
    + unfold surfaceOf.
      rewrite getProperty_setProperty_ne by discriminate.
      apply getProperty_setProperty_eq.
    + unfold surfaceOf. apply getProperty_setProperty_eq.
    + intros name H1 H2. unfold surfaceOf.
      rewrite !getProperty_setProperty_ne by assumption.
      rewrite map_map.
      rewrite (map_ext _ (fun '(k, e) => (k, Method e (methodShape e))))
        by (now intros [k e]).
      apply (getProperty_map (fun e => Method e (methodShape e))).
  - intros entries. unfold rawCreateAPIClient. split.
    + split.
      * intros Hall.
        destruct (rawGenerateMethods_total entries Hall) as [methods ->].
        now eexists.
      * intros (members & H).
        destruct (rawGenerateMethods entries) as [methods|] eqn:Hm; [|discriminate].
        apply (rawGenerateMethods_keys entries methods Hm).
    + intros members H name.
      destruct (rawGenerateMethods entries) as [methods|] eqn:Hm; [|discriminate].
      injection H as <-. rewrite surfaceOf_keys.
      now rewrite (proj1 (rawGenerateMethods_keys entries methods Hm)).
  - apply entryShape_typed.
  - intros name endpoint data _ Hnone. unfold request_end. now rewrite Hnone.
Qed.

Lemma construction_never_fails_witness :
  request_settle (request_end ping (Some (JStr "pong"))) = Returned (JStr "pong").
Proof.
  apply (proj2 (proj2 (proj2 (proj2 (construction_never_fails 0 sampleConfig None))))
           "ping").
  - simpl. tauto.
  - reflexivity.
Defined.

(** C5 as stated fails: a registry with an entry that lacks a response
    schema is accepted, and so is, at run time, a registry with an entry
    that has no field at all, neither response schema nor method nor
    path. *)
Lemma construction_counterexample :
  In ("ping", ping) (cfg_endpoints sampleConfig) /\
  ep_response ping = None /\
  (forall e, createAPIClient 0 (defineConfig sampleConfig) None <> Threw e) /\
  (exists surface,
      createAPIClient 0 (defineConfig sampleConfig) None = Returned surface /\
      map fst (surface_methods surface) =
        ["getUser"; "createUser"; "setMotto"; "ping";
         "refreshAuth"; "updateAuthCallbacks"]) /\
  lookupField "response" [] = JUndefined /\
  lookupField "method" [] = JUndefined /\
  lookupField "path" [] = JUndefined /\
  rawCreateAPIClient [("broken", JObj [])] =
    Returned [("broken", Method (JObj []) ShapeNone);
              ("refreshAuth", RefreshAuthMember);
              ("updateAuthCallbacks", UpdateAuthCallbacksMember)].
Proof.
  split; [simpl; tauto |]. split; [reflexivity |].
  split; [discriminate |].
  split; [eexists; split; reflexivity |].
  repeat split.
Qed.

(** ** C7: query serialization *)

Lemma serialize_fold (entries : Params) (acc : URLSearchParams) :
  fold_left
    (fun sp '(key, value) =>
       if negb (nullish value)
       then searchParams_append sp key (ToString value)
       else sp)
    entries acc =
  acc ++ keptPairs (Some entries).
Proof.
  revert acc. induction entries as [|[key value] entries IH]; intros acc.
  - simpl. now rewrite app_nil_r.
  - simpl. rewrite IH. unfold keptPairs.
    destruct (nullish value); simpl; [reflexivity |].
    unfold searchParams_append. now rewrite <- app_assoc.
Qed.

Lemma isEmptyString_append (a b : string) :
  isEmptyString (a +:+ b) = isEmptyString a && isEmptyString b.
Proof. destruct a; reflexivity. Qed.

Lemma searchParams_toString_empty (sp : URLSearchParams) :
  isEmptyString (searchParams_toString sp) = true <-> sp = [].
Proof.
  destruct sp as [|[k v] sp]; [easy |].
  split; [|discriminate]. unfold searchParams_toString. simpl.
  destruct (map _ sp); rewrite !isEmptyString_append; simpl;
    rewrite ?andb_false_r; discriminate.
Qed.

Lemma kept_not_nullish (entries : Params) (key text : string) :
  In (key, text) (keptPairs (Some entries)) ->
  exists value,
    In (key, value) entries /\ nullish value = false /\ text = ToString value.
Proof.
  unfold keptPairs. intros H. apply in_map_iff in H as ([k v] & [= <- <-] & Hin).
  apply List.filter_In in Hin as [Hin Hnn].
  exists v. split; [exact Hin |]. split; [|reflexivity].
  now destruct (nullish v).
Qed.

Lemma queryOptions_searchParams (endpoint : APIEndpoint) (query : option Params) :
  opt_searchParams (queryOptions endpoint query) =
    match keptPairs query with
    | [] => None
    | kept => Some kept
    end.
Proof.
  unfold queryOptions, serializeQuery.
  destruct query as [entries|]; [|reflexivity].
  destruct entries as [|e entries]; [reflexivity |].
  change (0 <? length (e :: entries))%nat with true. cbv iota.
  rewrite serialize_fold. rewrite app_nil_l.
  destruct (isEmptyString (searchParams_toString (keptPairs (Some (e :: entries)))))
    eqn:Hempty; cbn [negb opt_searchParams].
  - apply searchParams_toString_empty in Hempty. now rewrite Hempty.
  - destruct (keptPairs (Some (e :: entries))); [discriminate | reflexivity].
Qed.

Lemma attachBody_searchParams (endpoint : APIEndpoint) (body : JSValue)
    (options options' : Options) :
  attachBody endpoint body options = Returned options' ->
  opt_searchParams options' = opt_searchParams options.
Proof.
  unfold attachBody. destruct (_ && _).
  - destruct (ep_body endpoint) as [schema|].
    + destruct (parse schema body); [|discriminate]. now intros [= <-].
    + now intros [= <-].
  - now intros [= <-].
Qed.

(** C7. The search parameters [request] attaches are exactly the entries of
    the query object whose value is neither [undefined] nor [null], in
    order, each value in its string form; they print as [key=value] pairs
    joined by [&]; that text is empty exactly when no pair is left, and
    then [options.searchParams] is not set at all. The options [request]
    hands to ky carry the same search parameters. *)
Theorem query_serialization (endpoint : APIEndpoint) (query : option Params) :
  opt_searchParams (queryOptions endpoint query) =
    (if isEmptyString (searchParams_toString (keptPairs query))
     then None else Some (keptPairs query)) /\
  searchParams_toString (keptPairs query) =
    joinWith "&"
      (map (fun '(k, v) => formEncode k +:+ "=" +:+ formEncode v) (keptPairs query)) /\
  (forall entries key text,
      query = Some entries -> In (key, text) (keptPairs query) ->
      exists value,
        In (key, value) entries /\ nullish value = false /\ text = ToString value) /\
  (forall entries key value,
      query = Some entries -> In (key, value) entries -> nullish value = false ->
      In (key, ToString value) (keptPairs query)) /\
  (forall cl params body options,
      snd (request_begin cl endpoint params query body) = Returned options ->
      opt_searchParams options = opt_searchParams (queryOptions endpoint query)).
Proof.
  split.
  { rewrite queryOptions_searchParams.
    destruct (keptPairs query) as [|kv kept] eqn:E; [reflexivity |].
    destruct (isEmptyString _) eqn:Hempty; [|reflexivity].
    apply searchParams_toString_empty in Hempty. discriminate. }
  split; [reflexivity |]. split.
  { intros entries key text ->. apply kept_not_nullish. }
  split.
  { intros entries key value -> Hin Hnn. unfold keptPairs.
    apply in_map_iff. exists (key, value). split; [reflexivity |].
    apply List.filter_In. split; [exact Hin | now rewrite Hnn]. }
  intros cl params body options H. simpl in H.
  exact (attachBody_searchParams _ _ _ _ H).
Qed.

Lemma query_serialization_witness :
  opt_searchParams
    (queryOptions getUser
       (Some [("page", JNum 1); ("q", JNull); ("limit", JNum 10);
              ("cursor", JUndefined)])) =
    Some [("page", "1"); ("limit", "10")] /\
  opt_searchParams
    (queryOptions getUser (Some [("q", JNull); ("cursor", JUndefined)])) = None /\
  In ("limit", "10")
     (keptPairs (Some [("page", JNum 1); ("q", JNull); ("limit", JNum 10);
                       ("cursor", JUndefined)])).
Proof.
  split; [|split].
  - exact (proj1 (query_serialization getUser
             (Some [("page", JNum 1); ("q", JNull); ("limit", JNum 10);
                    ("cursor", JUndefined)]))).
  - exact (proj1 (query_serialization getUser
             (Some [("q", JNull); ("cursor", JUndefined)]))).
  - apply (proj1 (proj2 (proj2 (proj2 (query_serialization getUser
             (Some [("page", JNum 1); ("q", JNull); ("limit", JNum 10);
                    ("cursor", JUndefined)])))))
             _ "limit" (JNum 10) eq_refl).
    + simpl. tauto.
    + reflexivity.
Defined.

(** ** C3 and C9: validation of the response and of the body *)

Lemma receive_ok (w : World) (r : nat) (c : Call) (status : Z)
    (message : string) (json : option JSValue) :
  calls w !! r = Some c -> c_state c = InFlight -> responseOk status = true ->
  calls (step w (Receive r (Response status message json))) !! r =
    Some (advance c (c_authorization c) (c_retryCount c)
            (Settled (request_settle (request_end (c_endpoint c) json)))).
Proof.
  intros Hr Hst Hok. simpl. unfold receive. rewrite Hr, Hst, Hok.
  unfold settle. simpl. apply list_lookup_insert_eq.
  exact (lookup_lt_Some _ _ _ Hr).
Qed.

(** C3. For an endpoint with a response schema and a 2xx response whose
    body parses to [data]: when the schema rejects [data] the promise of
    [request] is rejected (with the [APIError] the catch block builds, and
    so not fulfilled with [data] or anything else); when the schema accepts
    it, the promise is fulfilled with the value the schema returns. The
    call in the world settles with exactly that result. *)
Theorem response_validation
    (endpoint : APIEndpoint) (schema : Schema) (data : JSValue) :
  ep_response endpoint = Some schema ->
  (forall issues, parse schema data = Invalid issues ->
      request_settle (request_end endpoint (Some data)) =
        Threw (APIError (JStr issues) 0 None) /\
      forall v, request_settle (request_end endpoint (Some data)) <> Returned v) /\
  (forall v, parse schema data = Parsed v ->
      request_settle (request_end endpoint (Some data)) = Returned v) /\
  (forall w r c status message,
      calls w !! r = Some c -> c_state c = InFlight -> c_endpoint c = endpoint ->
      responseOk status = true ->
      calls (step w (Receive r (Response status message (Some data)))) !! r =
        Some (advance c (c_authorization c) (c_retryCount c)
                (Settled (request_settle (request_end endpoint (Some data)))))).
Proof.
  intros Hschema. split; [|split].
  - intros issues Hbad. unfold request_end. rewrite Hschema, Hbad.
    split; [reflexivity | discriminate].
  - intros v Hgood. unfold request_end. now rewrite Hschema, Hgood.
  - intros w r c status message Hr Hst <- Hok. now apply receive_ok.
Qed.

Lemma response_validation_witness :
  request_settle (request_end getUser (Some (JStr "not an object"))) =
    Threw (APIError (JStr "Expected object") 0 None) /\
  request_settle (request_end getUser (Some (JObj [("id", JStr "42")]))) =
    Returned (JObj [("id", JStr "42")]).
Proof.
  split.
  - apply (proj1 (response_validation getUser objectSchema
                    (JStr "not an object") eq_refl)).
    reflexivity.
  - apply (proj1 (proj2 (response_validation getUser objectSchema
                           (JObj [("id", JStr "42")]) eq_refl))).
    reflexivity.
Defined.

(** C9. A body the body schema rejects and a response the response schema
    rejects both raise a [ZodError] inside the try block of [request]; the
    catch block turns it into an [APIError] with status 0. So the call
    [request] makes with such a body is rejected with that error, and so is
    the call whose 2xx response has such a body; it is the very error a
    call is rejected with after a transport failure with the same message
    (here a timeout, which ky does not retry): nothing in the rejection
    marks it as a validation failure. *)
Theorem validation_failure_has_status_0
    (w : World) (endpoint : APIEndpoint) (schema : Schema) (value : JSValue)
    (issues : string) :
  reachable w -> parse schema value = Invalid issues ->
  (forall this cl params query,
      clients w !! this = Some cl ->
      ep_body endpoint = Some schema -> truthy value = true ->
      isGET (ep_method endpoint) = false ->
      exists c,
        calls (step w (Request this endpoint params query value))
          !! length (calls w) = Some c /\
        c_state c = Settled (Threw (APIError (JStr issues) 0 None))) /\
  (forall r c status message,
      calls w !! r = Some c -> c_state c = InFlight -> c_endpoint c = endpoint ->
      ep_response endpoint = Some schema -> responseOk status = true ->
      exists c',
        calls (step w (Receive r (Response status message (Some value)))) !! r
          = Some c' /\
        c_state c' = Settled (Threw (APIError (JStr issues) 0 None))) /\
  (forall r c,
      calls w !! r = Some c -> c_state c = InFlight ->
      exists c',
        calls (step w (Receive r (Failure true issues))) !! r = Some c' /\
        c_state c' = Settled (Threw (APIError (JStr issues) 0 None))) /\
  statusOf (APIError (JStr issues) 0 None) = Some 0%Z /\
  (forall message, APIError (JStr issues) 0 None <> AuthError message).
Proof.
  intros Hreach Hbad. split; [|split; [|split; [|split]]].
  - intros this cl params query Hcl Hbody Htruthy Hget.
    cbn [step]. unfold request, request_begin, attachBody.
    rewrite Hcl, Htruthy, Hget, Hbody, Hbad. cbn [andb negb].
    eexists. split; [cbn [calls addCall]; now apply list_lookup_middle |].
    reflexivity.
  - intros r c status message Hr Hst Hep Hresp Hok.
    eexists. split; [exact (receive_ok w r c status message _ Hr Hst Hok) |].
    cbn [c_state advance]. unfold request_end. rewrite Hep, Hresp, Hbad.
    reflexivity.
  - intros r c Hr Hst.
    destruct (call_hooks w r c Hreach Hr) as (_ & Hretry & _).
    cbn [step]. unfold receive, kyFailed. rewrite Hr, Hst, Hretry.
    rewrite (bool_decide_eq_true_2 _ (all_methods_retriable _)).
    cbn [isTimeout]. rewrite orb_true_r. cbn [orb calls setCall].
    eexists. split; [apply list_lookup_insert_eq, (lookup_lt_Some _ _ _ Hr) |].
    reflexivity.
  - reflexivity.
  - discriminate.
Qed.

Lemma validation_failure_has_status_0_witness :
  (exists c,
      calls (step twoInFlight
               (Request 0 createUser None None (JObj [("name", JNum 123)])))
        !! 2%nat = Some c /\
      c_state c = Settled (Threw (APIError (JStr "Expected string at name") 0 None))) /\
  (exists c,
      calls (step twoInFlight (Receive 0 (Response 200 "" (Some (JNum 5)))))
        !! 0%nat = Some c /\
      c_state c = Settled (Threw (APIError (JStr "Expected object") 0 None))).
Proof.
  assert (Hreach : reachable twoInFlight) by now eexists.
  split.
  - apply (proj1 (validation_failure_has_status_0 twoInFlight createUser nameSchema
                    (JObj [("name", JNum 123)]) "Expected string at name"
                    Hreach eq_refl)
             0%nat (newAPIClient 0 sampleConfig (Some sampleCallbacks)) None None);
      reflexivity.
  - refine (proj1 (proj2 (validation_failure_has_status_0 twoInFlight getUser
                            objectSchema (JNum 5) "Expected object" Hreach eq_refl))
              0%nat _ 200%Z "" _ _ _ _ _); reflexivity.
Defined.

(** ** C8: validation of the body before anything is sent *)

Lemma quiet_refl (r' : nat) (w : World) : quiet r' w w.
Proof. split; [|split]; intros; [reflexivity | assumption | reflexivity]. Qed.

Lemma quiet_trans (r' : nat) (w1 w2 w3 : World) :
  quiet r' w1 w2 -> quiet r' w2 w3 -> quiet r' w1 w3.
Proof.
  intros (C1 & L1 & N1) (C2 & L2 & N2). split; [|split].
  - intros r Hne. now rewrite C2, C1.
  - intros r H. now apply L1, L2.
  - congruence.
Qed.

Lemma quiet_setCall (r' : nat) (w : World) (c : Call) :
  quiet r' w (setCall w r' c).
Proof.
  split; [|split; [intros r H; exact H | apply length_insert]].
  intros r Hne. simpl. apply list_lookup_insert_ne. congruence.
Qed.

Lemma quiet_emit (r' : nat) (w : World) (e : Effect) :
  (forall r, e <> Fetched r) -> quiet r' w (emit w e).
Proof.
  intros He. split; [reflexivity |]. split; [|reflexivity].
  intros r H. simpl in H. apply in_app_or in H as [H|[H|[]]]; [exact H |].
  now destruct (He r).
Qed.

Lemma quiet_refreshTokens (r' : nat) (w : World) (this : nat) (cl : APIClient) :
  quiet r' w (fst (refreshTokens w this cl)).
Proof.
  unfold refreshTokens.
  destruct (authCallbacks cl) as [cbs|];
    [destruct (isRefreshing cl), (refreshPromise cl), (onRefreshToken cbs) |];
    simpl; (split; [reflexivity |]); (split; [|reflexivity]);
    intros r H; simpl in H; try exact H.
  all: apply in_app_or in H as [H|[H|[]]]; [exact H | discriminate].
Qed.

Lemma quiet_authFailed (w : World) (r' : nat) (c : Call) (n : nat) :
  quiet r' w (authFailed w r' c n).
Proof.
  destruct (authFailed_effects w r' c n) as (_ & _ & A3 & A4).
  split; [|split].
  3: rewrite A3; apply length_insert.
  - intros r Hne. rewrite A3. apply list_lookup_insert_ne. congruence.
  - intros r H. rewrite A4 in H. apply in_app_or in H as [H|H]; [exact H |].
    destruct (clients w !! ky_hooks (c_ky c)) as [cl|];
      [destruct (authCallbacks cl) as [cbs|];
         [destruct (onAuthError cbs) |] |];
      simpl in H; try contradiction.
    destruct H as [H|[]]. discriminate.
Qed.

Lemma quiet_beforeRetry (w : World) (r' : nat) (c : Call) (error : Thrown)
    (n : nat) :
  quiet r' w (beforeRetry w r' c error n).
Proof.
  unfold beforeRetry. destruct error; try apply quiet_setCall.
  destruct (status =? 401)%Z; [|apply quiet_setCall].
  destruct (clients w !! ky_hooks (c_ky c)) as [cl|]; [|apply quiet_refl].
  destruct (_ && _); [|apply quiet_authFailed].
  pose proof (quiet_refreshTokens r' w (ky_hooks (c_ky c)) cl) as Hq.
  destruct (refreshTokens w (ky_hooks (c_ky c)) cl) as [w1 p]. simpl in Hq.
  eapply quiet_trans; [exact Hq |].
  eapply quiet_trans; [apply quiet_setCall |].
  apply quiet_emit. discriminate.
Qed.

Lemma quiet_kyFailed (w : World) (r' : nat) (c : Call) (error : Thrown) :
  quiet r' w (kyFailed w r' c error).
Proof.
  unfold kyFailed, settle. destruct (bool_decide _); [|apply quiet_setCall].
  destruct (_ || _); [apply quiet_setCall | apply quiet_beforeRetry].
Qed.

Lemma quiet_receive (w : World) (r' : nat) (res : NetResult) :
  quiet r' w (receive w r' res).
Proof.
  unfold receive. destruct (calls w !! r') as [c|]; [|apply quiet_refl].
  destruct (c_state c); try apply quiet_refl.
  destruct res as [status message json|timeout message].
  - destruct (responseOk status); [apply quiet_setCall | apply quiet_kyFailed].
  - apply quiet_kyFailed.
Qed.

Lemma quiet_resume (w : World) (r' : nat) (tok : TokensResult) :
  quiet r' w (resume w r' tok).
Proof.
  unfold resume. destruct (calls w !! r') as [c|]; [|apply quiet_refl].
  destruct (c_state c); try apply quiet_refl.
  destruct (promises w !! p) as [cell|]; [|apply quiet_refl].
  destruct (p_state cell); [apply quiet_refl | |apply quiet_authFailed].
  destruct tok; [apply quiet_setCall | apply quiet_authFailed].
Qed.

(** A fetch is logged for a call only when that call is [Starting]. *)
Lemma send_frame (w : World) (r' : nat) (tok : TokensResult) :
  (forall r, r <> r' -> calls (send w r' tok) !! r = calls w !! r) /\
  (forall r, In (Fetched r) (log (send w r' tok)) ->
             In (Fetched r) (log w) \/
             (r = r' /\ exists c, calls w !! r' = Some c /\ c_state c = Starting)) /\
  length (calls (send w r' tok)) = length (calls w).
Proof.
  assert (Hq : forall w', quiet r' w w' ->
    (forall r, r <> r' -> calls w' !! r = calls w !! r) /\
    (forall r, In (Fetched r) (log w') ->
       In (Fetched r) (log w) \/
       (r = r' /\ exists c, calls w !! r' = Some c /\ c_state c = Starting)) /\
    length (calls w') = length (calls w)).
  { intros w' (C & L & N).
    split; [exact C | split; [intros r H; left; now apply L | exact N]]. }
  unfold send. destruct (calls w !! r') as [c|] eqn:Hr; [|apply Hq, quiet_refl].
  destruct (c_state c) eqn:Hst; try apply Hq, quiet_refl.
  destruct (clients w !! ky_hooks (c_ky c)) as [cl|]; [|apply Hq, quiet_refl].
  assert (Hgo : forall a,
    (forall r, r <> r' ->
       calls (emit (setCall w r' (advance c a (c_retryCount c) InFlight))
                   (Fetched r')) !! r = calls w !! r) /\
    (forall r,
       In (Fetched r)
          (log (emit (setCall w r' (advance c a (c_retryCount c) InFlight))
                     (Fetched r'))) ->
       In (Fetched r) (log w) \/
       (r = r' /\ exists c0, Some c = Some c0 /\ c_state c0 = Starting)) /\
    length (calls (emit (setCall w r' (advance c a (c_retryCount c) InFlight))
                        (Fetched r'))) = length (calls w)).
  { intros a. split; [|split].
    - intros r Hne. simpl. apply list_lookup_insert_ne. congruence.
    - intros r H. simpl in H. apply in_app_or in H as [H|[[= <-]|[]]];
        [now left | right]. split; [reflexivity | now exists c].
    - simpl. apply length_insert. }
  destruct (authCallbacks cl), tok; try apply Hgo.
  apply Hq, quiet_kyFailed.
Qed.

(** A settled call stays as it is, and nothing is fetched for it. *)
Lemma settled_step (w : World) (r : nat) (c : Call) (o : Outcome JSValue)
    (ev : Event) :
  calls w !! r = Some c -> c_state c = Settled o ->
  ~ In (Fetched r) (log w) ->
  calls (step w ev) !! r = Some c /\ ~ In (Fetched r) (log (step w ev)).
Proof.
  intros Hr Hst Hlog.
  assert (Hquiet : forall r' w',
    (r' = r -> w' = w) -> quiet r' w w' ->
    calls w' !! r = Some c /\ ~ In (Fetched r) (log w')).
  { intros r' w' Hsame (C & L & _). destruct (decide (r' = r)) as [E|Hne].
    - rewrite (Hsame E). easy.
    - split; [rewrite C by congruence; exact Hr |].
      intros H. apply Hlog. now apply L. }
  destruct ev; simpl.
  - easy.
  - destruct (clients w !! this); easy.
  - unfold refreshAuth. destruct (clients w !! this) as [cl|]; [|easy].
    destruct (authCallbacks cl); [|easy].
    apply (Hquiet (S r)); [lia | apply quiet_refreshTokens].
  - unfold request. destruct (clients w !! this) as [cl|]; [|easy].
    destruct (request_begin cl endpoint params query body) as [[ky path] prepared].
    destruct prepared; [destruct (kyRejectsInput ky path) |]; simpl;
      (split; [now apply lookup_app_l_Some | exact Hlog]).
  - destruct (send_frame w call tok) as (C & L & _).
    destruct (decide (call = r)) as [->|Hne].
    + unfold send. rewrite Hr, Hst. easy.
    + split; [rewrite C by congruence; exact Hr |].
      intros H. apply L in H as [H|[E _]]; [now apply Hlog | congruence].
  - apply (Hquiet call); [|apply quiet_receive].
    intros ->. unfold receive. now rewrite Hr, Hst.
  - unfold settleRefresh. destruct (promises w !! promise) as [cell|]; [|easy].
    destruct (p_state cell); try easy. simpl.
    destruct (clients w !! p_owner cell); easy.
  - apply (Hquiet call); [|apply quiet_resume].
    intros ->. unfold resume. now rewrite Hr, Hst.
Qed.

Lemma settled_run (evs : list Event) (w : World) (r : nat) (c : Call)
    (o : Outcome JSValue) :
  calls w !! r = Some c -> c_state c = Settled o ->
  ~ In (Fetched r) (log w) ->
  calls (run w evs) !! r = Some c /\ ~ In (Fetched r) (log (run w evs)).
Proof.
  revert w. induction evs as [|ev evs IH]; intros w Hr Hst Hlog; [easy |].
  simpl. destruct (settled_step w r c o ev Hr Hst Hlog) as [Hr' Hlog'].
  now apply IH.
Qed.

Lemma fetched_bound_step (w : World) (ev : Event) :
  (forall r, In (Fetched r) (log w) -> (r < length (calls w))%nat) ->
  forall r, In (Fetched r) (log (step w ev)) -> (r < length (calls (step w ev)))%nat.
Proof.
  intros HP.
  assert (Hquiet : forall r' w', quiet r' w w' ->
    forall r, In (Fetched r) (log w') -> (r < length (calls w'))%nat).
  { intros r' w' (_ & L & N) r H. rewrite N. now apply HP, L. }
  destruct ev; simpl.
  - exact HP.
  - destruct (clients w !! this); exact HP.
  - unfold refreshAuth. destruct (clients w !! this) as [cl|]; [|exact HP].
    destruct (authCallbacks cl); [|exact HP].
    apply (Hquiet 0%nat), quiet_refreshTokens.
  - unfold request. destruct (clients w !! this) as [cl|]; [|exact HP].
    destruct (request_begin cl endpoint params query body) as [[ky path] prepared].
    destruct prepared; [destruct (kyRejectsInput ky path) |]; simpl;
      intros r H; rewrite length_app; specialize (HP r H); lia.
  - destruct (send_frame w call tok) as (_ & L & N). intros r H. rewrite N.
    apply L in H as [H|(-> & c & Hc & _)]; [now apply HP |].
    exact (lookup_lt_Some _ _ _ Hc).
  - apply (Hquiet call), quiet_receive.
  - unfold settleRefresh. destruct (promises w !! promise) as [cell|]; [|exact HP].
    destruct (p_state cell); try exact HP. simpl.
    destruct (clients w !! p_owner cell); exact HP.
  - apply (Hquiet call), quiet_resume.
Qed.

Lemma fetched_bound (w : World) (r : nat) :
  reachable w -> In (Fetched r) (log w) -> (r < length (calls w))%nat.
Proof.
  intros [evs ->]. revert r.
  assert (H : forall evs w0,
    (forall r, In (Fetched r) (log w0) -> (r < length (calls w0))%nat) ->
    forall r, In (Fetched r) (log (run w0 evs)) ->
              (r < length (calls (run w0 evs)))%nat).
  { clear evs. induction evs as [|ev evs IH]; intros w0 HP; [exact HP |].
    simpl. apply IH. now apply fetched_bound_step. }
  apply H. intros r [].
Qed.

Lemma queryOptions_json (endpoint : APIEndpoint) (query : option Params) :
  opt_json (queryOptions endpoint query) = None.
Proof.
  unfold queryOptions, serializeQuery. destruct query as [entries|]; [|reflexivity].
  destruct (0 <? length entries)%nat; [|reflexivity].
  now destruct (negb _).
Qed.

(** C8, as the code has it. For an endpoint whose method is not GET and a
    body that is truthy: when the endpoint has a body schema and the schema
    rejects the body, [request] throws before it calls ky; the call is
    rejected with the [APIError] of the catch block, nothing is logged by
    it, and whatever happens afterwards no request is ever fetched for
    that call. When the schema accepts the body, the value it returns is
    what goes into [options.json]; without a body schema the body itself
    goes there. A falsy body is neither validated nor sent: whatever the
    endpoint's body schema makes of it, the try block goes on with the
    options of the query block, the call [request] makes has no
    [options.json], and it is ready to be sent unless ky refuses its
    path. *)
Theorem body_validation (endpoint : APIEndpoint) (body : JSValue) :
  isGET (ep_method endpoint) = false ->
  (truthy body = true ->
   (forall schema issues,
       ep_body endpoint = Some schema -> parse schema body = Invalid issues ->
       forall w this cl params query,
         reachable w -> clients w !! this = Some cl ->
         snd (request_begin cl endpoint params query body) = Threw (ZodError issues) /\
         log (step w (Request this endpoint params query body)) = log w /\
         forall evs,
           (exists c,
               calls (run (step w (Request this endpoint params query body)) evs)
                 !! length (calls w) = Some c /\
               c_state c = Settled (Threw (APIError (JStr issues) 0 None))) /\
           ~ In (Fetched (length (calls w)))
                (log (run (step w (Request this endpoint params query body)) evs))) /\
   (forall schema v cl params query,
       ep_body endpoint = Some schema -> parse schema body = Parsed v ->
       snd (request_begin cl endpoint params query body) =
         Returned (withJson (queryOptions endpoint query) v)) /\
   (forall cl params query,
       ep_body endpoint = None ->
       snd (request_begin cl endpoint params query body) =
         Returned (withJson (queryOptions endpoint query) body))) /\
  (truthy body = false ->
   forall w this cl params query,
     clients w !! this = Some cl ->
     snd (request_begin cl endpoint params query body) =
       Returned (queryOptions endpoint query) /\
     exists c,
       calls (step w (Request this endpoint params query body)) !! length (calls w)
         = Some c /\
       c_options c = queryOptions endpoint query /\
       opt_json (c_options c) = None /\
       (kyRejectsInput (getClientForEndpoint cl endpoint)
          (buildPath (ep_path endpoint) params) = false ->
        c_state c = Starting)).
Proof.
  intros Hget. split; [intros Htruthy; split; [|split] |].
  - intros schema issues Hbody Hbad w this cl params query Hreach Hcl.
    assert (Hbegin : attachBody endpoint body (queryOptions endpoint query) =
                     Threw (ZodError issues)).
    { unfold attachBody. now rewrite Htruthy, Hget, Hbody, Hbad. }
    split; [exact Hbegin |].
    simpl. unfold request, request_begin. rewrite Hcl, Hbegin.
    split; [reflexivity |]. intros evs.
    set (c := {| c_client := this; c_endpoint := endpoint;
                 c_ky := getClientForEndpoint cl endpoint;
                 c_path := buildPath (ep_path endpoint) params;
                 c_options := queryOptions endpoint query;
                 c_authorization := None; c_retryCount := 0;
                 c_state := Settled (request_settle (Threw (ZodError issues))) |}).
    destruct (settled_run evs (addCall w c) (length (calls w)) c
                (request_settle (Threw (ZodError issues)))) as [Hc Hlog].
    + simpl. now rewrite list_lookup_middle.
    + reflexivity.
    + simpl. intros H. apply (fetched_bound w _ Hreach) in H. lia.
    + split; [now exists c | exact Hlog].
  - intros schema v cl params query Hbody Hgood. simpl. unfold attachBody.
    now rewrite Htruthy, Hget, Hbody, Hgood.
  - intros cl params query Hnone. simpl. unfold attachBody.
    now rewrite Htruthy, Hget, Hnone.
  - intros Hfalsy w this cl params query Hcl.
    assert (Hbegin : attachBody endpoint body (queryOptions endpoint query) =
                     Returned (queryOptions endpoint query)).
    { unfold attachBody. now rewrite Hfalsy. }
    split; [exact Hbegin |].
    cbn [step]. unfold request, request_begin. rewrite Hcl, Hbegin.
    destruct (kyRejectsInput _ _) eqn:Hrej;
      (eexists; split; [cbn [calls addCall]; now apply list_lookup_middle |]);
      cbn [c_options c_state];
      (split; [reflexivity |]); (split; [apply queryOptions_json |]);
      [discriminate | reflexivity].
Qed.

Lemma body_validation_witness :
  let w := run initial [Construct sampleConfig (Some sampleCallbacks)] in
  let w' := step w (Request 0 createUser None None (JObj [("name", JNum 123)])) in
  log w' = log w /\
  ~ In (Fetched 0) (log (run w' [Send 0 (token "t");
                                 Receive 0 (Response 200 "" None)])) /\
  snd (request_begin (newAPIClient 0 sampleConfig (Some sampleCallbacks))
         createUser None None (JObj [("name", JStr "Ann"); ("extra", JNum 1)])) =
    Returned (withJson (queryOptions createUser None)
                (JObj [("name", JStr "Ann")])) /\
  snd (request_begin (newAPIClient 0 sampleConfig (Some sampleCallbacks))
         setMotto None None (JStr "")) =
    Returned (queryOptions setMotto None).
Proof.
  assert (Ht : forall fields, truthy (JObj fields) = true) by reflexivity.
  split; [|split; [|split]].
  - apply (proj1 (proj1 (body_validation createUser (JObj [("name", JNum 123)])
                           eq_refl) (Ht _))
             nameSchema "Expected string at name" eq_refl eq_refl
             (run initial [Construct sampleConfig (Some sampleCallbacks)]) 0%nat
             (newAPIClient 0 sampleConfig (Some sampleCallbacks)) None None).
    + eexists. reflexivity.
    + reflexivity.
  - apply (proj1 (proj1 (body_validation createUser (JObj [("name", JNum 123)])
                           eq_refl) (Ht _))
             nameSchema "Expected string at name" eq_refl eq_refl
             (run initial [Construct sampleConfig (Some sampleCallbacks)]) 0%nat
             (newAPIClient 0 sampleConfig (Some sampleCallbacks)) None None).
    + eexists. reflexivity.
    + reflexivity.
  - apply (proj1 (proj2 (proj1 (body_validation createUser
                                  (JObj [("name", JStr "Ann"); ("extra", JNum 1)])
                                  eq_refl) (Ht _)))
             nameSchema); reflexivity.
  - apply (proj2 (body_validation setMotto (JStr "") eq_refl) eq_refl
             (run initial [Construct sampleConfig (Some sampleCallbacks)]) 0%nat
             (newAPIClient 0 sampleConfig (Some sampleCallbacks)) None None).
    reflexivity.
Defined.

(** C8 as stated fails: a supplied body that is falsy (here the empty
    string, which the schema rejects) is not validated; the request is
    fetched, without a body. *)
Lemma falsy_body_counterexample :
  let w := run initial
             [Construct sampleConfig None;
              Request 0 setMotto None None (JStr "");
              Send 0 (Tokens None)] in
  ep_body setMotto = Some nonEmptyStringSchema /\
  isGET (ep_method setMotto) = false /\
  parse nonEmptyStringSchema (JStr "") = Invalid "Expected a non-empty string" /\
  (exists c, calls w !! 0%nat = Some c /\ c_state c = InFlight /\
             opt_json (c_options c) = None) /\
  log w = [Fetched 0].
Proof.
  repeat split. eexists. repeat split.
Qed.

(** * Further properties *)

(** ** Parameter values in the path *)

Lemma length_append (a b : string) :
  String.length (a +:+ b) = (String.length a + String.length b)%nat.
Proof.
  induction a as [|x a IH]; [reflexivity |].
  rewrite append_cons. simpl. now rewrite IH.
Qed.

Lemma countChar_append (c : ascii) (a b : string) :
  countChar c (a +:+ b) = (countChar c a + countChar c b)%nat.
Proof.
  induction a as [|x a IH]; [reflexivity |].
  rewrite append_cons. simpl. rewrite IH. lia.
Qed.

Lemma escaped_no_delimiter (d c : ascii) :
  charIn d urlDelimiters = true ->
  countChar d (if uriUnreserved c then String c "" else percentEncode c) = 0%nat.
Proof.
  intros Hd.
  assert (Hcases : d = ":"%char \/ d = "/"%char \/ d = "?"%char \/ d = "#"%char \/
                   d = "["%char \/ d = "]"%char \/ d = "@"%char \/ d = "$"%char \/
                   d = "&"%char \/ d = "+"%char \/ d = ","%char \/ d = ";"%char \/
                   d = "="%char \/ d = " "%char).
  { unfold urlDelimiters in Hd. simpl in Hd.
    repeat (apply orb_prop in Hd as [Hd|Hd];
            [apply Ascii.eqb_eq in Hd; tauto |]).
    discriminate. }
  destruct c as [[] [] [] [] [] [] [] []];
    repeat (destruct Hcases as [->|Hcases]; [vm_compute; reflexivity |]);
    subst d; vm_compute; reflexivity.
Qed.

Lemma encodeURIComponent_no_delimiter (d : ascii) (s : string) :
  charIn d urlDelimiters = true -> countChar d (encodeURIComponent s) = 0%nat.
Proof.
  intros Hd. induction s as [|c s IH]; [reflexivity |].
  simpl. rewrite countChar_append, IH, escaped_no_delimiter by exact Hd.
  reflexivity.
Qed.

Lemma replace_count (d : ascii) (s pat repl : string) :
  noDollar repl = true -> countChar d repl = 0%nat ->
  (countChar d (replace s pat repl) <= countChar d s)%nat.
Proof.
  intros Hnd H0. unfold replace.
  destruct (findFirst pat s) as [[before after]|] eqn:E; [|lia].
  apply findFirst_sound in E as [-> _].
  rewrite getSubstitution_literal by exact Hnd.
  rewrite !countChar_append, H0. lia.
Qed.

(** X1. Whatever the parameters map holds, [buildPath] never adds a URL
    delimiter (a colon, slash, question mark, hash, bracket, at sign,
    dollar, ampersand, plus, comma, semicolon, equals sign or space) to the
    path: the path it returns has at most as many occurrences of each of
    them as the template. A value cannot add a path segment, a query or a
    fragment. *)
Theorem buildPath_adds_no_delimiter
    (d : ascii) (path : string) (params : option Params) :
  charIn d urlDelimiters = true ->
  (countChar d (buildPath path params) <= countChar d path)%nat.
Proof.
  intros Hd. destruct params as [entries|]; [|simpl; lia].
  revert path. induction entries as [|[key value] entries IH]; intros path.
  - simpl. lia.
  - change ((key, value) :: entries) with ([(key, value)] ++ entries).
    rewrite buildPath_app. etransitivity; [apply IH |].
    unfold buildPath. simpl.
    apply replace_count;
      [apply noDollar_encodeURIComponent
      | now apply encodeURIComponent_no_delimiter].
Qed.

Lemma buildPath_adds_no_delimiter_witness :
  (countChar "/" (buildPath "users/:id/posts"
                    (Some [("id", JStr "../admin?x=1#top")])) <= 2)%nat.
Proof.
  apply (buildPath_adds_no_delimiter "/" "users/:id/posts"
           (Some [("id", JStr "../admin?x=1#top")])).
  reflexivity.
Defined.

Lemma encodeURIComponent_unreserved (s : string) :
  allUnreserved s = true -> encodeURIComponent s = s.
Proof.
  induction s as [|c s IH]; [reflexivity |].
  simpl. intros H. apply andb_prop in H as [Hc Hs].
  rewrite Hc, IH by exact Hs. reflexivity.
Qed.

Lemma digits_unreserved (d : Decimal.uint) :
  allUnreserved (NilEmpty.string_of_uint d) = true.
Proof. induction d; simpl; [reflexivity | exact IHd ..]. Qed.

Lemma number_unreserved (n : Z) : allUnreserved (ToString (JNum n)) = true.
Proof.
  simpl. unfold NilZero.string_of_int.
  destruct (Z.to_int n) as [d|d]; unfold NilZero.string_of_uint;
    destruct d; try reflexivity;
    try (apply (digits_unreserved (_ _)));
    simpl; apply (digits_unreserved _).
Qed.

(** X2. A value whose string form consists of unreserved characters only
    (letters, digits and [-_.!~*'()]) is put into the path as it is, in
    place of the first occurrence of its placeholder; this is the case of
    every safe integer, whose string form is its decimal numeral. *)
Theorem unreserved_value_inserted_verbatim
    (path field before after : string) (value : JSValue) :
  firstAt (placeholder field) path before after ->
  (safeValue value = true -> allUnreserved (ToString value) = true ->
   buildPath path (Some [(field, value)]) = before +:+ ToString value +:+ after) /\
  (forall n : Z,
      safeInteger n = true ->
      buildPath path (Some [(field, JNum n)]) =
        before +:+ NilZero.string_of_int (Z.to_int n) +:+ after).
Proof.
  intros Hfirst.
  assert (Hgo : forall v, allUnreserved (ToString v) = true ->
    buildPath path (Some [(field, v)]) = before +:+ ToString v +:+ after).
  { intros v Hv. unfold buildPath. simpl. fold (placeholder field).
    rewrite (replace_first _ _ _ _ _ Hfirst (noDollar_encodeURIComponent _)).
    now rewrite encodeURIComponent_unreserved. }
  split; [intros _; apply Hgo |]. intros n _. apply (Hgo (JNum n)), number_unreserved.
Qed.

Lemma unreserved_value_inserted_verbatim_witness :
  buildPath "orders/:orderId/lines" (Some [("orderId", JNum (-17))]) =
    "orders/-17/lines" /\
  buildPath "users/:id" (Some [("id", JStr "ann_42")]) = "users/ann_42".
Proof.
  split.
  - refine (proj2 (unreserved_value_inserted_verbatim
                     "orders/:orderId/lines" "orderId" "orders/" "/lines" JNull _)
              (-17)%Z _).
    + apply findFirst_sound. reflexivity.
    + reflexivity.
  - refine (proj1 (unreserved_value_inserted_verbatim
                     "users/:id" "id" "users/" "" (JStr "ann_42") _) _ _).
    + apply findFirst_sound. reflexivity.
    + reflexivity.
    + reflexivity.
Defined.

Lemma unescape_percentEncode (c : ascii) :
  match percentEncode c with
  | String p (String hi (String lo "")) =>
      p = "%"%char /\ unescapeByte hi lo = c
  | _ => False
  end.
Proof. destruct c as [[] [] [] [] [] [] [] []]; vm_compute; split; reflexivity. Qed.

Lemma percent_reserved : uriUnreserved "%" = false.
Proof. reflexivity. Qed.

Lemma encodeURIComponent_cons (c : ascii) (s : string) :
  encodeURIComponent (String c s) =
    if uriUnreserved c then String c (encodeURIComponent s)
    else match percentEncode c with
         | String p (String hi (String lo _)) =>
             String p (String hi (String lo (encodeURIComponent s)))
         | _ => encodeURIComponent s
         end.
Proof. simpl. destruct (uriUnreserved c); reflexivity. Qed.

Lemma encodeURIComponent_inj (s1 s2 : string) :
  encodeURIComponent s1 = encodeURIComponent s2 -> s1 = s2.
Proof.
  revert s2. induction s1 as [|c1 s1 IH]; intros [|c2 s2].
  - reflexivity.
  - rewrite encodeURIComponent_cons. simpl.
    destruct (uriUnreserved c2); discriminate.
  - rewrite encodeURIComponent_cons. simpl.
    destruct (uriUnreserved c1); discriminate.
  - rewrite !encodeURIComponent_cons.
    pose proof (unescape_percentEncode c1) as U1.
    pose proof (unescape_percentEncode c2) as U2.
    destruct (percentEncode c1) as [|p1 [|hi1 [|lo1 [|]]]]; try contradiction.
    destruct (percentEncode c2) as [|p2 [|hi2 [|lo2 [|]]]]; try contradiction.
    destruct U1 as [-> U1], U2 as [-> U2].
    destruct (uriUnreserved c1) eqn:E1, (uriUnreserved c2) eqn:E2; intros H.
    + injection H as -> H. now rewrite (IH _ H).
    + injection H as -> _. rewrite percent_reserved in E1. discriminate.
    + injection H as <- _. rewrite percent_reserved in E2. discriminate.
    + injection H as -> -> H. rewrite (IH _ H). congruence.
Qed.

Lemma append_inv_tail (a1 a2 t : string) : a1 +:+ t = a2 +:+ t -> a1 = a2.
Proof.
  revert a2. induction a1 as [|c1 a1 IH]; intros [|c2 a2] H.
  - reflexivity.
  - unfold_append_in H. apply (f_equal String.length) in H.
    simpl in H. rewrite length_append in H. lia.
  - unfold_append_in H. apply (f_equal String.length) in H.
    simpl in H. rewrite length_append in H. lia.
  - rewrite !append_cons in H. injection H as -> H. now rewrite (IH _ H).
Qed.

(** X3. Two values give the same path only if they have the same string
    form: when the placeholder of [field] occurs in the path, the paths
    built for [v1] and for [v2] differ as soon as [String(v1)] and
    [String(v2)] differ. *)
Theorem distinct_values_distinct_paths
    (path field before after : string) (v1 v2 : JSValue) :
  firstAt (placeholder field) path before after ->
  buildPath path (Some [(field, v1)]) = buildPath path (Some [(field, v2)]) ->
  ToString v1 = ToString v2.
Proof.
  intros Hfirst. unfold buildPath. simpl. fold (placeholder field).
  rewrite !(replace_first _ _ _ _ _ Hfirst (noDollar_encodeURIComponent _)).
  intros H. apply String.app_inj in H. apply append_inv_tail in H.
  now apply encodeURIComponent_inj.
Qed.

Lemma distinct_values_distinct_paths_witness :
  ToString (JStr "7") = ToString (JNum 7).
Proof.
  apply (distinct_values_distinct_paths "files/:name" "name" "files/" ""
           (JStr "7") (JNum 7)).
  - apply findFirst_sound. reflexivity.
  - reflexivity.
Defined.

(** ** The query string *)

Lemma formEscaped_no_separator (d c : ascii) :
  d = "="%char \/ d = "&"%char ->
  countChar d (if formUnreserved c then String c ""
               else if Ascii.eqb c " " then "+"
               else percentEncode c) = 0%nat.
Proof.
  intros [-> | ->]; destruct c as [[] [] [] [] [] [] [] []];
    vm_compute; reflexivity.
Qed.

Lemma formEncode_no_separator (d : ascii) (s : string) :
  d = "="%char \/ d = "&"%char -> countChar d (formEncode s) = 0%nat.
Proof.
  intros Hd. induction s as [|c s IH]; [reflexivity |].
  simpl. rewrite countChar_append, IH, formEscaped_no_separator by exact Hd.
  reflexivity.
Qed.

Lemma joinWith_cons (sep p : string) (rest : list string) :
  joinWith sep (p :: rest) =
    match rest with
    | [] => p
    | _ => p +:+ sep +:+ joinWith sep rest
    end.
Proof. destruct rest; reflexivity. Qed.

Lemma joinWith_counts (l : list string) :
  (forall p, In p l -> countChar "=" p = 1%nat /\ countChar "&" p = 0%nat) ->
  countChar "=" (joinWith "&" l) = length l /\
  countChar "&" (joinWith "&" l) = (length l - 1)%nat.
Proof.
  induction l as [|p l IH]; intros H; [easy |].
  destruct (H p (or_introl eq_refl)) as [Heq Hamp].
  destruct IH as [IHeq IHamp]; [intros q Hq; apply H; now right |].
  rewrite joinWith_cons. destruct l as [|q l].
  - rewrite Heq, Hamp. easy.
  - rewrite !countChar_append, Heq, Hamp, IHeq, IHamp.
    change (countChar "=" "&") with 0%nat. change (countChar "&" "&") with 1%nat.
    simpl length. split; lia.
Qed.

Lemma searchParams_toString_counts (sp : URLSearchParams) :
  countChar "=" (searchParams_toString sp) = length sp /\
  countChar "&" (searchParams_toString sp) = (length sp - 1)%nat.
Proof.
  unfold searchParams_toString.
  rewrite <- (length_map (fun '(k, v) => formEncode k +:+ "=" +:+ formEncode v) sp).
  apply joinWith_counts. intros p Hp.
  apply in_map_iff in Hp as ([k v] & <- & _).
  rewrite !countChar_append, !formEncode_no_separator by tauto. easy.
Qed.

(** ** Base URLs and generated methods *)

Lemma request_new_call (w : World) (this : nat) (cl : APIClient)
    (endpoint : APIEndpoint) (params query : option Params) (body : JSValue) :
  clients w !! this = Some cl ->
  exists c,
    calls (request w this endpoint params query body) = calls w ++ [c] /\
    log (request w this endpoint params query body) = log w /\
    clients (request w this endpoint params query body) = clients w /\
    promises (request w this endpoint params query body) = promises w /\
    c_client c = this /\ c_endpoint c = endpoint /\
    c_ky c = getClientForEndpoint cl endpoint /\
    c_path c = buildPath (ep_path endpoint) params /\
    c_retryCount c = 0%nat /\
    opt_searchParams (c_options c) = opt_searchParams (queryOptions endpoint query) /\
    (c_options c = queryOptions endpoint query \/
     attachBody endpoint body (queryOptions endpoint query) =
       Returned (c_options c)) /\
    (c_state c = Starting \/
     exists e, c_state c = Settled (Threw (request_catch e))).
Proof.
  intros Hcl. unfold request, request_begin. rewrite Hcl.
  destruct (attachBody endpoint body (queryOptions endpoint query))
    as [options|e] eqn:Hbody.
  - pose proof (attachBody_searchParams _ _ _ _ Hbody) as Hsp.
    destruct (kyRejectsInput _ _); eexists; (split; [reflexivity |]); simpl;
      (do 8 (split; [reflexivity |])); (split; [exact Hsp |]);
      (split; [now right |]).
    + right.
      now exists (OtherError
        "`input` must not begin with a slash when using `prefixUrl`").
    + now left.
  - eexists. split; [reflexivity |]. simpl.
    do 9 (split; [reflexivity |]). split; [now left |]. right. now exists e.
Qed.

(** X4. The query string of a request has one equals sign per pair and one
    ampersand between two pairs, whatever the keys and values contain: a
    key or value cannot add a parameter or change another one. For every
    call [request] makes, the search parameters it hands to ky, when it
    hands any, are as many as the entries of the query object that are
    neither [undefined] nor [null], and the text ky appends for them has
    exactly that many equals signs and one ampersand less. *)
Theorem query_string_shape
    (w : World) (this : nat) (cl : APIClient) (endpoint : APIEndpoint)
    (params query : option Params) (body : JSValue) :
  clients w !! this = Some cl ->
  exists c,
    calls (step w (Request this endpoint params query body)) !! length (calls w)
      = Some c /\
    forall searchParams,
      opt_searchParams (c_options c) = Some searchParams ->
      (exists entries,
          query = Some entries /\
          length searchParams =
            length (List.filter (fun '(_, value) => negb (nullish value)) entries)) /\
      countChar "=" (searchParams_toString searchParams) = length searchParams /\
      countChar "&" (searchParams_toString searchParams) =
        (length searchParams - 1)%nat.
Proof.
  intros Hcl.
  destruct (request_new_call w this cl endpoint params query body Hcl)
    as (c & Hcalls & _ & _ & _ & _ & _ & _ & _ & _ & Hsp & _).
  exists c. cbn [step]. rewrite Hcalls.
  split; [now apply list_lookup_middle |].
  intros searchParams Hsome. rewrite Hsp, queryOptions_searchParams in Hsome.
  split; [|apply searchParams_toString_counts].
  destruct query as [entries|]; [|discriminate].
  exists entries. split; [reflexivity |].
  destruct (keptPairs (Some entries)) eqn:Hkept; [discriminate |].
  injection Hsome as <-. rewrite <- Hkept. unfold keptPairs. apply length_map.
Qed.

Lemma query_string_shape_witness :
  let w := run initial [Construct sampleConfig None] in
  exists c,
    calls (step w (Request 0 ping None
                     (Some [("q", JStr "a&admin=true"); ("page", JNum 2);
                            ("cursor", JNull)])
                     JUndefined)) !! 0%nat = Some c /\
    forall searchParams,
      opt_searchParams (c_options c) = Some searchParams ->
      length searchParams = 2%nat /\
      countChar "&" (searchParams_toString searchParams) = 1%nat.
Proof.
  cbv zeta.
  destruct (query_string_shape (run initial [Construct sampleConfig None]) 0
              (newAPIClient 0 sampleConfig None) ping None
              (Some [("q", JStr "a&admin=true"); ("page", JNum 2); ("cursor", JNull)])
              JUndefined eq_refl) as (c & Hc & H).
  exists c. split; [exact Hc |].
  intros searchParams Hsome.
  destruct (H searchParams Hsome) as ((entries & [= <-] & Hlen) & _ & Hamp).
  split; [exact Hlen |]. rewrite Hamp, Hlen. reflexivity.
Defined.

(** X5. The ky instance that serves an endpoint has as prefix URL the
    endpoint's own base URL when that is a non-empty string, the default
    of the registry otherwise; without an own base URL (absent or empty),
    or with the default one, the endpoint is served by the client's one
    default instance. The call [request] creates carries that instance. *)
Theorem effective_base_url
    (w : World) (this : nat) (cl : APIClient) (endpoint : APIEndpoint) :
  reachable w -> clients w !! this = Some cl ->
  ky_prefixUrl (getClientForEndpoint cl endpoint) =
    (if truthyUrl (ep_baseUrl endpoint) then ep_baseUrl endpoint
     else cfg_baseUrl (config cl)) /\
  (truthyUrl (ep_baseUrl endpoint) = false \/
   ep_baseUrl endpoint = cfg_baseUrl (config cl) ->
   getClientForEndpoint cl endpoint = client cl) /\
  (forall params query body, exists c,
      calls (step w (Request this endpoint params query body))
        !! length (calls w) = Some c /\
      ky_prefixUrl (c_ky c) =
        (if truthyUrl (ep_baseUrl endpoint) then ep_baseUrl endpoint
         else cfg_baseUrl (config cl))).
Proof.
  intros Hreach Hcl.
  destruct (wf_reachable w Hreach) as (Hclok & _).
  destruct (Hclok _ _ Hcl) as (_ & _ & _ & Hpre & _).
  assert (E : ky_prefixUrl (getClientForEndpoint cl endpoint) =
              (if truthyUrl (ep_baseUrl endpoint) then ep_baseUrl endpoint
               else cfg_baseUrl (config cl))).
  { unfold getClientForEndpoint, getEndpointBaseUrl.
    destruct (decide _) as [Heq|Hne]; [|reflexivity].
    rewrite Hpre. symmetry. exact Heq. }
  split; [exact E |]. split.
  - intros H. unfold getClientForEndpoint, getEndpointBaseUrl.
    destruct (decide _) as [Heq|Hne]; [reflexivity |]. destruct Hne.
    destruct H as [H|H]; [now rewrite H |].
    destruct (truthyUrl (ep_baseUrl endpoint)); [exact H | reflexivity].
  - intros params query body.
    destruct (request_new_call w this cl endpoint params query body Hcl)
      as (c & Hcalls & _ & _ & _ & _ & _ & Hky & _).
    exists c. simpl. rewrite Hcalls, Hky.
    split; [now rewrite list_lookup_middle | exact E].
Qed.

Lemma effective_base_url_witness :
  let w := run initial [Construct sampleConfig None] in
  ky_prefixUrl (getClientForEndpoint (newAPIClient 0 sampleConfig None) createUser) =
    Some "https://admin.example.com" /\
  getClientForEndpoint (newAPIClient 0 sampleConfig None) getUser =
    client (newAPIClient 0 sampleConfig None).
Proof.
  destruct (effective_base_url (run initial [Construct sampleConfig None]) 0
              (newAPIClient 0 sampleConfig None) createUser) as (H1 & _).
  - eexists. reflexivity.
  - reflexivity.
  - split; [exact H1 |].
    apply (proj1 (proj2 (effective_base_url
             (run initial [Construct sampleConfig None]) 0
             (newAPIClient 0 sampleConfig None) getUser
             (ex_intro _ [Construct sampleConfig None] eq_refl) eq_refl))).
    now left.
Defined.

(** X6. A generated method passes on only what its endpoint declares. For
    every method of the surface of a client: the method of an endpoint
    without a params schema never passes parameters, so the request goes
    out with the path template as it is; the method of an endpoint that is
    not GET never passes a query, so its request has no search parameters,
    also when the endpoint declares a query schema; the method of a GET
    endpoint never passes a body. *)
Theorem generated_method_routing
    (w : World) (this : nat) (cl : APIClient)
    (name : string) (endpoint : APIEndpoint) (shape : MethodShape)
    (params query : option Params) (body : JSValue) :
  clients w !! this = Some cl ->
  In (name, (endpoint, shape)) (generateMethods cl) ->
  exists c,
    calls (invokeMethod w this (endpoint, shape) params query body) =
      calls w ++ [c] /\
    c_endpoint c = endpoint /\
    (ep_params endpoint = None -> c_path c = ep_path endpoint) /\
    (isGET (ep_method endpoint) = false ->
     opt_searchParams (c_options c) = None) /\
    (isGET (ep_method endpoint) = true -> opt_json (c_options c) = None).
Proof.
  intros Hcl Hin. unfold generateMethods in Hin.
  apply in_map_iff in Hin as ([name' endpoint'] & [= _ <- <-] & _).
  unfold invokeMethod. simpl fst. simpl snd.
  destruct (methodArgs (methodShape endpoint') params query body)
    as [[p q] b] eqn:Hargs.
  assert (Hp : ep_params endpoint' = None -> p = None).
  { intros Hnone. unfold methodShape, methodArgs in Hargs. rewrite Hnone in Hargs.
    simpl in Hargs.
    destruct (isGET _), (isSome (ep_query endpoint')), (isSome (ep_body endpoint'));
      simpl in Hargs; congruence. }
  assert (Hq : isGET (ep_method endpoint') = false -> q = None).
  { intros Hget. unfold methodShape, methodArgs in Hargs. rewrite Hget in Hargs.
    destruct (isSome (ep_params endpoint')), (isSome (ep_body endpoint'));
      simpl in Hargs; congruence. }
  destruct (request_new_call w this cl endpoint' p q b Hcl)
    as (c & Hcalls & _ & _ & _ & _ & Hep & _ & Hpath & _ & Hsp & Hopt & _).
  exists c. split; [exact Hcalls |]. split; [exact Hep |]. split; [|split].
  - intros Hnone. rewrite Hpath, (Hp Hnone). reflexivity.
  - intros Hget. rewrite Hsp, (Hq Hget). reflexivity.
  - intros Hget. destruct Hopt as [->|Hbody]; [apply queryOptions_json |].
    unfold attachBody in Hbody. rewrite Hget, andb_false_r in Hbody.
    injection Hbody as <-. apply queryOptions_json.
Qed.

Lemma generated_method_routing_witness :
  let w := run initial [Construct sampleConfig None] in
  exists c,
    calls (invokeMethod w 0 (createUser, methodShape createUser)
             None (Some [("dryRun", JBool true)]) (JObj [("name", JStr "Ann")])) =
      calls w ++ [c] /\
    opt_searchParams (c_options c) = None.
Proof.
  destruct (generated_method_routing
              (run initial [Construct sampleConfig None]) 0
              (newAPIClient 0 sampleConfig None)
              "createUser" createUser (methodShape createUser)
              None (Some [("dryRun", JBool true)]) (JObj [("name", JStr "Ann")]))
    as (c & Hcalls & _ & _ & Hq & _).
  - reflexivity.
  - simpl. tauto.
  - exists c. split; [exact Hcalls | now apply Hq].
Defined.

(** X7. The call a generated server query makes fits the method the
    runtime client defines: for every GET endpoint of the registry, the
    arguments of the emitted [serverClient.name(...)] are, in order, the
    formal parameters of the method [generateMethods] stores under that
    name; and server queries are generated for the GET endpoints only. *)
Theorem server_query_call_fits_method
    (cl : APIClient) (name : string) (endpoint : APIEndpoint) :
  In (name, endpoint) (serverQueryEndpoints (config cl)) ->
  isGET (ep_method endpoint) = true /\
  In (name, (endpoint, methodShape endpoint)) (generateMethods cl) /\
  clientCallArgs endpoint = methodFormals (methodShape endpoint).
Proof.
  unfold serverQueryEndpoints. intros Hin.
  apply List.filter_In in Hin as [Hin Hget]. unfold isQueryEndpoint in Hget.
  split; [exact Hget |]. split.
  - unfold generateMethods. apply in_map_iff. now exists (name, endpoint).
  - unfold clientCallArgs, methodShape, hasParams, hasQuery. rewrite Hget.
    destruct (isSome (ep_params endpoint)), (isSome (ep_query endpoint));
      reflexivity.
Qed.

Lemma server_query_call_fits_method_witness :
  clientCallArgs getUser = methodFormals (methodShape getUser).
Proof.
  apply (server_query_call_fits_method (newAPIClient 0 sampleConfig None)
           "getUser" getUser).
  simpl. tauto.
Defined.

(** ** Further steps of a call *)

Lemma send_effects (w : World) (r : nat) (c : Call) (cl : APIClient)
    (t : option AuthTokens) :
  calls w !! r = Some c -> c_state c = Starting ->
  clients w !! ky_hooks (c_ky c) = Some cl ->
  clients (send w r (Tokens t)) = clients w /\
  promises (send w r (Tokens t)) = promises w /\
  calls (send w r (Tokens t)) =
    <[r := advance c (if isSome (authCallbacks cl)
                      then bearer t (c_authorization c)
                      else c_authorization c)
                   (c_retryCount c) InFlight]> (calls w) /\
  log (send w r (Tokens t)) = log w ++ [Fetched r].
Proof.
  intros Hr Hst Hcl. unfold send. rewrite Hr, Hst, Hcl.
  destruct (authCallbacks cl); easy.
Qed.

Lemma resume_resolved_effects (w : World) (r p : nat) (c : Call)
    (cell : PromiseCell) (t : option AuthTokens) :
  calls w !! r = Some c -> c_state c = AwaitingRefresh p ->
  promises w !! p = Some cell -> p_state cell = Resolved ->
  resume w r (Tokens t) =
    setCall w r (advance c (bearer t (c_authorization c)) (c_retryCount c) Starting).
Proof.
  intros Hr Hst Hp Hcell. unfold resume. now rewrite Hr, Hst, Hp, Hcell.
Qed.


(** What the first 401 of a call does on an idle client that has a refresh
    handler. *)
Lemma first_401_starts (w : World) (r : nat) (c : Call) (cl : APIClient)
    (cbs : AuthCallbacks) (handler : Handler) (m : string) (j : option JSValue) :
  reachable w ->
  calls w !! r = Some c -> c_state c = InFlight -> c_retryCount c = 0%nat ->
  clients w !! c_client c = Some cl ->
  authCallbacks cl = Some cbs -> onRefreshToken cbs = Some handler ->
  isRefreshing cl = false ->
  receive w r (Response 401 m j) =
    emit (setCall (emit (setClient (allocPromise w Pending (c_client c)) (c_client c)
                           (withRefresh cl true (Some (length (promises w)))))
                        (RefreshInvoked (c_client c) handler (length (promises w))))
            r (advance c (c_authorization c) 1
                 (AwaitingRefresh (length (promises w)))))
         (AwaitedRefresh r (length (promises w))).
Proof.
  intros Hreach Hr Hst H0 Hcl Hcbs Hh Hflag.
  destruct (call_hooks w r c Hreach Hr) as (Hk & Hretry & _).
  rewrite <- Hk in Hcl.
  rewrite (receive_401_first w r c cl) by (try assumption; now rewrite Hcbs).
  rewrite (refreshTokens_start w _ cl cbs handler) by assumption.
  now rewrite Hk.
Qed.

Lemma replace_leading_slash (s pat repl : string) :
  startsWithSlash s = true -> startsWithSlash (replace s (":" +:+ pat) repl) = true.
Proof.
  destruct s as [|c s]; [discriminate |]. intros Hc. unfold replace.
  simpl in Hc. unfold_append. cbn [findFirst stripPrefix].
  destruct (Ascii.eqb ":" c) eqn:E.
  { apply Ascii.eqb_eq in E. subst c. discriminate. }
  destruct (findFirst (String ":" pat) s) as [[before after]|]; [|exact Hc].
  unfold_append. exact Hc.
Qed.

Lemma buildPath_leading_slash (path : string) (params : option Params) :
  startsWithSlash path = true -> startsWithSlash (buildPath path params) = true.
Proof.
  destruct params as [entries|]; [|easy]. unfold buildPath.
  revert path. induction entries as [|[key value] entries IH]; intros path H; [easy |].
  simpl. apply IH, replace_leading_slash, H.
Qed.

Lemma getClientForEndpoint_prefix (w : World) (this : nat) (cl : APIClient)
    (endpoint : APIEndpoint) :
  reachable w -> clients w !! this = Some cl ->
  ky_prefixUrl (getClientForEndpoint cl endpoint) = getEndpointBaseUrl cl endpoint.
Proof.
  intros Hreach Hcl.
  destruct (wf_reachable w Hreach) as (Hclok & _).
  destruct (Hclok _ _ Hcl) as (_ & _ & _ & Hpre & _).
  unfold getClientForEndpoint.
  destruct (decide _) as [Heq|Hne]; [|reflexivity].
  rewrite Hpre. symmetry. exact Heq.
Qed.

(** X8. A registry path that begins with a slash cannot be requested through
    a client whose effective base URL is set: ky refuses such an input when
    [prefixUrl] is set, so the call made by [request] is rejected at once
    with an [APIError] of status 0, nothing is logged, and no later event
    ever fetches it. Path parameters do not help: [buildPath] keeps the
    leading slash. *)
Theorem leading_slash_is_rejected
    (w : World) (this : nat) (cl : APIClient) (endpoint : APIEndpoint)
    (params query : option Params) (body : JSValue) :
  reachable w -> clients w !! this = Some cl ->
  truthyUrl (getEndpointBaseUrl cl endpoint) = true ->
  startsWithSlash (ep_path endpoint) = true ->
  let r := length (calls w) in
  let w' := step w (Request this endpoint params query body) in
  (exists c message,
      calls w' !! r = Some c /\
      c_state c = Settled (Threw (APIError message 0 None))) /\
  log w' = log w /\
  forall evs, ~ In (Fetched r) (log (run w' evs)).
Proof.
  intros Hreach Hcl Hbase Hslash r w'.
  assert (Hrej : kyRejectsInput (getClientForEndpoint cl endpoint)
                   (buildPath (ep_path endpoint) params) = true).
  { unfold kyRejectsInput.
    rewrite (getClientForEndpoint_prefix w this cl endpoint Hreach Hcl), Hbase.
    now rewrite buildPath_leading_slash. }
  assert (Hw' : exists c message,
             w' = addCall w c /\
             c_state c = Settled (Threw (APIError message 0 None))).
  { subst w'. cbn [step]. unfold request, request_begin. rewrite Hcl, Hrej.
    destruct (attachBody endpoint body (queryOptions endpoint query)) as [o|e] eqn:Hb.
    - eexists _, _. split; reflexivity.
    - unfold attachBody in Hb.
      destruct (truthy body && negb (isGET (ep_method endpoint))); [|discriminate].
      destruct (ep_body endpoint) as [schema|]; [|discriminate].
      destruct (parse schema body); [discriminate |].
      injection Hb as <-. eexists _, _. split; reflexivity. }
  destruct Hw' as (c & message & Hw' & Hst).
  assert (Hr : calls w' !! r = Some c).
  { rewrite Hw'. unfold addCall. cbn [calls]. apply list_lookup_middle. reflexivity. }
  assert (Hlog : log w' = log w) by now rewrite Hw'.
  split; [now exists c, message |]. split; [exact Hlog |].
  intros evs.
  apply (settled_run evs w' r c _ Hr Hst).
  rewrite Hlog. intros Hin. apply (fetched_bound w r Hreach) in Hin. subst r. lia.
Qed.

Lemma leading_slash_is_rejected_witness :
  let w := run initial [Construct sampleConfig None] in
  let w' := step w (Request 0 readmeUser (Some [("id", JStr "42")]) None JUndefined) in
  (exists c message,
      calls w' !! 0%nat = Some c /\
      c_state c = Settled (Threw (APIError message 0 None))) /\
  log w' = log w /\
  forall evs, ~ In (Fetched 0) (log (run w' evs)).
Proof.
  refine (leading_slash_is_rejected
            (run initial [Construct sampleConfig None]) 0
            (newAPIClient 0 sampleConfig None) readmeUser
            (Some [("id", JStr "42")]) None JUndefined _ _ _ _).
  - now exists [Construct sampleConfig None].
  - reflexivity.
  - reflexivity.
  - reflexivity.
Defined.

Lemma receive_401_no_callbacks (w : World) (r : nat) (c : Call) (cl : APIClient)
    (m : string) (j : option JSValue) :
  calls w !! r = Some c -> c_state c = InFlight -> (c_retryCount c < 2)%nat ->
  ky_retry (c_ky c) = clientRetry ->
  clients w !! ky_hooks (c_ky c) = Some cl -> authCallbacks cl = None ->
  receive w r (Response 401 m j) = authFailed w r c (S (c_retryCount c)).
Proof.
  intros Hr Hst Hlt Hretry Hcl Hcbs. unfold receive. rewrite Hr, Hst.
  change (responseOk 401) with false. cbv iota. unfold beforeError.
  rewrite kyFailed_401 by exact Hretry.
  replace (2 <? S (c_retryCount c))%nat with false
    by (symmetry; apply Nat.ltb_ge; lia).
  unfold beforeRetry. rewrite Hcl, Hcbs. change (401 =? 401)%Z with true.
  cbn [isSome]. now rewrite andb_false_r.
Qed.

(** X9. A client built without callbacks never refreshes: a 401 answer to
    one of its calls (first or second attempt) makes the call fail with
    [AuthError] at once; nothing is logged (no handler is invoked), no
    promise is created, the client is left as it was. *)
Theorem no_callbacks_401_fails_at_once
    (w : World) (r : nat) (c : Call) (cl : APIClient)
    (m : string) (j : option JSValue) :
  reachable w ->
  calls w !! r = Some c -> c_state c = InFlight -> (c_retryCount c < 2)%nat ->
  clients w !! c_client c = Some cl -> authCallbacks cl = None ->
  let w' := step w (Receive r (Response 401 m j)) in
  calls w' =
    <[r := advance c (c_authorization c) (S (c_retryCount c)) authFailure]> (calls w) /\
  log w' = log w /\ clients w' = clients w /\ promises w' = promises w.
Proof.
  intros Hreach Hr Hst Hlt Hcl Hcbs w'. subst w'. cbn [step].
  destruct (call_hooks w r c Hreach Hr) as (Hk & Hretry & _).
  rewrite <- Hk in Hcl.
  rewrite (receive_401_no_callbacks w r c cl) by assumption.
  destruct (authFailed_effects w r c (S (c_retryCount c)))
    as (Hc & Hp & Hcalls & Hlog).
  rewrite Hcl, Hcbs, app_nil_r in Hlog. easy.
Qed.

Lemma no_callbacks_401_fails_at_once_witness :
  exists c,
    calls anonymousInFlight !! 0%nat = Some c /\
    let w' := step anonymousInFlight (Receive 0 (Response 401 "Unauthorized" None)) in
    calls w' = <[0%nat := advance c (c_authorization c) 1 authFailure]>
                 (calls anonymousInFlight) /\
    log w' = log anonymousInFlight /\
    clients w' = clients anonymousInFlight /\
    promises w' = promises anonymousInFlight.
Proof.
  eexists. split; [reflexivity |].
  refine (no_callbacks_401_fails_at_once anonymousInFlight 0 _
            (newAPIClient 0 sampleConfig None) "Unauthorized" None _ _ _ _ _ _).
  - now eexists.
  - reflexivity.
  - reflexivity.
  - simpl. lia.
  - reflexivity.
  - reflexivity.
Defined.

(** X10. Callbacks without an [onRefreshToken] handler: the first 401 of a
    call on an idle client enters the refresh path, which rejects. The
    client is not left refreshing, the handler log gains no refresh
    invocation, and when the hook of the call continues, [onAuthError] is
    notified (when provided) and the call fails with [AuthError]. *)
Theorem refresh_without_handler
    (w : World) (r : nat) (c : Call) (cl : APIClient) (cbs : AuthCallbacks)
    (m : string) (j : option JSValue) (tok : TokensResult) :
  reachable w ->
  calls w !! r = Some c -> c_state c = InFlight -> c_retryCount c = 0%nat ->
  clients w !! c_client c = Some cl ->
  authCallbacks cl = Some cbs -> onRefreshToken cbs = None ->
  isRefreshing cl = false ->
  let p := length (promises w) in
  let w1 := step w (Receive r (Response 401 m j)) in
  let w2 := step w1 (Resume r tok) in
  (exists cl1, clients w1 !! c_client c = Some cl1 /\ isRefreshing cl1 = false) /\
  clients w2 = clients w1 /\
  calls w2 = <[r := advance c (c_authorization c) 1 authFailure]> (calls w) /\
  log w2 =
    log w ++ AwaitedRefresh r p ::
      match onAuthError cbs with
      | Some handler => [AuthErrorNotified (c_client c) handler]
      | None => []
      end.
Proof.
  intros Hreach Hr Hst H0 Hcl Hcbs Hh Hflag p w1 w2.
  destruct (call_hooks w r c Hreach Hr) as (Hk & Hretry & _).
  assert (Hlt : (c_client c < length (clients w))%nat)
    by (apply lookup_lt_is_Some; eauto).
  assert (Hrlt : (r < length (calls w))%nat)
    by (apply lookup_lt_is_Some; eauto).
  assert (Hw1 : w1 =
    emit (setCall (setClient (allocPromise w Rejected (c_client c)) (c_client c)
                     (withRefresh cl false (Some p)))
            r (advance c (c_authorization c) 1 (AwaitingRefresh p)))
         (AwaitedRefresh r p)).
  { subst w1. cbn [step]. rewrite <- Hk in Hcl.
    rewrite (receive_401_first w r c cl) by (try assumption; now rewrite Hcbs).
    unfold refreshTokens. rewrite Hcbs, Hflag, Hh, Hk. reflexivity. }
  assert (Hcl1 : clients w1 !! c_client c = Some (withRefresh cl false (Some p))).
  { rewrite Hw1. cbn. now apply list_lookup_insert_eq. }
  assert (Hw2 : w2 = authFailed w1 r (advance c (c_authorization c) 1 (AwaitingRefresh p)) 1).
  { subst w2. cbn [step]. unfold resume.
    replace (calls w1 !! r)
      with (Some (advance c (c_authorization c) 1 (AwaitingRefresh p)))
      by (rewrite Hw1; cbn; symmetry; now apply list_lookup_insert_eq).
    cbn [c_state advance].
    replace (promises w1 !! p)
      with (Some {| p_state := Rejected; p_owner := c_client c |})
      by (rewrite Hw1; cbn; symmetry; now apply list_lookup_middle).
    reflexivity. }
  destruct (authFailed_effects w1 r (advance c (c_authorization c) 1 (AwaitingRefresh p)) 1)
    as (Hc & Hp & Hcalls & Hlog).
  rewrite <- Hw2 in Hc, Hp, Hcalls, Hlog.
  split; [eexists; split; [exact Hcl1 | reflexivity] |].
  split; [exact Hc |]. split.
  - rewrite Hcalls, Hw1. cbn. now rewrite list_insert_insert_eq.
  - rewrite Hlog. cbn [c_ky advance]. rewrite Hk, Hcl1. cbn [authCallbacks withRefresh].
    rewrite Hcbs, Hw1. cbn [log emit setCall setClient allocPromise].
    rewrite <- app_assoc. reflexivity.
Qed.

Lemma refresh_without_handler_witness :
  let w2 := run noHandlerInFlight
              [Receive 0 (Response 401 "Unauthorized" None); Resume 0 (token "stale")] in
  (exists cl1,
      clients (step noHandlerInFlight (Receive 0 (Response 401 "Unauthorized" None)))
        !! 0%nat = Some cl1 /\ isRefreshing cl1 = false) /\
  log w2 = log noHandlerInFlight ++ [AwaitedRefresh 0 0; AuthErrorNotified 0 1].
Proof.
  pose proof (refresh_without_handler noHandlerInFlight 0
                {| c_client := 0; c_endpoint := getUser;
                   c_ky := ky_create (Some "https://api.example.com") 0;
                   c_path := "users/42";
                   c_options := {| opt_method := GET; opt_searchParams := None;
                                   opt_json := None |};
                   c_authorization := Some "Bearer stale"; c_retryCount := 0;
                   c_state := InFlight |}
                (newAPIClient 0 sampleConfig (Some notifyOnly)) notifyOnly
                "Unauthorized" None (token "stale")) as H.
  cbv zeta in H.
  destruct H as (H1 & _ & _ & H4); try reflexivity.
  - now eexists.
  - split; [exact H1 | exact H4].
Defined.

(** X11. The whole refresh path of one call. On an idle client with a
    refresh handler, a call whose first attempt is answered 401 invokes the
    handler once; when the refresh succeeds and the hook continues, the call
    is fetched exactly once more, with the bearer credential of the tokens
    read at that time, and the 2xx answer to that retry settles the call
    with what the response schema makes of the body. The client ends idle. *)
Theorem refresh_then_retry
    (w : World) (r : nat) (c : Call) (cl : APIClient) (cbs : AuthCallbacks)
    (handler : Handler) (m m2 : string) (j data : option JSValue)
    (t1 t2 : option AuthTokens) (status : Z) :
  reachable w ->
  calls w !! r = Some c -> c_state c = InFlight -> c_retryCount c = 0%nat ->
  clients w !! c_client c = Some cl ->
  authCallbacks cl = Some cbs -> onRefreshToken cbs = Some handler ->
  isRefreshing cl = false ->
  responseOk status = true ->
  let p := length (promises w) in
  let w' := run w [Receive r (Response 401 m j); SettleRefresh p true;
                   Resume r (Tokens t1); Send r (Tokens t2);
                   Receive r (Response status m2 data)] in
  calls w' =
    <[r := advance c (bearer t2 (bearer t1 (c_authorization c))) 1
             (Settled (request_settle (request_end (c_endpoint c) data)))]>
      (calls w) /\
  log w' =
    log w ++ [RefreshInvoked (c_client c) handler p; AwaitedRefresh r p; Fetched r] /\
  clients w' = <[c_client c := withRefresh cl false None]> (clients w) /\
  promises w' = promises w ++ [{| p_state := Resolved; p_owner := c_client c |}].
Proof.
  intros Hreach Hr Hst H0 Hcl Hcbs Hh Hflag Hok p w'.
  destruct (call_hooks w r c Hreach Hr) as (Hk & Hretry & _).
  assert (Hlt : (c_client c < length (clients w))%nat)
    by (apply lookup_lt_is_Some; eauto).
  assert (Hrlt : (r < length (calls w))%nat)
    by (apply lookup_lt_is_Some; eauto).
  subst w'. unfold run. cbn [fold_left step].
  rewrite (first_401_starts w r c cl cbs handler m j) by assumption.
  fold p.
  set (w1 := emit _ (AwaitedRefresh r p)).
  set (c1 := advance c (c_authorization c) 1 (AwaitingRefresh p)) in *.
  assert (Hp1 : promises w1 !! p = Some {| p_state := Pending; p_owner := c_client c |}).
  { subst w1. cbn. now apply list_lookup_middle. }
  assert (Hcl1 : clients w1 !! c_client c = Some (withRefresh cl true (Some p))).
  { subst w1. cbn. now apply list_lookup_insert_eq. }
  destruct (settleRefresh_effects w1 p true _ _ Hp1 Hcl1) as (Ec2 & Ep2 & Ek2 & El2).
  set (w2 := settleRefresh w1 p true) in *.
  assert (Hr2 : calls w2 !! r = Some c1).
  { rewrite Ek2. subst w1. cbn. now apply list_lookup_insert_eq. }
  assert (Hp2 : promises w2 !! p = Some {| p_state := Resolved; p_owner := c_client c |}).
  { rewrite Ep2. apply list_lookup_insert_eq. now apply lookup_lt_is_Some; eauto. }
  rewrite (resume_resolved_effects w2 r p c1 _ t1 Hr2 eq_refl Hp2 eq_refl).
  set (c3 := advance c1 _ _ Starting).
  set (w3 := setCall w2 r c3).
  assert (Hr3 : calls w3 !! r = Some c3).
  { subst w3. cbn. apply list_lookup_insert_eq. apply lookup_lt_is_Some; eauto. }
  assert (Hcl3 : clients w3 !! ky_hooks (c_ky c3) =
                   Some (withRefresh (withRefresh cl true (Some p)) false None)).
  { subst w3 c3 c1. cbn. rewrite Ec2, Hk. apply list_lookup_insert_eq.
    apply lookup_lt_is_Some; eauto. }
  destruct (send_effects w3 r c3 _ t2 Hr3 eq_refl Hcl3) as (Ec4 & Ep4 & Ek4 & El4).
  set (w4 := send w3 r (Tokens t2)) in *.
  cbn [authCallbacks withRefresh] in Ek4. rewrite Hcbs in Ek4. cbn [isSome] in Ek4.
  set (c4 := advance c3 _ _ InFlight) in *.
  assert (Hr4 : calls w4 !! r = Some c4).
  { rewrite Ek4. apply list_lookup_insert_eq. apply lookup_lt_is_Some; eauto. }
  unfold receive. rewrite Hr4. cbn [c_state c4 advance]. rewrite Hok.
  unfold settle. cbn [calls clients promises log setCall].
  rewrite Ek4, Ec4, Ep4, El4. subst w3. cbn [calls clients promises log setCall].
  rewrite Ek2, Ec2, Ep2, El2. subst w1.
  cbn [calls clients promises log setCall emit setClient allocPromise].
  repeat split.
  - rewrite !list_insert_insert_eq. reflexivity.
  - rewrite <- !app_assoc. reflexivity.
  - rewrite list_insert_insert_eq. reflexivity.
  - fold p. replace p with (length (promises w) + 0)%nat at 1 by lia.
    rewrite insert_app_r. reflexivity.
Qed.

Lemma refresh_then_retry_witness :
  let fresh := Some {| accessToken := "fresh"; refreshToken := None |} in
  let w' := run twoInFlight
              [Receive 0 (Response 401 "Unauthorized" None); SettleRefresh 0 true;
               Resume 0 (Tokens fresh); Send 0 (Tokens fresh);
               Receive 0 (Response 200 "" (Some (JObj [("id", JStr "42")])))] in
  (exists c', calls w' !! 0%nat = Some c' /\
              c_authorization c' = Some "Bearer fresh" /\
              c_state c' = Settled (Returned (JObj [("id", JStr "42")]))) /\
  log w' = log twoInFlight ++ [RefreshInvoked 0 2 0; AwaitedRefresh 0 0; Fetched 0].
Proof.
  pose proof (refresh_then_retry twoInFlight 0
                {| c_client := 0; c_endpoint := getUser;
                   c_ky := ky_create (Some "https://api.example.com") 0;
                   c_path := "users/42";
                   c_options := {| opt_method := GET; opt_searchParams := None;
                                   opt_json := None |};
                   c_authorization := Some "Bearer stale"; c_retryCount := 0;
                   c_state := InFlight |}
                (newAPIClient 0 sampleConfig (Some sampleCallbacks)) sampleCallbacks 2
                "Unauthorized" "" None (Some (JObj [("id", JStr "42")]))
                (Some {| accessToken := "fresh"; refreshToken := None |})
                (Some {| accessToken := "fresh"; refreshToken := None |}) 200) as H.
  cbv zeta in H.
  destruct H as (H1 & H2 & _ & _); try reflexivity.
  - now eexists.
  - cbv zeta. split; [| exact H2].
    eexists. split; [etransitivity; [exact (f_equal (fun l => l !! 0%nat) H1) | reflexivity] |].
    split; reflexivity.
Defined.

(** X12. [refreshAuth] goes through the same single-flight refresh as the
    401 path. While a refresh of the client is outstanding it changes
    nothing (the caller gets the outstanding operation). On an idle client
    it invokes [onRefreshToken] once and leaves a refresh outstanding, and a
    call of the client whose first attempt is then answered 401 awaits that
    refresh without a second invocation. *)
Theorem refreshAuth_single_flight
    (w : World) (this : nat) (cl : APIClient) (cbs : AuthCallbacks)
    (handler : Handler) :
  reachable w -> clients w !! this = Some cl ->
  authCallbacks cl = Some cbs -> onRefreshToken cbs = Some handler ->
  let p := length (promises w) in
  let w1 := step w (RefreshAuth this) in
  (forall q, outstanding w this q -> w1 = w) /\
  (isRefreshing cl = false ->
   log w1 = log w ++ [RefreshInvoked this handler p] /\
   outstanding w1 this p /\
   calls w1 = calls w /\
   forall r c m j,
     calls w !! r = Some c -> c_client c = this ->
     c_state c = InFlight -> c_retryCount c = 0%nat ->
     step w1 (Receive r (Response 401 m j)) =
       emit (setCall w1 r (advance c (c_authorization c) 1 (AwaitingRefresh p)))
            (AwaitedRefresh r p)).
Proof.
  intros Hreach Hcl Hcbs Hh p w1.
  assert (Hw1 : w1 = fst (refreshTokens w this cl)).
  { subst w1. cbn [step]. unfold refreshAuth. now rewrite Hcl, Hcbs. }
  split.
  - intros q Hout.
    destruct (wf_reachable w Hreach) as (_ & _ & _ & Hsf & _).
    destruct (Hsf _ _ Hout) as (cl' & Hcl' & Hflag & Hp).
    rewrite Hcl in Hcl'. injection Hcl' as <-.
    rewrite Hw1, (refreshTokens_join w this cl q); [reflexivity | | assumption ..].
    now rewrite Hcbs.
  - intros Hflag.
    rewrite (refreshTokens_start w this cl cbs handler) in Hw1 by assumption.
    cbn [fst] in Hw1. fold p in Hw1.
    assert (Hlt : (this < length (clients w))%nat)
      by (apply lookup_lt_is_Some; eauto).
    assert (Hcl1 : clients w1 !! this = Some (withRefresh cl true (Some p))).
    { rewrite Hw1. cbn. now apply list_lookup_insert_eq. }
    split; [now rewrite Hw1 |]. split; [|split; [now rewrite Hw1 |]].
    + exists {| p_state := Pending; p_owner := this |}.
      split; [|easy]. rewrite Hw1. cbn. now apply list_lookup_middle.
    + intros r c m j Hr Hthis Hst H0.
      assert (Hreach1 : reachable w1) by apply (reachable_run w [RefreshAuth this] Hreach).
      assert (Hr1 : calls w1 !! r = Some c) by now rewrite Hw1.
      destruct (call_hooks w1 r c Hreach1 Hr1) as (Hk & Hretry & _).
      cbn [step]. rewrite <- Hthis, <- Hk in Hcl1.
      rewrite (receive_401_first w1 r c _ m j Hr1 Hst H0 Hretry Hcl1)
        by (cbn; now rewrite Hcbs).
      rewrite (refreshTokens_join w1 _ _ p); [reflexivity | | reflexivity ..].
      cbn. now rewrite Hcbs.
Qed.

Lemma refreshAuth_single_flight_witness :
  let w1 := step twoInFlight (RefreshAuth 0) in
  log w1 = log twoInFlight ++ [RefreshInvoked 0 2 0] /\
  step w1 (RefreshAuth 0) = w1 /\
  log (step w1 (Receive 1 (Response 401 "Unauthorized" None))) =
    log w1 ++ [AwaitedRefresh 1 0].
Proof.
  assert (Hreach : reachable twoInFlight) by now eexists.
  pose proof (refreshAuth_single_flight twoInFlight 0
                (newAPIClient 0 sampleConfig (Some sampleCallbacks))
                sampleCallbacks 2 Hreach eq_refl eq_refl eq_refl) as H.
  cbv zeta in H. destruct H as (_ & H). destruct (H eq_refl) as (Hlog & Hout & _ & Hjoin).
  cbv zeta. split; [exact Hlog |]. split.
  - assert (Hreach1 : reachable (step twoInFlight (RefreshAuth 0)))
      by apply (reachable_run twoInFlight [RefreshAuth 0] Hreach).
    pose proof (refreshAuth_single_flight (step twoInFlight (RefreshAuth 0)) 0 _
                  sampleCallbacks 2 Hreach1 eq_refl eq_refl eq_refl) as H'.
    cbv zeta in H'. destruct H' as (H' & _). exact (H' _ Hout).
  - rewrite (Hjoin 1%nat _ "Unauthorized" None eq_refl eq_refl eq_refl eq_refl).
    reflexivity.
Defined.



(** X14. A failed attempt without a response (network failure) is issued
    again by ky as long as the retry counter allows, that is twice at most,
    and a timeout never is; when ky gives up, the caller gets an [APIError]
    of status 0 with the message of the failure. Nothing but the call
    changes. *)
Theorem transport_failure_retries
    (w : World) (r : nat) (c : Call) (timeout : bool) (message : string) :
  reachable w -> calls w !! r = Some c -> c_state c = InFlight ->
  step w (Receive r (Failure timeout message)) =
    setCall w r
      (advance c (c_authorization c) (S (c_retryCount c))
         (if timeout || (2 <=? c_retryCount c)%nat
          then Settled (Threw (APIError (JStr message) 0 None))
          else Starting)).
Proof.
  intros Hreach Hr Hst.
  destruct (call_hooks w r c Hreach Hr) as (_ & Hretry & _).
  cbn [step]. unfold receive. rewrite Hr, Hst. unfold kyFailed.
  rewrite Hretry, (bool_decide_eq_true_2 _ (all_methods_retriable _)).
  cbn [limit clientRetry].
  replace (2 <? S (c_retryCount c))%nat with (2 <=? c_retryCount c)%nat
    by (destruct (Nat.leb_spec 2 (c_retryCount c)), (Nat.ltb_spec 2 (S (c_retryCount c)));
        (reflexivity || lia)).
  destruct timeout; cbn [isTimeout retriableStatus negb].
  - now rewrite orb_true_r.
  - rewrite !orb_false_r. cbn [orb].
    destruct (2 <=? c_retryCount c)%nat; reflexivity.
Qed.

Lemma transport_failure_retries_witness :
  exists c,
    calls twoInFlight !! 0%nat = Some c /\
    step twoInFlight (Receive 0 (Failure false "fetch failed")) =
      setCall twoInFlight 0 (advance c (c_authorization c) 1 Starting) /\
    step twoInFlight (Receive 0 (Failure true "Request timed out")) =
      setCall twoInFlight 0
        (advance c (c_authorization c) 1
           (Settled (Threw (APIError (JStr "Request timed out") 0 None)))).
Proof.
  assert (Hreach : reachable twoInFlight) by now eexists.
  eexists. split; [reflexivity |]. split.
  - exact (transport_failure_retries twoInFlight 0 _ false "fetch failed"
             Hreach eq_refl eq_refl).
  - exact (transport_failure_retries twoInFlight 0 _ true "Request timed out"
             Hreach eq_refl eq_refl).
Defined.

(** X15. The hooks read the callbacks of the client when they run, so
    [updateAuthCallbacks] also serves the calls that are already in flight:
    after the callbacks have been replaced, the first 401 of such a call on
    an idle client invokes the new [onRefreshToken] handler (even if the
    client was built without callbacks), and a 401 on its retry notifies
    the new [onAuthError]. *)
Theorem replaced_callbacks_serve_calls_in_flight
    (w : World) (r : nat) (c : Call) (cl : APIClient) (cbs : AuthCallbacks)
    (m : string) (j : option JSValue) :
  reachable w -> calls w !! r = Some c -> c_state c = InFlight ->
  clients w !! c_client c = Some cl ->
  let p := length (promises w) in
  let w' := run w [UpdateAuthCallbacks (c_client c) cbs;
                   Receive r (Response 401 m j)] in
  (forall handler,
      c_retryCount c = 0%nat -> isRefreshing cl = false ->
      onRefreshToken cbs = Some handler ->
      log w' = log w ++ [RefreshInvoked (c_client c) handler p; AwaitedRefresh r p] /\
      calls w' = <[r := advance c (c_authorization c) 1 (AwaitingRefresh p)]> (calls w)) /\
  (c_retryCount c = 1%nat ->
   log w' = log w ++ match onAuthError cbs with
                     | Some handler => [AuthErrorNotified (c_client c) handler]
                     | None => []
                     end /\
   calls w' = <[r := advance c (c_authorization c) 2 authFailure]> (calls w)).
Proof.
  intros Hreach Hr Hst Hcl p w'.
  destruct (call_hooks w r c Hreach Hr) as (Hk & Hretry & _).
  assert (Hlt : (c_client c < length (clients w))%nat)
    by (apply lookup_lt_is_Some; eauto).
  set (w1 := setClient w (c_client c) (updateAuthCallbacks cl cbs)).
  assert (Hw' : w' = receive w1 r (Response 401 m j)).
  { subst w' w1. unfold run. cbn [fold_left step]. now rewrite Hcl. }
  assert (Hreach1 : reachable w1).
  { replace w1 with (run w [UpdateAuthCallbacks (c_client c) cbs]).
    - now apply reachable_run.
    - unfold run. cbn [fold_left step]. now rewrite Hcl. }
  assert (Hr1 : calls w1 !! r = Some c) by exact Hr.
  assert (Hcl1 : clients w1 !! c_client c = Some (updateAuthCallbacks cl cbs)).
  { subst w1. cbn. now apply list_lookup_insert_eq. }
  split.
  - intros handler H0 Hflag Hh.
    rewrite Hw', (first_401_starts w1 r c _ cbs handler m j Hreach1 Hr1 Hst H0 Hcl1)
      by easy.
    cbn. fold p. rewrite <- app_assoc. easy.
  - intros H1.
    rewrite <- Hk in Hcl1.
    rewrite Hw', (receive_401_second w1 r c m j Hr1 Hst H1 Hretry) by eauto.
    destruct (authFailed_effects w1 r c 2) as (_ & _ & Hcalls & Hlog).
    rewrite Hcl1 in Hlog. cbn [authCallbacks updateAuthCallbacks] in Hlog.
    rewrite Hk in Hlog. easy.
Qed.

Lemma replaced_callbacks_serve_calls_in_flight_witness :
  log (run anonymousInFlight
         [UpdateAuthCallbacks 0 sampleCallbacks;
          Receive 0 (Response 401 "Unauthorized" None)]) =
    log anonymousInFlight ++ [RefreshInvoked 0 2 0; AwaitedRefresh 0 0] /\
  log (run retrying
         [UpdateAuthCallbacks 0 {| getTokens := 5; onAuthError := Some 6;
                                   onRefreshToken := Some 7 |};
          Receive 0 (Response 401 "Unauthorized" None)]) =
    log retrying ++ [AuthErrorNotified 0 6].
Proof.
  split.
  - assert (Hreach : reachable anonymousInFlight) by now eexists.
    pose proof (replaced_callbacks_serve_calls_in_flight anonymousInFlight 0 _
                  (newAPIClient 0 sampleConfig None) sampleCallbacks
                  "Unauthorized" None Hreach eq_refl eq_refl eq_refl) as H.
    cbv zeta in H. destruct H as (H & _).
    exact (proj1 (H 2%nat eq_refl eq_refl eq_refl)).
  - assert (Hreach : reachable retrying) by now eexists.
    pose proof (replaced_callbacks_serve_calls_in_flight retrying 0 _
                  (newAPIClient 0 sampleConfig (Some sampleCallbacks))
                  {| getTokens := 5; onAuthError := Some 6; onRefreshToken := Some 7 |}
                  "Unauthorized" None Hreach eq_refl eq_refl eq_refl) as H.
    cbv zeta in H. destruct H as (_ & H).
    exact (proj1 (H eq_refl)).
Defined.

(** ** The retry budget of a call *)

Lemma fetches_app (r : nat) (l1 l2 : list Effect) :
  fetches r (l1 ++ l2) = (fetches r l1 + fetches r l2)%nat.
Proof. unfold fetches. now rewrite List.filter_app, length_app. Qed.

Lemma within_budget_le (n : nat) (c : Call) : within_budget n c -> (n <= 3)%nat.
Proof. unfold within_budget. destruct (c_state c); lia. Qed.

Lemma budget_same (w w' : World) :
  calls w' = calls w -> (forall r, fetches r (log w') = fetches r (log w)) ->
  fetch_budget w -> fetch_budget w'.
Proof. intros Hc Hl H r. rewrite Hc, Hl. apply H. Qed.

Lemma budget_set (w w' : World) (r : nat) (c c' : Call) :
  fetch_budget w -> calls w !! r = Some c ->
  calls w' = <[r := c']> (calls w) ->
  (forall r', fetches r' (log w') = fetches r' (log w)) ->
  (within_budget (fetches r (log w)) c -> within_budget (fetches r (log w)) c') ->
  fetch_budget w'.
Proof.
  intros H Hr Hc Hl Hok r'. rewrite Hc, Hl.
  destruct (decide (r' = r)) as [->|Hne].
  - rewrite list_lookup_insert_eq by exact (lookup_lt_Some _ _ _ Hr).
    apply Hok. specialize (H r). now rewrite Hr in H.
  - rewrite list_lookup_insert_ne by congruence. apply H.
Qed.

Lemma budget_setCall (w : World) (r : nat) (c c' : Call) :
  fetch_budget w -> calls w !! r = Some c ->
  (within_budget (fetches r (log w)) c -> within_budget (fetches r (log w)) c') ->
  fetch_budget (setCall w r c').
Proof.
  intros H Hr Hok. now apply (budget_set w (setCall w r c') r c c').
Qed.

Lemma refreshTokens_frame (w : World) (this : nat) (cl : APIClient) :
  calls (fst (refreshTokens w this cl)) = calls w /\
  forall r, fetches r (log (fst (refreshTokens w this cl))) = fetches r (log w).
Proof.
  unfold refreshTokens. destruct (authCallbacks cl) as [cbs|]; [|easy].
  assert (H : forall handler : Handler,
    calls (emit (setClient (allocPromise w Pending this) this
                   (withRefresh cl true (Some (length (promises w)))))
                (RefreshInvoked this handler (length (promises w)))) = calls w /\
    forall r, fetches r (log (emit (setClient (allocPromise w Pending this) this
                   (withRefresh cl true (Some (length (promises w)))))
                (RefreshInvoked this handler (length (promises w))))) = fetches r (log w)).
  { intros handler. split; [reflexivity |]. intros r. cbn [log emit setClient allocPromise]. rewrite fetches_app.
    cbn. lia. }
  destruct (isRefreshing cl), (refreshPromise cl), (onRefreshToken cbs); cbn [fst];
    first [apply H | easy].
Qed.

Lemma budget_authFailed (w : World) (r : nat) (c : Call) (n : nat) :
  fetch_budget w -> calls w !! r = Some c -> fetch_budget (authFailed w r c n).
Proof.
  intros H Hr. destruct (authFailed_effects w r c n) as (_ & _ & Hcalls & Hlog).
  apply (budget_set w _ r c _ H Hr Hcalls).
  - intros r'. rewrite Hlog, fetches_app.
    destruct (clients w !! ky_hooks (c_ky c)) as [cl|]; [|cbn; lia].
    destruct (authCallbacks cl) as [cbs|]; [|cbn; lia].
    destruct (onAuthError cbs); cbn; lia.
  - intros Hok. apply within_budget_le in Hok. exact Hok.
Qed.

Lemma budget_beforeRetry (w : World) (r : nat) (c : Call) (e : Thrown) :
  fetch_budget w -> calls w !! r = Some c ->
  c_state c = InFlight \/ c_state c = Starting ->
  (S (c_retryCount c) <= 2)%nat ->
  fetch_budget (beforeRetry w r c e (S (c_retryCount c))).
Proof.
  intros H Hr Hst Hle.
  assert (Hnext : forall st,
    st = Starting \/ (exists p, st = AwaitingRefresh p) ->
    within_budget (fetches r (log w)) c ->
    within_budget (fetches r (log w))
      (advance c (c_authorization c) (S (c_retryCount c)) st)).
  { intros st Hst' Hok. unfold within_budget in *. cbn [c_state c_retryCount advance].
    destruct Hst as [Hst|Hst]; rewrite Hst in Hok;
      destruct Hst' as [->|[p ->]]; lia. }
  assert (Hagain : fetch_budget
            (setCall w r (advance c (c_authorization c) (S (c_retryCount c)) Starting))).
  { apply (budget_setCall w r c _ H Hr). apply Hnext. now left. }
  unfold beforeRetry. destruct e; try exact Hagain.
  destruct (status =? 401)%Z; [|exact Hagain].
  destruct (clients w !! ky_hooks (c_ky c)) as [cl|]; [|exact H].
  destruct (_ && _); [|now apply budget_authFailed].
  destruct (refreshTokens_frame w (ky_hooks (c_ky c)) cl) as (Hc & Hl).
  destruct (refreshTokens w (ky_hooks (c_ky c)) cl) as [w1 p]. cbn [fst] in Hc, Hl.
  apply (budget_set w _ r c (advance c (c_authorization c) (S (c_retryCount c))
                               (AwaitingRefresh p)) H Hr).
  - cbn. now rewrite Hc.
  - intros r'. cbn [log emit setCall]. rewrite fetches_app, Hl. cbn. lia.
  - apply Hnext. right. now exists p.
Qed.

Lemma budget_kyFailed (w : World) (r : nat) (c : Call) (e : Thrown) :
  fetch_budget w -> calls w !! r = Some c ->
  c_state c = InFlight \/ c_state c = Starting ->
  ky_retry (c_ky c) = clientRetry ->
  fetch_budget (kyFailed w r c e).
Proof.
  intros H Hr Hst Hretry. unfold kyFailed, settle. rewrite Hretry.
  cbn [limit clientRetry].
  destruct (bool_decide _).
  - destruct (2 <? S (c_retryCount c))%nat eqn:Hlim.
    + apply (budget_setCall w r c _ H Hr).
      intros Hok. apply within_budget_le in Hok. exact Hok.
    + apply Nat.ltb_ge in Hlim. cbn [orb].
      destruct (_ || _).
      * apply (budget_setCall w r c _ H Hr).
        intros Hok. apply within_budget_le in Hok. exact Hok.
      * now apply budget_beforeRetry.
  - apply (budget_setCall w r c _ H Hr).
    intros Hok. apply within_budget_le in Hok. exact Hok.
Qed.

Lemma budget_step (w : World) (ev : Event) :
  wf w -> fetch_budget w -> fetch_budget (step w ev).
Proof.
  intros Hwf H. destruct Hwf as (_ & Hcalls & _).
  destruct ev; cbn [step].
  - now apply (budget_same w).
  - destruct (clients w !! this); [now apply (budget_same w) | exact H].
  - unfold refreshAuth. destruct (clients w !! this) as [cl|]; [|exact H].
    destruct (authCallbacks cl); [|exact H].
    destruct (refreshTokens_frame w this cl) as (Hc & Hl).
    now apply (budget_same w).
  - destruct (clients w !! this) as [cl|] eqn:Hcl;
      [|unfold request; now rewrite Hcl].
    destruct (request_new_call w this cl endpoint params query body Hcl)
      as (c & Hc & Hl & _ & _ & _ & _ & _ & _ & H0 & _ & _ & Hst).
    intros r. rewrite Hc, Hl. specialize (H r).
    destruct (lt_eq_lt_dec r (length (calls w))) as [[Hlt| ->]|Hgt].
    + rewrite lookup_app_l by exact Hlt. exact H.
    + rewrite list_lookup_middle by reflexivity.
      rewrite lookup_ge_None_2 in H by lia. rewrite H.
      unfold within_budget. rewrite H0.
      destruct Hst as [->|(e & ->)]; lia.
    + rewrite lookup_ge_None_2 by (rewrite length_app; cbn; lia).
      now rewrite lookup_ge_None_2 in H by lia.
  - unfold send. destruct (calls w !! call) as [c|] eqn:Hr; [|exact H].
    destruct (c_state c) eqn:Hst; try exact H.
    destruct (clients w !! ky_hooks (c_ky c)) as [cl|]; [|exact H].
    assert (Hfetch : forall auth,
      fetch_budget (emit (setCall w call (advance c auth (c_retryCount c) InFlight))
                         (Fetched call))).
    { intros auth r. cbn [log calls emit setCall]. rewrite fetches_app. specialize (H r).
      destruct (decide (r = call)) as [->|Hne].
      - rewrite list_lookup_insert_eq by exact (lookup_lt_Some _ _ _ Hr).
        rewrite Hr in H. unfold within_budget in *. rewrite Hst in H.
        cbn. rewrite Nat.eqb_refl. cbn. lia.
      - rewrite list_lookup_insert_ne by congruence.
        cbn. replace (call =? r)%nat with false
          by (symmetry; apply Nat.eqb_neq; congruence).
        cbn. now rewrite Nat.add_0_r. }
    destruct (authCallbacks cl), tok; try apply Hfetch.
    apply budget_kyFailed; auto. apply (Hcalls _ _ Hr).
  - unfold receive. destruct (calls w !! call) as [c|] eqn:Hr; [|exact H].
    destruct (c_state c) eqn:Hst; try exact H.
    assert (Hretry : ky_retry (c_ky c) = clientRetry) by apply (Hcalls _ _ Hr).
    destruct res as [status message json|timeout message].
    + destruct (responseOk status); [|apply budget_kyFailed; auto].
      apply (budget_setCall w call c _ H Hr).
      intros Hok. apply within_budget_le in Hok. exact Hok.
    + apply budget_kyFailed; auto.
  - unfold settleRefresh. destruct (promises w !! promise) as [cell|]; [|exact H].
    destruct (p_state cell); try exact H. cbn.
    destruct (clients w !! p_owner cell); now apply (budget_same w).
  - unfold resume. destruct (calls w !! call) as [c|] eqn:Hr; [|exact H].
    destruct (c_state c) eqn:Hst; try exact H.
    destruct (promises w !! p) as [cell|]; [|exact H].
    destruct (p_state cell); [exact H | |now apply budget_authFailed].
    destruct tok; [|now apply budget_authFailed].
    apply (budget_setCall w call c _ H Hr).
    unfold within_budget. cbn. now rewrite Hst.
Qed.

Lemma budget_reachable (w : World) : reachable w -> fetch_budget w.
Proof.
  intros [evs ->].
  assert (H : forall evs w0, wf w0 -> fetch_budget w0 -> fetch_budget (run w0 evs)).
  { clear evs. induction evs as [|ev evs IH]; intros w0 Hwf Hb; [exact Hb |].
    cbn. apply IH; [now apply wf_step | now apply budget_step]. }
  apply H; [apply wf_initial |]. intros r. reflexivity.
Qed.

(** X16. ky's retry budget bounds every call: whatever the network answers
    and whenever the hooks run, a call is put on the network three times at
    most (the first attempt and two retries), and a call that is waiting to
    be sent, waiting for the network or waiting for a refresh has failed at
    most twice so far. *)
Theorem at_most_three_fetches (w : World) (r : nat) :
  reachable w ->
  (fetches r (log w) <= 3)%nat /\
  forall c, calls w !! r = Some c ->
    (forall o, c_state c <> Settled o) -> (c_retryCount c <= 2)%nat.
Proof.
  intros Hreach. pose proof (budget_reachable w Hreach r) as H.
  destruct (calls w !! r) as [c|] eqn:Hr.
  - split; [exact (within_budget_le _ _ H) |].
    intros c' [= <-] Hns. unfold within_budget in H.
    destruct (c_state c); try lia. now destruct (Hns result).
  - split; [lia | discriminate].
Qed.

Lemma at_most_three_fetches_witness :
  fetches 0 (log threeAttempts) = 3%nat /\
  (fetches 0 (log (step threeAttempts (Receive 0 (Failure false "fetch failed"))))
     <= 3)%nat.
Proof.
  split; [reflexivity |].
  refine (proj1 (at_most_three_fetches
                   (step threeAttempts (Receive 0 (Failure false "fetch failed"))) 0 _)).
  exists [Construct sampleConfig (Some sampleCallbacks);
          Request 0 getUser (Some [("id", JStr "42")]) None JUndefined;
          Send 0 (token "t");
          Receive 0 (Failure false "fetch failed");
          Send 0 (token "t");
          Receive 0 (Failure false "fetch failed");
          Send 0 (token "t");
          Receive 0 (Failure false "fetch failed")].
  reflexivity.
Defined.

(** ** What a call is rejected with *)

Lemma classified_catch (e : Thrown) :
  thrownInTry e = true -> classified (request_catch e) = true.
Proof.
  destruct e; cbn; try easy.
  intros H. destruct (getProp _ _); [exact H | reflexivity].
Qed.

Lemma rejections_setCall (w : World) (r : nat) (c' : Call) :
  rejections_ok w ->
  (forall e, c_state c' = Settled (Threw e) -> classified e = true) ->
  rejections_ok (setCall w r c').
Proof.
  intros H Hc' r' c e. cbn [calls setCall]. intros Hr' Hst.
  destruct (decide (r' = r)) as [->|Hne].
  - apply list_lookup_insert_Some in Hr' as [(_ & <- & _)|(Hne & _)];
      [now apply Hc' | congruence].
  - rewrite list_lookup_insert_ne in Hr' by congruence. exact (H _ _ _ Hr' Hst).
Qed.

Lemma rejections_same (w w' : World) :
  calls w' = calls w -> rejections_ok w -> rejections_ok w'.
Proof. intros Hc H r c e. rewrite Hc. apply H. Qed.

Lemma rejections_settled (w : World) (r : nat) (c : Call) (auth : option string)
    (n : nat) (e : Thrown) :
  rejections_ok w -> thrownInTry e = true ->
  rejections_ok (setCall w r (advance c auth n (Settled (request_settle (Threw e))))).
Proof.
  intros H He. apply rejections_setCall; [exact H |].
  intros e' [= <-]. now apply classified_catch.
Qed.

Lemma rejections_authFailed (w : World) (r : nat) (c : Call) (n : nat) :
  rejections_ok w -> rejections_ok (authFailed w r c n).
Proof.
  intros H. destruct (authFailed_effects w r c n) as (_ & _ & Hcalls & _).
  intros r' c' e. rewrite Hcalls. intros Hr' Hst.
  destruct (decide (r' = r)) as [->|Hne].
  - apply list_lookup_insert_Some in Hr' as [(_ & <- & _)|(Hne & _)];
      [|congruence].
    cbn in Hst. now injection Hst as <-.
  - rewrite list_lookup_insert_ne in Hr' by congruence. exact (H _ _ _ Hr' Hst).
Qed.

Lemma rejections_beforeRetry (w : World) (r : nat) (c : Call) (e : Thrown) (n : nat) :
  rejections_ok w -> rejections_ok (beforeRetry w r c e n).
Proof.
  intros H.
  assert (Hagain : rejections_ok
            (setCall w r (advance c (c_authorization c) n Starting))).
  { apply rejections_setCall; [exact H | discriminate]. }
  unfold beforeRetry. destruct e; try exact Hagain.
  destruct (status =? 401)%Z; [|exact Hagain].
  destruct (clients w !! ky_hooks (c_ky c)) as [cl|]; [|exact H].
  destruct (_ && _); [|now apply rejections_authFailed].
  destruct (refreshTokens_frame w (ky_hooks (c_ky c)) cl) as (Hc & _).
  destruct (refreshTokens w (ky_hooks (c_ky c)) cl) as [w1 p]. cbn [fst] in Hc.
  apply (rejections_same (setCall w1 r (advance c (c_authorization c) n
                                          (AwaitingRefresh p)))); [reflexivity |].
  apply rejections_setCall; [|discriminate].
  now apply (rejections_same w).
Qed.

Lemma rejections_kyFailed (w : World) (r : nat) (c : Call) (e : Thrown) :
  rejections_ok w -> thrownInTry e = true -> rejections_ok (kyFailed w r c e).
Proof.
  intros H He. unfold kyFailed, settle.
  destruct (bool_decide _); [|now apply rejections_settled].
  destruct (_ || _); [now apply rejections_settled |].
  now apply rejections_beforeRetry.
Qed.

Lemma rejections_step (w : World) (ev : Event) :
  rejections_ok w -> rejections_ok (step w ev).
Proof.
  intros H. destruct ev; cbn [step].
  - now apply (rejections_same w).
  - destruct (clients w !! this); [now apply (rejections_same w) | exact H].
  - unfold refreshAuth. destruct (clients w !! this) as [cl|]; [|exact H].
    destruct (authCallbacks cl); [|exact H].
    destruct (refreshTokens_frame w this cl) as (Hc & _).
    now apply (rejections_same w).
  - unfold request. destruct (clients w !! this) as [cl|]; [|exact H].
    unfold request_begin.
    assert (Hadd : forall c,
      (forall e, c_state c = Settled (Threw e) -> classified e = true) ->
      rejections_ok (addCall w c)).
    { intros c Hc r c' e. cbn [calls addCall]. intros Hr Hst.
      apply lookup_app_Some in Hr as [Hr|(_ & Hr)]; [exact (H _ _ _ Hr Hst) |].
      apply list_lookup_singleton_Some in Hr as (_ & <-). now apply Hc. }
    destruct (attachBody endpoint body (queryOptions endpoint query)) as [o|e] eqn:Hb.
    + destruct (kyRejectsInput _ _); apply Hadd; cbn; [|discriminate].
      now intros e [= <-].
    + apply Hadd. cbn. intros e' [= <-]. apply classified_catch.
      unfold attachBody in Hb.
      destruct (truthy body && negb (isGET (ep_method endpoint))); [|discriminate].
      destruct (ep_body endpoint) as [schema|]; [|discriminate].
      destruct (parse schema body); [discriminate |]. now injection Hb as <-.
  - unfold send. destruct (calls w !! call) as [c|]; [|exact H].
    destruct (c_state c); try exact H.
    destruct (clients w !! ky_hooks (c_ky c)) as [cl|]; [|exact H].
    assert (Hfetch : forall auth,
      rejections_ok (emit (setCall w call (advance c auth (c_retryCount c) InFlight))
                          (Fetched call))).
    { intros auth.
      apply (rejections_same (setCall w call (advance c auth (c_retryCount c) InFlight)));
        [reflexivity |].
      apply rejections_setCall; [exact H | discriminate]. }
    destruct (authCallbacks cl), tok; try apply Hfetch.
    now apply rejections_kyFailed.
  - unfold receive. destruct (calls w !! call) as [c|]; [|exact H].
    destruct (c_state c); try exact H.
    destruct res as [status message json|timeout message].
    + destruct (responseOk status) eqn:Hok.
      * unfold settle. apply rejections_setCall; [exact H |].
        unfold request_end. cbn [c_state advance].
        destruct json as [data|]; [|now intros e [= <-]].
        destruct (ep_response (c_endpoint c)) as [schema|]; [|discriminate].
        destruct (parse schema data); [discriminate | now intros e [= <-]].
      * apply rejections_kyFailed; [exact H |]. cbn. now rewrite Hok.
    + apply rejections_kyFailed; [exact H |]. now destruct timeout.
  - unfold settleRefresh. destruct (promises w !! promise) as [cell|]; [|exact H].
    destruct (p_state cell); try exact H. cbn.
    destruct (clients w !! p_owner cell); now apply (rejections_same w).
  - unfold resume. destruct (calls w !! call) as [c|]; [|exact H].
    destruct (c_state c); try exact H.
    destruct (promises w !! p) as [cell|]; [|exact H].
    destruct (p_state cell); [exact H | |now apply rejections_authFailed].
    destruct tok; [|now apply rejections_authFailed].
    apply rejections_setCall; [exact H | discriminate].
Qed.

(** X17. Every rejection of [request] is classified. Whatever the events,
    a call is never rejected with a raw schema error, HTTP error or
    transport error: it is rejected with the [AuthError] of the hooks, or
    with an [APIError] whose status is 0 or the status of a response that
    was not a success; the one exception is the [TypeError] that
    [errorData.message] raises inside the catch block when the error body
    is the JSON value [null]. *)
Theorem rejections_are_classified
    (w : World) (r : nat) (c : Call) (e : Thrown) :
  reachable w -> calls w !! r = Some c -> c_state c = Settled (Threw e) ->
  e = AuthError "Authentication failed" \/
  (exists message status data,
      e = APIError message status data /\ responseOk status = false) \/
  e = OtherError "Cannot read properties of null (reading 'message')".
Proof.
  intros [evs ->] Hr Hst.
  assert (H : forall evs w0, rejections_ok w0 -> rejections_ok (run w0 evs)).
  { clear. induction evs as [|ev evs IH]; intros w0 H0; [exact H0 |].
    cbn. apply IH. now apply rejections_step. }
  assert (H0 : rejections_ok initial) by (intros r' c' e' Hr'; discriminate).
  pose proof (H evs initial H0 r c e Hr Hst) as Hcl.
  destruct e; cbn in Hcl; try discriminate.
  - left. apply String.eqb_eq in Hcl. now subst.
  - right. left. exists message, status, response.
    split; [reflexivity |]. now destruct (responseOk status).
  - right. right. apply String.eqb_eq in Hcl. now subst.
Qed.

Lemma rejections_are_classified_witness :
  let w' := step twoInFlight (Receive 1 (Response 200 "" (Some (JStr "oops")))) in
  exists c e,
    calls w' !! 1%nat = Some c /\ c_state c = Settled (Threw e) /\
    (e = AuthError "Authentication failed" \/
     (exists message status data,
         e = APIError message status data /\ responseOk status = false) \/
     e = OtherError "Cannot read properties of null (reading 'message')").
Proof.
  cbv zeta. eexists _, _. split; [reflexivity |]. split; [reflexivity |].
  refine (rejections_are_classified
            (step twoInFlight (Receive 1 (Response 200 "" (Some (JStr "oops")))))
            1 _ _ _ eq_refl eq_refl).
  exists [Construct sampleConfig (Some sampleCallbacks);
          Request 0 getUser (Some [("id", JStr "42")]) None JUndefined;
          Request 0 createUser None None (JObj [("name", JStr "Ann")]);
          Send 0 (token "stale"); Send 1 (token "stale");
          Receive 1 (Response 200 "" (Some (JStr "oops")))].
  reflexivity.
Defined.

(** ** The Authorization header *)

Lemma bearer_header (t : option AuthTokens) (current : option string) :
  bearerHeader current -> bearerHeader (bearer t current).
Proof.
  intros H. unfold bearer. destruct t as [tokens|]; [|exact H].
  destruct (isEmptyString (accessToken tokens)) eqn:E; [exact H |].
  exists tokens. split; [|reflexivity]. intros Hempty. rewrite Hempty in E.
  discriminate.
Qed.

Lemma headers_setCall (w : World) (r : nat) (c' : Call) :
  headers_ok w -> (r < length (calls w) -> bearerHeader (c_authorization c'))%nat ->
  headers_ok (setCall w r c').
Proof.
  intros H Hc' r' c. cbn [calls setCall]. intros Hr'.
  destruct (decide (r' = r)) as [->|Hne].
  - apply list_lookup_insert_Some in Hr' as [(_ & <- & Hlt)|(Hne & _)];
      [now apply Hc' | congruence].
  - rewrite list_lookup_insert_ne in Hr' by congruence. exact (H _ _ Hr').
Qed.

Lemma headers_same (w w' : World) :
  calls w' = calls w -> headers_ok w -> headers_ok w'.
Proof. intros Hc H r c. rewrite Hc. apply H. Qed.

Lemma headers_authFailed (w : World) (r : nat) (c : Call) (n : nat) :
  headers_ok w -> calls w !! r = Some c -> headers_ok (authFailed w r c n).
Proof.
  intros H Hr. destruct (authFailed_effects w r c n) as (_ & _ & Hcalls & _).
  apply (headers_same (setCall w r (advance c (c_authorization c) n
            (Settled (Threw (AuthError "Authentication failed")))))); [exact Hcalls |].
  apply headers_setCall; [exact H |]. intros _. exact (H _ _ Hr).
Qed.

Lemma headers_beforeRetry (w : World) (r : nat) (c : Call) (e : Thrown) (n : nat) :
  headers_ok w -> calls w !! r = Some c -> headers_ok (beforeRetry w r c e n).
Proof.
  intros H Hr.
  assert (Hagain : headers_ok
            (setCall w r (advance c (c_authorization c) n Starting))).
  { apply headers_setCall; [exact H |]. intros _. exact (H _ _ Hr). }
  unfold beforeRetry. destruct e; try exact Hagain.
  destruct (status =? 401)%Z; [|exact Hagain].
  destruct (clients w !! ky_hooks (c_ky c)) as [cl|]; [|exact H].
  destruct (_ && _); [|now apply headers_authFailed].
  destruct (refreshTokens_frame w (ky_hooks (c_ky c)) cl) as (Hc & _).
  destruct (refreshTokens w (ky_hooks (c_ky c)) cl) as [w1 p]. cbn [fst] in Hc.
  apply (headers_same (setCall w1 r (advance c (c_authorization c) n
                                       (AwaitingRefresh p)))); [reflexivity |].
  apply headers_setCall; [now apply (headers_same w) |]. intros _. exact (H _ _ Hr).
Qed.

Lemma headers_kyFailed (w : World) (r : nat) (c : Call) (e : Thrown) :
  headers_ok w -> calls w !! r = Some c -> headers_ok (kyFailed w r c e).
Proof.
  intros H Hr. unfold kyFailed, settle.
  assert (Hset : forall n st,
    headers_ok (setCall w r (advance c (c_authorization c) n st))).
  { intros n st. apply headers_setCall; [exact H |]. intros _. exact (H _ _ Hr). }
  destruct (bool_decide _); [|apply Hset].
  destruct (_ || _); [apply Hset |]. now apply headers_beforeRetry.
Qed.

Lemma headers_step (w : World) (ev : Event) :
  headers_ok w -> headers_ok (step w ev).
Proof.
  intros H. destruct ev; cbn [step].
  - now apply (headers_same w).
  - destruct (clients w !! this); [now apply (headers_same w) | exact H].
  - unfold refreshAuth. destruct (clients w !! this) as [cl|]; [|exact H].
    destruct (authCallbacks cl); [|exact H].
    destruct (refreshTokens_frame w this cl) as (Hc & _).
    now apply (headers_same w).
  - destruct (clients w !! this) as [cl|] eqn:Hcl;
      [|unfold request; now rewrite Hcl].
    assert (Hadd : forall c, c_authorization c = None -> headers_ok (addCall w c)).
    { intros c Hc r c'. cbn [calls addCall]. intros Hr.
      apply lookup_app_Some in Hr as [Hr|(_ & Hr)]; [exact (H _ _ Hr) |].
      apply list_lookup_singleton_Some in Hr as (_ & <-). now rewrite Hc. }
    unfold request. rewrite Hcl. unfold request_begin.
    destruct (attachBody endpoint body (queryOptions endpoint query));
      [destruct (kyRejectsInput _ _) |]; now apply Hadd.
  - unfold send. destruct (calls w !! call) as [c|] eqn:Hr; [|exact H].
    destruct (c_state c); try exact H.
    destruct (clients w !! ky_hooks (c_ky c)) as [cl|]; [|exact H].
    assert (Hfetch : forall auth, bearerHeader auth ->
      headers_ok (emit (setCall w call (advance c auth (c_retryCount c) InFlight))
                       (Fetched call))).
    { intros auth Hauth.
      apply (headers_same (setCall w call (advance c auth (c_retryCount c) InFlight)));
        [reflexivity |].
      now apply headers_setCall. }
    pose proof (H _ _ Hr) as Hcur.
    destruct (authCallbacks cl), tok; try (apply Hfetch; exact Hcur).
    + apply Hfetch. now apply bearer_header.
    + now apply headers_kyFailed.
  - unfold receive. destruct (calls w !! call) as [c|] eqn:Hr; [|exact H].
    destruct (c_state c); try exact H.
    destruct res as [status message json|timeout message].
    + destruct (responseOk status); [|now apply headers_kyFailed].
      unfold settle. apply headers_setCall; [exact H |]. intros _. exact (H _ _ Hr).
    + now apply headers_kyFailed.
  - unfold settleRefresh. destruct (promises w !! promise) as [cell|]; [|exact H].
    destruct (p_state cell); try exact H. cbn.
    destruct (clients w !! p_owner cell); now apply (headers_same w).
  - unfold resume. destruct (calls w !! call) as [c|] eqn:Hr; [|exact H].
    destruct (c_state c); try exact H.
    destruct (promises w !! p) as [cell|]; [|exact H].
    destruct (p_state cell); [exact H | |now apply headers_authFailed].
    destruct tok; [|now apply headers_authFailed].
    apply headers_setCall; [exact H |]. intros _.
    apply bearer_header. exact (H _ _ Hr).
Qed.

(** X18. The Authorization header of a call is never malformed: at every
    moment it is absent or it is [Bearer] followed by a non-empty access
    token; and a call of a client that has no callbacks when the request is
    sent keeps the header it had (none, for a first attempt). *)
Theorem authorization_is_bearer_or_absent (w : World) (r : nat) (c : Call) :
  reachable w -> calls w !! r = Some c ->
  bearerHeader (c_authorization c) /\
  forall cl tok,
    c_state c = Starting -> clients w !! c_client c = Some cl ->
    authCallbacks cl = None ->
    calls (step w (Send r tok)) !! r =
      Some (advance c (c_authorization c) (c_retryCount c) InFlight).
Proof.
  intros Hreach Hr. split.
  - destruct Hreach as [evs ->].
    assert (H : forall evs w0, headers_ok w0 -> headers_ok (run w0 evs)).
    { clear. induction evs as [|ev evs IH]; intros w0 H0; [exact H0 |].
      cbn. apply IH. now apply headers_step. }
    apply (H evs initial) with (r := r); [|exact Hr]. intros r' c' Hr'. discriminate.
  - intros cl tok Hst Hcl Hcbs.
    destruct (call_hooks w r c Hreach Hr) as (Hk & _).
    cbn [step]. unfold send. rewrite Hr, Hst, Hk, Hcl, Hcbs. cbn.
    apply list_lookup_insert_eq. exact (lookup_lt_Some _ _ _ Hr).
Qed.

Lemma authorization_is_bearer_or_absent_witness :
  exists c, calls retrying !! 0%nat = Some c /\
            c_authorization c = Some "Bearer fresh" /\
            bearerHeader (c_authorization c).
Proof.
  eexists. split; [reflexivity |]. split; [reflexivity |].
  refine (proj1 (authorization_is_bearer_or_absent retrying 0 _ _ eq_refl)).
  now eexists.
Defined.

(** ** Generated call sites *)

(** X19. The call a generated server action makes fits the method of the
    runtime client except for the endpoints that declare both path
    parameters and a body. For a mutation endpoint with at most one of the
    two, the text between the parentheses of [serverClient.name(...)] is the
    list of the method's formal parameters. With both, the action passes the
    single argument [input] to a method that takes [(params, body)]: the
    method then runs [request] without a body, so nothing is sent as JSON,
    whatever [input] holds. *)
Theorem server_action_call_shape
    (w : World) (this : nat) (cl : APIClient) (name : string)
    (endpoint : APIEndpoint) :
  clients w !! this = Some cl ->
  In (name, endpoint) (serverActionEndpoints (config cl)) ->
  In (name, (endpoint, methodShape endpoint)) (generateMethods cl) /\
  (hasParams endpoint && hasBody endpoint = false ->
   actionInputParam endpoint = joinWith ", " (methodFormals (methodShape endpoint))) /\
  (hasParams endpoint && hasBody endpoint = true ->
   actionInputParam endpoint = "input" /\
   methodFormals (methodShape endpoint) = ["params"; "body"] /\
   forall input, exists c,
     calls (invokeMethod w this (endpoint, methodShape endpoint)
              (Some input) None JUndefined) = calls w ++ [c] /\
     c_endpoint c = endpoint /\
     c_path c = buildPath (ep_path endpoint) (Some input) /\
     opt_json (c_options c) = None).
Proof.
  intros Hcl Hin. unfold serverActionEndpoints in Hin.
  apply List.filter_In in Hin as [Hin Hmut].
  unfold isMutationEndpoint, isQueryEndpoint in Hmut.
  apply negb_true_iff in Hmut.
  split; [unfold generateMethods; apply in_map_iff; now exists (name, endpoint) |].
  unfold actionInputParam, methodShape, hasParams, hasBody. rewrite Hmut.
  split.
  - intros Hboth. rewrite Hboth.
    destruct (isSome (ep_params endpoint)), (isSome (ep_body endpoint));
      try discriminate; reflexivity.
  - intros Hboth. rewrite Hboth. split; [reflexivity |]. split; [reflexivity |].
    intros input. unfold invokeMethod. cbn [fst snd methodArgs].
    destruct (request_new_call w this cl endpoint (Some input) None JUndefined Hcl)
      as (c & Hcalls & _ & _ & _ & _ & Hep & _ & Hpath & _ & _ & Hopt & _).
    exists c. split; [exact Hcalls |]. split; [exact Hep |]. split; [exact Hpath |].
    destruct Hopt as [->|Hbody]; [apply queryOptions_json |].
    unfold attachBody in Hbody. cbn [truthy andb] in Hbody.
    injection Hbody as <-. reflexivity.
Qed.

Lemma server_action_call_shape_witness :
  let w := run initial [Construct adminConfig None] in
  actionInputParam updateUser = "input" /\
  methodFormals (methodShape updateUser) = ["params"; "body"] /\
  exists c,
    calls (invokeMethod w 0 (updateUser, methodShape updateUser)
             (Some [("params", JObj [("id", JStr "42")]);
                    ("body", JObj [("name", JStr "Ann")])])
             None JUndefined) = calls w ++ [c] /\
    c_path c = "users/:id" /\ opt_json (c_options c) = None.
Proof.
  cbv zeta.
  destruct (server_action_call_shape (run initial [Construct adminConfig None]) 0
              (newAPIClient 0 adminConfig None) "updateUser" updateUser)
    as (_ & _ & H).
  - reflexivity.
  - cbn. tauto.
  - destruct (H eq_refl) as (Ha & Hf & Hc).
    split; [exact Ha |]. split; [exact Hf |].
    destruct (Hc [("params", JObj [("id", JStr "42")]);
                  ("body", JObj [("name", JStr "Ann")])])
      as (c & Hcalls & _ & Hpath & Hjson).
    exists c. split; [exact Hcalls |]. split; [|exact Hjson].
    rewrite Hpath. reflexivity.
Defined.

(** X20. The generated browser client and the mutation hooks call the
    runtime methods in the shapes [generateMethods] defines: for every entry
    of the registry the wrapper [apiClient.name] passes its own parameters
    on, and they are the formal parameters of the runtime method of that
    name; a mutation hook is generated for the entries that are not GET, and
    the arguments of its [apiClient.name(...)] are those parameters too. *)
Theorem generated_wrappers_fit_methods
    (cl : APIClient) (name : string) (endpoint : APIEndpoint) :
  In (name, endpoint) (cfg_endpoints (config cl)) ->
  In (name, (endpoint, methodShape endpoint)) (generateMethods cl) /\
  apiClientCallArgs endpoint = methodFormals (methodShape endpoint) /\
  (In (name, endpoint) (mutationHookEndpoints (config cl)) <->
   isGET (ep_method endpoint) = false) /\
  (isGET (ep_method endpoint) = false ->
   mutationFnCallArgs endpoint = apiClientCallArgs endpoint).
Proof.
  intros Hin.
  split; [unfold generateMethods; apply in_map_iff; now exists (name, endpoint) |].
  split; [|split].
  - unfold apiClientCallArgs, methodShape.
    destruct (isGET _), (isSome (ep_params endpoint)),
      (isSome (ep_query endpoint)), (isSome (ep_body endpoint)); reflexivity.
  - unfold mutationHookEndpoints. rewrite List.filter_In, negb_true_iff. tauto.
  - intros Hget. unfold mutationFnCallArgs, apiClientCallArgs. now rewrite Hget.
Qed.

Lemma generated_wrappers_fit_methods_witness :
  apiClientCallArgs updateUser = ["params"; "body"] /\
  methodFormals (methodShape updateUser) = ["params"; "body"] /\
  mutationFnCallArgs updateUser = ["params"; "body"].
Proof.
  destruct (generated_wrappers_fit_methods (newAPIClient 0 adminConfig None)
              "updateUser" updateUser) as (_ & Hw & _ & Hm).
  - cbn. tauto.
  - split; [reflexivity |]. split; [rewrite <- Hw; reflexivity |].
    rewrite (Hm eq_refl). reflexivity.
Defined.

Lemma firstSegment_leading_slash (path segment : string) :
  firstSegment path = Some segment -> startsWithSlash path = true.
Proof.
  destruct path as [|c rest]; [discriminate |]. cbn.
  now destruct (Ascii.eqb c "/").
Qed.

Lemma request_leading_slash (w : World) (this : nat) (cl : APIClient)
    (endpoint : APIEndpoint) (params query : option Params) (body : JSValue) :
  reachable w -> clients w !! this = Some cl ->
  truthyUrl (getEndpointBaseUrl cl endpoint) = true ->
  startsWithSlash (ep_path endpoint) = true ->
  exists c o,
    request w this endpoint params query body = addCall w c /\
    c_state c = Settled o.
Proof.
  intros Hreach Hcl Hbase Hslash.
  unfold request, request_begin. rewrite Hcl.
  unfold kyRejectsInput.
  rewrite (getClientForEndpoint_prefix w this cl endpoint Hreach Hcl), Hbase.
  rewrite buildPath_leading_slash by exact Hslash. cbn [andb].
  destruct (attachBody endpoint body (queryOptions endpoint query));
    eexists _, _; split; reflexivity.
Qed.

(** X21. The resource names the generators derive from paths and a base URL
    at run time exclude each other. [getResourceFromEndpoint] takes the
    first path segment only from a path that begins with a slash, and such
    a path is refused by a client whose effective base URL is set. So an
    endpoint without a resource tag that such a client accepts for sending
    is filed under [general], whatever its path. *)
Theorem accepted_untagged_endpoint_is_general
    (toCamelCase : string -> string)
    (w : World) (this : nat) (cl : APIClient) (name : string)
    (endpoint : APIEndpoint) (params query : option Params) (body : JSValue)
    (c : Call) :
  reachable w -> clients w !! this = Some cl ->
  truthyUrl (getEndpointBaseUrl cl endpoint) = true ->
  (forall t, In t (ep_tags endpoint) -> isResourceTag t = false) ->
  calls (step w (Request this endpoint params query body)) !! length (calls w)
    = Some c ->
  c_state c = Starting ->
  getResourceFromEndpoint toCamelCase name endpoint = "general".
Proof.
  intros Hreach Hcl Hbase Htags Hc Hst.
  unfold getResourceFromEndpoint.
  destruct (List.find isResourceTag (ep_tags endpoint)) as [tag|] eqn:Hfind.
  { apply List.find_some in Hfind as [Hin Htag].
    rewrite (Htags _ Hin) in Htag. discriminate. }
  destruct (firstSegment (ep_path endpoint)) as [segment|] eqn:Hseg; [|reflexivity].
  apply firstSegment_leading_slash in Hseg.
  destruct (request_leading_slash w this cl endpoint params query body
              Hreach Hcl Hbase Hseg) as (c' & o & Hreq & Hst').
  cbn [step] in Hc. rewrite Hreq in Hc. cbn [calls addCall] in Hc.
  rewrite list_lookup_middle in Hc by reflexivity. injection Hc as <-.
  rewrite Hst in Hst'. discriminate.
Qed.

Lemma accepted_untagged_endpoint_is_general_witness :
  getResourceFromEndpoint (fun s => s) "ping" ping = "general" /\
  getResourceFromEndpoint (fun s => s) "listPosts"
    {| ep_path := "/posts"; ep_method := GET; ep_baseUrl := None;
       ep_params := None; ep_query := None; ep_body := None;
       ep_response := None; ep_tags := ["query"]; ep_description := None |}
    = "posts".
Proof.
  split; [|reflexivity].
  refine (accepted_untagged_endpoint_is_general (fun s => s)
            (run initial [Construct sampleConfig None]) 0
            (newAPIClient 0 sampleConfig None) "ping" ping None None JUndefined
            _ _ _ _ _ _ _).
  - now eexists.
  - reflexivity.
  - reflexivity.
  - intros t [].
  - reflexivity.
  - reflexivity.
Defined.
